(** * WorleyNoise3D: a shallow embedding of [worley_noise.h]

    The header defines two functions of interest:
    - [details::generateFeaturePoints], which places one random integer
      point in every cell of a [gridSize]^3 lattice, and
    - [worleyNoise3D], which fills a [size]^3 array of [float] with the
      inverted, normalised distance of every voxel to its nearest feature
      point.

    Machine model (LP64 with libstdc++ and IEEE-754 arithmetic):
    - [std::size_t] is a 64-bit unsigned integer, modelled as a [Z] in
      [0, 2^64) with every operation reduced modulo 2^64;
    - [int] is a 32-bit two's complement integer; [static_cast<int>] wraps;
    - [float] is IEEE-754 binary32 with round-to-nearest-even, modelled by
      the executable [SpecFloat] operations at precision 24 and [emax] 128,
      every operation rounded on its own (no contraction, no excess
      precision);
    - a call has one of three outcomes: it returns a value, it throws an
      exception, or its behaviour is undefined (division by zero, signed
      overflow, an empty range handed to [std::uniform_int_distribution],
      an out-of-bounds [operator[]]);
    - [std::vector] is the one of libstdc++: [max_size()] is
      [PTRDIFF_MAX / sizeof(T)], and constructing, reserving or growing a
      vector beyond it throws [std::length_error] before any memory is
      asked for;
    - below that limit memory is assumed sufficient: [operator new] never
      throws [std::bad_alloc]. *)

From Stdlib Require Import ZArith Lia Bool SpecFloat.
From stdpp Require Import base option list.

Local Open Scope Z_scope.

(** ** Machine integers *)

Definition SIZE_WIDTH : Z := 64.
Definition INT_WIDTH : Z := 32.
Definition INT_MIN : Z := - 2 ^ 31.
Definition INT_MAX : Z := 2 ^ 31 - 1.

(** Reduction of a mathematical integer to [std::size_t]. *)
Definition size_t_wrap (n : Z) : Z := n mod 2 ^ SIZE_WIDTH.

Definition size_t_add (a b : Z) : Z := size_t_wrap (a + b).
Definition size_t_mul (a b : Z) : Z := size_t_wrap (a * b).

(** Unsigned division; dividing by zero is undefined. *)
Definition size_t_div (a b : Z) : option Z :=
  if b =? 0 then None else Some (a / b).

(** [static_cast<int>] of an integer value: reduction modulo 2^32 into
    [INT_MIN, INT_MAX]. *)
Definition static_cast_int (n : Z) : Z :=
  (n + 2 ^ 31) mod 2 ^ INT_WIDTH - 2 ^ 31.

(** Signed subtraction; overflow is undefined. *)
Definition int_sub (a b : Z) : option Z :=
  let r := a - b in
  if (INT_MIN <=? r) && (r <=? INT_MAX) then Some r else None.

(** Values of type [std::size_t]. *)
Definition is_size_t (n : Z) : Prop := 0 <= n < 2 ^ SIZE_WIDTH.

(** ** Single-precision floating point

    IEEE-754 binary32: 24 bits of precision, exponents below [emax = 128],
    round to nearest, ties to even. *)

Definition prec : Z := 24.
Definition emax : Z := 128.

Definition float : Type := spec_float.

Definition fadd : float -> float -> float := SFadd prec emax.
Definition fsub : float -> float -> float := SFsub prec emax.
Definition fmul : float -> float -> float := SFmul prec emax.
Definition fdiv : float -> float -> float := SFdiv prec emax.
Definition sqrtf : float -> float := SFsqrt prec emax.
Definition flt : float -> float -> bool := SFltb.
Definition fle : float -> float -> bool := SFleb.

(** Conversion of an integer ([int] or [std::size_t]) to [float]. *)
Definition static_cast_float (n : Z) : float :=
  binary_normalize prec emax n 0 false.

(** [std::numeric_limits<float>::max()]. *)
Definition FLT_MAX : float := SFmax_float prec emax.

Declare Scope f32_scope.
Delimit Scope f32_scope with f32.
Bind Scope f32_scope with float.
Infix "+" := fadd : f32_scope.
Infix "-" := fsub : f32_scope.
Infix "*" := fmul : f32_scope.
Infix "/" := fdiv : f32_scope.
Infix "<" := flt : f32_scope.
Infix "<=" := fle : f32_scope.
Notation "0.f" := (S754_zero false) : f32_scope.
Notation "1.f" := (static_cast_float 1) : f32_scope.
Notation "3.f" := (static_cast_float 3) : f32_scope.

(** ** Outcomes

    What a call does: it returns, it throws, or its behaviour is
    undefined. *)

Inductive exception : Type := length_error.

Inductive outcome (A : Type) : Type :=
  | Returns (a : A)
  | Throws (e : exception)
  | Undefined.
Arguments Returns {A} a.
Arguments Throws {A} e.
Arguments Undefined {A}.

#[global] Instance outcome_bind : MBind outcome := fun A B f o =>
  match o with
  | Returns a => f a
  | Throws e => Throws e
  | Undefined => Undefined
  end.

(** An operation whose only failure is undefined behaviour. *)
Definition defined {A : Type} (o : option A) : outcome A :=
  match o with
  | Some a => Returns a
  | None => Undefined
  end.

(** The value returned, or [d] when there is none. *)
Definition returned {A : Type} (d : A) (o : outcome A) : A :=
  match o with
  | Returns a => a
  | _ => d
  end.

(** ** [std::vector]

    The capacity limit [max_size()], the constructor [vector(n)],
    [reserve], [emplace_back], and [v[i] = a], where an index outside the
    vector is undefined behaviour. *)

Definition PTRDIFF_MAX : Z := 2 ^ 63 - 1.

Definition sizeof_float : Z := 4.

Definition vector_max_size (sizeof_T : Z) : Z := PTRDIFF_MAX / sizeof_T.

(** [std::vector<T> v(n)]: [n] value-initialised elements. *)
Definition vector_create {A : Type} (sizeof_T n : Z) (a : A)
    : outcome (list A) :=
  if n <=? vector_max_size sizeof_T
  then Returns (replicate (Z.to_nat n) a)
  else Throws length_error.

(** [v.reserve(n)]: the contents do not change. *)
Definition vector_reserve {A : Type} (sizeof_T : Z) (v : list A) (n : Z)
    : outcome (list A) :=
  if n <=? vector_max_size sizeof_T then Returns v else Throws length_error.

(** [v.emplace_back(a)]: a vector that is full to [max_size()] cannot
    grow. *)
Definition vector_emplace_back {A : Type} (sizeof_T : Z) (v : list A) (a : A)
    : outcome (list A) :=
  if Z.of_nat (length v) <? vector_max_size sizeof_T
  then Returns (v ++ [a])
  else Throws length_error.

Definition vector_set {A : Type} (v : list A) (i : Z) (a : A)
    : option (list A) :=
  if (0 <=? i) && (i <? Z.of_nat (length v))
  then Some (<[Z.to_nat i := a]> v) else None.

(** ** Counted loops

    [for (std::size_t i = 0; i < n; i++) body] over a state [S], where the
    body may throw or run into undefined behaviour. *)

Fixpoint for_loop {S : Type} (fuel : nat) (i : Z)
    (body : Z -> S -> outcome S) (s : S) : outcome S :=
  match fuel with
  | O => Returns s
  | Datatypes.S fuel' =>
      match body i s with
      | Returns s' => for_loop fuel' (i + 1) body s'
      | Throws e => Throws e
      | Undefined => Undefined
      end
  end.

Definition for_range {S : Type} (n : Z) (body : Z -> S -> outcome S) (s : S)
    : outcome S :=
  for_loop (Z.to_nat n) 0 body s.

(** ** The random source

    [std::mt19937] seeded from [std::random_device] is an external source of
    entropy.  It is modelled as an arbitrary stream of integers together
    with the number of values consumed so far; every theorem quantifies over
    the stream. *)

Record mt19937 : Type := mk_mt19937 {
  entropy : nat -> Z;
  consumed : nat
}.

(** A [std::uniform_int_distribution<int>] with parameters [a] and [b]
    (constructing it with [b < a] is undefined).  A draw returns some
    integer of [a, b]: [a] plus the next entropy value reduced modulo the
    width of the range, which reaches every value of the range. *)
Record uniform_int_distribution : Type := mk_dist {
  dist_a : Z;
  dist_b : Z
}.

Definition make_uniform_int_distribution (a b : Z)
    : option uniform_int_distribution :=
  if a <=? b then Some (mk_dist a b) else None.

Definition draw (dist : uniform_int_distribution) (engine : mt19937)
    : Z * mt19937 :=
  (dist_a dist + entropy engine (consumed engine) mod (dist_b dist - dist_a dist + 1),
   mk_mt19937 (entropy engine) (Datatypes.S (consumed engine))).

Module details.

(** ** [Vector3<T>] *)

Record Vector3 (T : Type) : Type := mkVector3 { x : T; y : T; z : T }.
Arguments mkVector3 {T} _ _ _.
Arguments x {T} _.
Arguments y {T} _.
Arguments z {T} _.

Definition Vector3i : Type := Vector3 Z.

Definition Vector3f : Type := Vector3 float.

Definition distance (v1 v2 : Vector3f) : float :=
  let dx := (x v2 - x v1)%f32 in
  let dy := (y v2 - y v1)%f32 in
  let dz := (z v2 - z v1)%f32 in
  sqrtf (dx * dx + dy * dy + dz * dz)%f32.

Definition toVector3f (v : Vector3i) : Vector3f :=
  mkVector3 (static_cast_float (x v)) (static_cast_float (y v))
            (static_cast_float (z v)).

Definition mapValue (value oldMin oldMax newMin newMax : float) : float :=
  (newMin + (value - oldMin) * (newMax - newMin) / (oldMax - oldMin))%f32.

(** ** [generateFeaturePoints]

    The state of the triple loop is the vector built so far and the
    engine. *)

(** [sizeof(Vector3i)]: three [int]s. *)
Definition sizeof_Vector3i : Z := 12.

Definition sizeOfEachCell (size gridSize : Z) : option Z :=
  q ← size_t_div size gridSize;
  Some (static_cast_int q).

(** [static_cast<int>(i * sizeOfEachCell + dist(engine))]: the [int]
    operands are converted to [std::size_t] and the arithmetic is done
    there. *)
Definition cell_coordinate (i sizeOfEachCell r : Z) : Z :=
  static_cast_int
    (size_t_add (size_t_mul i (size_t_wrap sizeOfEachCell)) (size_t_wrap r)).

Definition emplace_point (dist : uniform_int_distribution)
    (sizeOfEachCell i j k : Z) (st : list Vector3i * mt19937)
    : outcome (list Vector3i * mt19937) :=
  let '(featurePoints, engine) := st in
  let '(rx, engine) := draw dist engine in
  let '(ry, engine) := draw dist engine in
  let '(rz, engine) := draw dist engine in
  featurePoints ←
    vector_emplace_back sizeof_Vector3i featurePoints
      (mkVector3 (cell_coordinate i sizeOfEachCell rx)
                 (cell_coordinate j sizeOfEachCell ry)
                 (cell_coordinate k sizeOfEachCell rz));
  Returns (featurePoints, engine).

Definition generateFeaturePoints (size gridSize : Z) (engine : mt19937)
    : outcome (list Vector3i) :=
  sizeOfEachCell ← defined (sizeOfEachCell size gridSize);
  hi ← defined (int_sub sizeOfEachCell 1);
  dist ← defined (make_uniform_int_distribution 0 hi);
  featurePoints ←
    vector_reserve sizeof_Vector3i [] (size_t_mul (size_t_mul size size) size);
  st ← for_range gridSize (fun i =>
          for_range gridSize (fun j =>
            for_range gridSize (fun k st =>
              emplace_point dist sizeOfEachCell i j k st)))
        (featurePoints, engine);
  Returns (fst st).

End details.

(** ** [worleyNoise3D] *)

Definition toLinearIndex (size w h d : Z) : Z :=
  size_t_add (size_t_add w (size_t_mul h size))
             (size_t_mul (size_t_mul d size) size).

(** The scan [for (auto point : featurePoints)] of one voxel. *)
Definition nearest (featurePoints : list details.Vector3i) (x y z : Z)
    : float :=
  fold_left
    (fun min point =>
       let d := details.distance (details.toVector3f point)
                  (details.mkVector3 (static_cast_float x)
                     (static_cast_float y) (static_cast_float z)) in
       if (d < min)%f32 then d else min)
    featurePoints FLT_MAX.

Definition sizeOfEachCell (size gridSize : Z) : option float :=
  q ← size_t_div size gridSize;
  Some (static_cast_float q).

Definition maxCellDistance (sizeOfEachCell : float) : float :=
  sqrtf (sizeOfEachCell * sizeOfEachCell * 3.f)%f32.

Definition voxel (featurePoints : list details.Vector3i)
    (maxCellDistance : float) (x y z : Z) : float :=
  (1.f - details.mapValue (nearest featurePoints x y z)
           0.f maxCellDistance 0.f 1.f)%f32.

Definition worleyNoise3D (size gridSize : Z) (engine : mt19937)
    : outcome (list float) :=
  resultNoise ←
    vector_create sizeof_float (size_t_mul (size_t_mul size size) size)
      0.f%f32;
  sizeOfEachCell ← defined (sizeOfEachCell size gridSize);
  let maxCellDistance := maxCellDistance sizeOfEachCell in
  featurePoints ← details.generateFeaturePoints size gridSize engine;
  for_range size (fun x =>
    for_range size (fun y =>
      for_range size (fun z resultNoise =>
        defined (vector_set resultNoise (toLinearIndex size x y z)
                   (voxel featurePoints maxCellDistance x y z)))))
    resultNoise.

(** * Specification vocabulary

    The predicates, invariants and abstractions that the statements
    below are written with. *)

(** ** The generator *)

(** Position of cell [(i, j, k)] in the enumeration with [i] outermost and
    [k] innermost. *)
Definition flat_index (gridSize i j k : Z) : Z :=
  i * gridSize * gridSize + j * gridSize + k.

(** The [n]-th offset drawn from the engine for cells of edge [cellEdge]. *)
Definition offset (engine : mt19937) (cellEdge n : Z) : Z :=
  entropy engine (consumed engine + Z.to_nat n)%nat mod cellEdge.

(** The point of cell [(i, j, k)]: the origin of the cell plus three
    consecutive offsets. *)
Definition feature_point (engine : mt19937) (gridSize cellEdge i j k : Z)
    : details.Vector3i :=
  let n := flat_index gridSize i j k in
  details.mkVector3 (i * cellEdge + offset engine cellEdge (3 * n))
                    (j * cellEdge + offset engine cellEdge (3 * n + 1))
                    (k * cellEdge + offset engine cellEdge (3 * n + 2)).

(** The point that the generator builds for cell [(i, j, k)]: the same,
    with the arithmetic of [cell_coordinate]. *)
Definition raw_point (engine : mt19937) (gridSize cellEdge i j k : Z)
    : details.Vector3i :=
  let n := flat_index gridSize i j k in
  details.mkVector3
    (details.cell_coordinate i cellEdge (offset engine cellEdge (3 * n)))
    (details.cell_coordinate j cellEdge (offset engine cellEdge (3 * n + 1)))
    (details.cell_coordinate k cellEdge (offset engine cellEdge (3 * n + 2))).

(** The capacity limit of the vector of feature points. *)
Definition max_points : Z := vector_max_size details.sizeof_Vector3i.

(** A point lies in cell [(i, j, k)] of edge [cellEdge]. *)
Definition in_cell (cellEdge i j k : Z) (p : details.Vector3i) : Prop :=
  (i * cellEdge <= details.x p <= (i + 1) * cellEdge - 1) /\
  (j * cellEdge <= details.y p <= (j + 1) * cellEdge - 1) /\
  (k * cellEdge <= details.z p <= (k + 1) * cellEdge - 1).

(** Invariant of the generator's loops after [n] cells of edge [c]: the
    vector holds the points of the first [n] cells and the engine has
    been drawn from [3 * n] times. *)
Definition gen_inv (gridSize : Z) (engine : mt19937) (c n : Z)
    (st : list details.Vector3i * mt19937) : Prop :=
  Z.of_nat (length st.1) = n /\
  st.2 = mk_mt19937 (entropy engine)
           (consumed engine + Z.to_nat (3 * n))%nat /\
  forall i j k, 0 <= i -> 0 <= j < gridSize -> 0 <= k < gridSize ->
    flat_index gridSize i j k < n ->
    st.1 !! Z.to_nat (flat_index gridSize i j k)
      = Some (raw_point engine gridSize c i j k).

(** ** The evaluator *)

(** The three loops of [worleyNoise3D], storing [val x y z] for every
    voxel. *)
Definition store_all (size : Z) (val : Z -> Z -> Z -> float)
    (resultNoise : list float) : outcome (list float) :=
  for_range size (fun x =>
    for_range size (fun y =>
      for_range size (fun z resultNoise =>
        defined (vector_set resultNoise (toLinearIndex size x y z)
                   (val x y z)))))
    resultNoise.

(** Invariant of those loops after [n] voxels, in the order in which they
    are visited. *)
Definition store_inv (size : Z) (val : Z -> Z -> Z -> float) (n : Z)
    (r : list float) : Prop :=
  Z.of_nat (length r) = size * size * size /\
  forall x y z, 0 <= x -> 0 <= y < size -> 0 <= z < size ->
    flat_index size x y z < n ->
    r !! Z.to_nat (flat_index size z y x) = Some (val x y z).

(** The normalisation constant of the call. *)
Definition normaliser (size gridSize : Z) : float :=
  maxCellDistance (static_cast_float (size / gridSize)).

(** The distance the program computes between a feature point and a
    voxel. *)
Definition voxel_distance (p : details.Vector3i) (x y z : Z) : float :=
  details.distance (details.toVector3f p)
    (details.mkVector3 (static_cast_float x) (static_cast_float y)
       (static_cast_float z)).

(** The linear index of a voxel, without wrap-around. *)
Definition linear_index (size x y z : Z) : nat :=
  Z.to_nat (x + y * size + z * size * size).

(** [(x, y, z)] is a voxel of the volume. *)
Definition in_volume (size x y z : Z) : Prop :=
  0 <= x < size /\ 0 <= y < size /\ 0 <= z < size.

(** The coordinate [a] lies between [p] and [b]. *)
Definition between (p a b : Z) : Prop := p <= a <= b \/ b <= a <= p.

(** A vector whose components are floats of the format. *)
Definition valid_vector (v : details.Vector3f) : Prop :=
  valid_binary prec emax (details.x v) = true /\
  valid_binary prec emax (details.y v) = true /\
  valid_binary prec emax (details.z v) = true.

(** [std::isfinite]: a zero or a finite number. *)
Definition isfinite (f : float) : bool :=
  match f with
  | S754_zero _ | S754_finite _ _ _ => true
  | _ => false
  end.

(** A float that is neither a zero nor a NaN. *)
Definition nonzero (f : float) : bool :=
  match f with
  | S754_infinity _ | S754_finite _ _ _ => true
  | _ => false
  end.

(** The scan for the minimum, over the list of distances. *)
Definition scan (ds : list float) (init : float) : float :=
  fold_left (fun min d => if (d < min)%f32 then d else min) ds init.

(** ** Rounding in binary32 *)

(** The mantissa with its round bit appended. *)
Definition hval (mrs : shr_record) : Z :=
  2 * shr_m mrs + Z.b2z (shr_r mrs).

(** A shift record [mrs] that represents the fraction [A / B]: mantissa
    and round bit are the floor of [2 * A / B], the sticky bit tells
    whether anything is left. *)
Record rep (A B : Z) (mrs : shr_record) : Prop := mk_rep {
  rep_den : 0 < B;
  rep_num : 0 <= A;
  rep_h : hval mrs = 2 * A / B;
  rep_s : shr_s mrs = negb (2 * A mod B =? 0);
  rep_m : 0 <= shr_m mrs
}.

(** The two low bits that a location stands for. *)
Definition loc_code (l : location) : Z :=
  match l with
  | loc_Exact => 0
  | loc_Inexact Lt => 1
  | loc_Inexact Eq => 2
  | loc_Inexact Gt => 3
  end.

(** [A / B] rounded to the nearest integer, ties to even. *)
Definition rnd (A B : Z) : Z :=
  let h := 2 * A / B in
  if Z.odd h
  then (if negb (2 * A mod B =? 0) then h / 2 + 1
        else if Z.even (h / 2) then h / 2 else h / 2 + 1)
  else h / 2.

(** A fraction [A / B] of units of [2 ^ ec] whose integer part fits the
    precision, at the exponent the format prescribes for its magnitude. *)
Definition canon_frac (A B ec : Z) : Prop :=
  0 <= A /\ 0 < B /\ A < 2 ^ prec * B /\ -149 <= ec /\
  (ec = -149 \/ 2 ^ (prec - 1) * B <= A).

(** The float made of a rounded mantissa [0 <= m <= 2 ^ prec] at exponent
    [ec]. *)
Definition finish (sx : bool) (m ec : Z) : spec_float :=
  match m with
  | Z0 => S754_zero sx
  | Zpos p =>
      if m <? 2 ^ prec
      then (if ec <=? emax - prec then S754_finite sx p ec
            else S754_infinity sx)
      else (if ec + 1 <=? emax - prec
            then S754_finite sx (Z.to_pos (2 ^ (prec - 1))) (ec + 1)
            else S754_infinity sx)
  | Zneg _ => S754_nan
  end.

(** Units of [2 ^ (-1000)], in which every value met here is an integer
    multiple. *)
Definition scale (e : Z) : Z := 2 ^ (e + 1000).

(** The value of a finite float, without its sign, in units of
    [2 ^ (-1000)]. *)
Definition value (f : spec_float) : Z :=
  match f with
  | S754_finite _ m e => Z.pos m * scale e
  | _ => 0
  end.

(** [f] is the float of sign [s] nearest to the value [V / W]. *)
Definition rounds (s : bool) (V W : Z) (f : spec_float) : Prop :=
  exists A B ec,
    f = finish s (rnd A B) ec /\ canon_frac A B ec /\
    A * scale ec * W = V * B.

(** Non-negative floats of the format: [+0], the positive finite floats
    and [+inf]. *)
Inductive nonneg_float : spec_float -> Prop :=
  | nonneg_zero : nonneg_float (S754_zero false)
  | nonneg_infinity : nonneg_float (S754_infinity false)
  | nonneg_finite m e :
      bounded prec emax m e = true -> nonneg_float (S754_finite false m e).

(** [+0] and the positive finite floats. *)
Inductive finite_nonneg : spec_float -> Prop :=
  | finite_nonneg_zero : finite_nonneg (S754_zero false)
  | finite_nonneg_finite m e :
      bounded prec emax m e = true -> finite_nonneg (S754_finite false m e).

(** The positive floats: finite ones and [+inf]. *)
Inductive positive_float : spec_float -> Prop :=
  | positive_infinity : positive_float (S754_infinity false)
  | positive_finite m e :
      bounded prec emax m e = true -> positive_float (S754_finite false m e).

(** The float [1], which is the value of [1.f]. *)
Definition one : spec_float := S754_finite false 8388608 (-23).

(** A float that is not NaN and not negative, or NaN. *)
Definition nonneg_or_nan (f : float) : Prop :=
  f = S754_nan \/ nonneg_float f.

(** A finite non-negative float of value at most [K]. *)
Definition finite_le (K : Z) (f : float) : Prop :=
  finite_nonneg f /\ value f <= K.

(** A finite float of either sign whose magnitude is at most [K]. *)
Definition finite_abs_le (K : Z) (f : float) : Prop :=
  match f with
  | S754_zero _ => True
  | S754_finite _ m e => bounded prec emax m e = true /\ Z.pos m * scale e <= K
  | _ => False
  end.

(** A positive float that is at least one. *)
Definition ge_one (f : float) : Prop :=
  positive_float f /\ SFleb one f = true.

(** ** The Euclidean distance *)

(** The squared Euclidean distance between a point and a voxel. *)
Definition squared_distance (p : details.Vector3i) (x y z : Z) : Z :=
  (details.x p - x) ^ 2 + (details.y p - y) ^ 2 + (details.z p - z) ^ 2.

(** [D] is the least squared Euclidean distance between a voxel and the
    points of a list. *)
Definition least_squared_distance (pts : list details.Vector3i)
    (x y z D : Z) : Prop :=
  (exists p, p ∈ pts /\ squared_distance p x y z = D) /\
  forall p, p ∈ pts -> D <= squared_distance p x y z.

(** The unit roundoff of binary32 is [1 / ulps]. *)
Definition ulps : Z := 2 ^ prec.

(** The non-negative float [f] is the number [D] up to [n] roundings:
    [D * (1 - 1/ulps)^n <= f <= D * (1 + 1/ulps)^n]. *)
Definition approximates (n D : Z) (f : float) : Prop :=
  finite_nonneg f /\
  (ulps - 1) ^ n * (D * scale 0) <= ulps ^ n * value f /\
  ulps ^ n * value f <= (ulps + 1) ^ n * (D * scale 0).

(** The non-negative float [d] is the square root of [D] up to the
    roundings of [details::distance]: three for the sum of the squares,
    and one for the root, which counts twice in the square:
    [D * (1 - 1/ulps)^5 <= d^2 <= D * (1 + 1/ulps)^5]. *)
Definition approximates_sqrt (D : Z) (d : float) : Prop :=
  finite_nonneg d /\
  (ulps - 1) ^ 5 * (D * scale 0 ^ 2) <= ulps ^ 5 * value d ^ 2 /\
  ulps ^ 5 * value d ^ 2 <= (ulps + 1) ^ 5 * (D * scale 0 ^ 2).

(** ** Concrete runs *)

(** An engine that always yields 0, and one that counts. *)
Definition zero_engine : mt19937 := mk_mt19937 (fun _ => 0) 0.
Definition count_engine : mt19937 := mk_mt19937 (fun n => Z.of_nat n) 0.

(** The points and the noise of a run with [size = 4] and
    [gridSize = 2]. *)
Definition points_4_2 : list details.Vector3i :=
  Eval vm_compute in
    returned [] (details.generateFeaturePoints 4 2 count_engine).

Definition noise_4_2 : list float :=
  Eval vm_compute in returned [] (worleyNoise3D 4 2 count_engine).

(** The points and the noise of a run with [size = 5] and
    [gridSize = 3], where the cells have edge 1 and the last layers of
    voxels lie outside every cell. *)
Definition points_5_3 : list details.Vector3i :=
  Eval vm_compute in
    returned [] (details.generateFeaturePoints 5 3 zero_engine).

Definition noise_5_3 : list float :=
  Eval vm_compute in returned [] (worleyNoise3D 5 3 zero_engine).

(** The noise of a run with [size = 2] and [gridSize = 2], one cell per
    voxel. *)
Definition noise_2_2 : list float :=
  Eval vm_compute in returned [] (worleyNoise3D 2 2 count_engine).

(** * Properties *)

(** ** Outcomes *)

Lemma bind_Returns {A B : Type} (f : A -> outcome B) (o : outcome A) b :
  o ≫= f = Returns b -> exists a, o = Returns a /\ f a = Returns b.
Proof.
  destruct o as [a| |]; simpl; intros H; try discriminate.
  now exists a.
Qed.

Lemma defined_Returns {A : Type} (o : option A) a :
  defined o = Returns a -> o = Some a.
Proof. destruct o; simpl; intros H; now inversion H. Qed.

Lemma defined_not_Throws {A : Type} (o : option A) e :
  defined o <> Throws e.
Proof. destruct o; discriminate. Qed.

(** ** Loops *)

Section ForLoop.
Context {S : Type}.
Implicit Types (body : Z -> S -> outcome S) (P : Z -> S -> Prop).

(** Total correctness: an invariant that every iteration re-establishes
    while returning holds at the end, and the loop does return. *)
Lemma for_loop_total P body fuel i s :
  P i s ->
  (forall j t, i <= j < i + Z.of_nat fuel -> P j t ->
     exists t', body j t = Returns t' /\ P (j + 1) t') ->
  exists s', for_loop fuel i body s = Returns s' /\ P (i + Z.of_nat fuel) s'.
Proof.
  revert i s. induction fuel as [|fuel IH]; intros i s Hi Hstep; simpl.
  - exists s. split; [reflexivity|]. now replace (i + Z.of_nat 0) with i by lia.
  - destruct (Hstep i s) as (t' & Hb & Ht'); [lia|assumption|].
    rewrite Hb.
    destruct (IH (i + 1) t') as (s' & Hs' & HP); [assumption| |].
    + intros j t Hj. apply Hstep. lia.
    + exists s'. split; [assumption|].
      now replace (i + Z.of_nat (Datatypes.S fuel)) with (i + 1 + Z.of_nat fuel) by lia.
Qed.

(** Partial correctness, together with the fact that every iteration was
    run, on a state satisfying the invariant, and returned. *)
Lemma for_loop_partial P body fuel i s s' :
  for_loop fuel i body s = Returns s' ->
  P i s ->
  (forall j t t', i <= j < i + Z.of_nat fuel -> P j t ->
     body j t = Returns t' -> P (j + 1) t') ->
  P (i + Z.of_nat fuel) s' /\
  (forall j, i <= j < i + Z.of_nat fuel ->
     exists t t', P j t /\ body j t = Returns t').
Proof.
  revert i s. induction fuel as [|fuel IH]; intros i s Hrun Hi Hstep;
    simpl in Hrun.
  - injection Hrun as <-. split; [|intros; lia].
    now replace (i + Z.of_nat 0) with i by lia.
  - destruct (body i s) as [t| |] eqn:Hb; [|discriminate..].
    destruct (IH (i + 1) t Hrun) as [HP Hall].
    + now apply (Hstep i s t); [lia| |].
    + intros j u u' Hj. apply Hstep. lia.
    + split.
      * now replace (i + Z.of_nat (Datatypes.S fuel)) with (i + 1 + Z.of_nat fuel) by lia.
      * intros j Hj. destruct (Z.eq_dec j i) as [->|Hne].
        -- now exists s, t.
        -- apply Hall. lia.
Qed.

(** A loop whose body never has undefined behaviour on the states of an
    invariant has none itself. *)
Lemma for_loop_defined P body fuel i s :
  P i s ->
  (forall j t, i <= j < i + Z.of_nat fuel -> P j t ->
     body j t <> Undefined /\
     forall t', body j t = Returns t' -> P (j + 1) t') ->
  for_loop fuel i body s <> Undefined.
Proof.
  revert i s. induction fuel as [|fuel IH]; intros i s Hi Hstep; simpl.
  - discriminate.
  - destruct (Hstep i s) as [Hdef Hnext]; [lia|assumption|].
    destruct (body i s) as [t| |]; [|discriminate|congruence].
    apply IH; [now apply Hnext|].
    intros j u Hj. apply Hstep. lia.
Qed.

Lemma for_range_total P body n s :
  0 <= n -> P 0 s ->
  (forall j t, 0 <= j < n -> P j t ->
     exists t', body j t = Returns t' /\ P (j + 1) t') ->
  exists s', for_range n body s = Returns s' /\ P n s'.
Proof.
  intros Hn H0 Hstep. unfold for_range.
  destruct (for_loop_total P body (Z.to_nat n) 0 s H0) as (s' & Hs' & HP).
  - intros j t Hj. apply Hstep. lia.
  - exists s'. split; [assumption|].
    now replace n with (0 + Z.of_nat (Z.to_nat n)) by lia.
Qed.

Lemma for_range_partial P body n s s' :
  0 <= n -> for_range n body s = Returns s' -> P 0 s ->
  (forall j t t', 0 <= j < n -> P j t -> body j t = Returns t' ->
     P (j + 1) t') ->
  P n s' /\
  (forall j, 0 <= j < n -> exists t t', P j t /\ body j t = Returns t').
Proof.
  intros Hn Hrun H0 Hstep. unfold for_range in Hrun.
  destruct (for_loop_partial P body (Z.to_nat n) 0 s s' Hrun H0) as [HP Hall].
  - intros j t t' Hj. apply Hstep. lia.
  - split.
    + now replace n with (0 + Z.of_nat (Z.to_nat n)) by lia.
    + intros j Hj. apply Hall. lia.
Qed.

Lemma for_range_defined P body n s :
  0 <= n -> P 0 s ->
  (forall j t, 0 <= j < n -> P j t ->
     body j t <> Undefined /\
     forall t', body j t = Returns t' -> P (j + 1) t') ->
  for_range n body s <> Undefined.
Proof.
  intros Hn H0 Hstep. unfold for_range.
  apply (for_loop_defined P); [assumption|].
  intros j t Hj. apply Hstep. lia.
Qed.
End ForLoop.


(** ** Machine integers without wrap-around *)

Lemma size_t_wrap_small n : is_size_t n -> size_t_wrap n = n.
Proof. unfold is_size_t, size_t_wrap. intros H. now apply Z.mod_small. Qed.

Lemma static_cast_int_small n :
  INT_MIN <= n <= INT_MAX -> static_cast_int n = n.
Proof.
  unfold static_cast_int, INT_MIN, INT_MAX, INT_WIDTH. intros H.
  rewrite Z.mod_small; lia.
Qed.

Lemma static_cast_int_range n : INT_MIN <= static_cast_int n <= INT_MAX.
Proof.
  unfold static_cast_int, INT_MIN, INT_MAX, INT_WIDTH.
  pose proof (Z.mod_pos_bound (n + 2 ^ 31) (2 ^ 32) ltac:(lia)). lia.
Qed.

Lemma cell_coordinate_small i c r :
  0 <= i -> 0 <= c <= INT_MAX -> 0 <= r -> i * c + r <= INT_MAX ->
  details.cell_coordinate i c r = i * c + r.
Proof.
  unfold INT_MAX. intros Hi Hc Hr Hle.
  assert (0 <= i * c) by nia.
  unfold details.cell_coordinate, size_t_add, size_t_mul.
  rewrite (size_t_wrap_small r) by (unfold is_size_t, SIZE_WIDTH; lia).
  rewrite (size_t_wrap_small c) by (unfold is_size_t, SIZE_WIDTH; lia).
  rewrite (size_t_wrap_small (i * c)) by (unfold is_size_t, SIZE_WIDTH; lia).
  rewrite (size_t_wrap_small (i * c + r))
    by (unfold is_size_t, SIZE_WIDTH; lia).
  apply static_cast_int_small. unfold INT_MIN, INT_MAX. lia.
Qed.

Lemma volume_wrap size :
  size_t_mul (size_t_mul size size) size = size_t_wrap (size * size * size).
Proof.
  unfold size_t_mul, size_t_wrap.
  now rewrite Z.mul_mod_idemp_l by discriminate.
Qed.

Lemma fits_int size :
  0 <= size -> size * size * size < 2 ^ SIZE_WIDTH -> size <= INT_MAX.
Proof.
  unfold SIZE_WIDTH, INT_MAX. intros H0 Hfit.
  destruct (Z.le_gt_cases size (2 ^ 31 - 1)) as [|Hgt]; [assumption|exfalso].
  assert (2 ^ 31 * 2 ^ 31 <= size * size) by (apply Z.mul_le_mono_nonneg; lia).
  assert (2 ^ 31 * 2 ^ 31 * 2 ^ 31 <= size * size * size)
    by (apply Z.mul_le_mono_nonneg; lia).
  lia.
Qed.

Lemma fits_small size :
  0 <= size -> size * size * size < 2 ^ SIZE_WIDTH -> size < 2 ^ 22.
Proof.
  intros Hs Hfit. destruct (Z.lt_ge_cases size (2 ^ 22)) as [|Hge];
    [assumption|exfalso].
  assert (2 ^ 22 * 2 ^ 22 <= size * size)
    by (apply Z.mul_le_mono_nonneg; lia).
  assert (2 ^ 22 * 2 ^ 22 * 2 ^ 22 <= size * size * size)
    by (apply Z.mul_le_mono_nonneg; lia).
  unfold SIZE_WIDTH in Hfit. lia.
Qed.

(** The capacity of a vector of feature points is below that of a vector
    of [float]s, which is below the range of [std::size_t]. *)
Lemma max_points_bounds :
  0 < max_points /\ max_points <= vector_max_size sizeof_float /\
  vector_max_size sizeof_float < 2 ^ SIZE_WIDTH.
Proof. vm_compute. repeat split; discriminate. Qed.

Lemma volume_fits size :
  0 <= size -> size * size * size <= max_points ->
  size * size * size < 2 ^ SIZE_WIDTH /\
  size_t_mul (size_t_mul size size) size = size * size * size.
Proof.
  intros H0 Hcap. pose proof max_points_bounds as (_ & H1 & H2).
  assert (0 <= size * size * size)
    by (repeat apply Z.mul_nonneg_nonneg; lia).
  split; [lia|].
  rewrite volume_wrap. apply size_t_wrap_small. unfold is_size_t. lia.
Qed.

Lemma cube_le a b : 0 <= a <= b -> a * a * a <= b * b * b.
Proof.
  intros H. assert (a * a <= b * b) by (apply Z.mul_le_mono_nonneg; lia).
  assert (0 <= a * a) by (apply Z.mul_nonneg_nonneg; lia).
  apply Z.mul_le_mono_nonneg; lia.
Qed.

(** ** The feature point generator *)

Lemma flat_index_inj g i j k i' j' k' :
  0 <= j < g -> 0 <= k < g -> 0 <= j' < g -> 0 <= k' < g ->
  flat_index g i j k = flat_index g i' j' k' ->
  i = i' /\ j = j' /\ k = k'.
Proof.
  unfold flat_index. intros Hj Hk Hj' Hk' H.
  assert ((i * g + j) * g + k = (i' * g + j') * g + k') as H1 by lia.
  assert (i * g + j = i' * g + j' /\ k = k') as [H2 ->].
  { apply (Z.div_mod_unique g); lia. }
  assert (i = i' /\ j = j') as [-> ->].
  { apply (Z.div_mod_unique g); lia. }
  auto.
Qed.

Lemma flat_index_bound size x y z :
  0 <= x < size -> 0 <= y < size -> 0 <= z < size ->
  0 <= flat_index size x y z < size * size * size.
Proof.
  intros Hx Hy Hz. unfold flat_index.
  assert (x * size * size <= (size - 1) * size * size)
    by (repeat apply Z.mul_le_mono_nonneg_r; lia).
  assert (y * size <= (size - 1) * size)
    by (apply Z.mul_le_mono_nonneg_r; lia).
  assert (0 <= x * size * size)
    by (repeat apply Z.mul_nonneg_nonneg; lia).
  assert (0 <= y * size) by (apply Z.mul_nonneg_nonneg; lia).
  lia.
Qed.

Lemma feature_point_in_cell engine g c i j k :
  0 < c -> in_cell c i j k (feature_point engine g c i j k).
Proof.
  intros Hc. unfold in_cell, feature_point, offset; simpl.
  repeat split;
    match goal with
    | |- context [?a mod c] => pose proof (Z.mod_pos_bound a c Hc); lia
    end.
Qed.

Lemma flat_index_surj g n :
  0 < g -> 0 <= n < g * g * g ->
  exists i j k,
    0 <= i < g /\ 0 <= j < g /\ 0 <= k < g /\ flat_index g i j k = n.
Proof.
  intros Hg Hn.
  exists (n / g / g), ((n / g) mod g), (n mod g).
  pose proof (Z.mod_pos_bound n g Hg).
  pose proof (Z.mod_pos_bound (n / g) g Hg).
  pose proof (Z.div_mod n g ltac:(lia)) as E1.
  pose proof (Z.div_mod (n / g) g ltac:(lia)) as E2.
  assert (0 <= n / g) by (apply Z.div_pos; lia).
  assert (0 <= n / g / g) by (apply Z.div_pos; lia).
  assert (n / g / g < g).
  { apply Z.div_lt_upper_bound; [lia|].
    apply Z.div_lt_upper_bound; lia. }
  unfold flat_index. repeat split; try lia.
Qed.

Lemma in_cell_unique c i j k i' j' k' p :
  0 < c -> in_cell c i j k p -> in_cell c i' j' k' p ->
  i = i' /\ j = j' /\ k = k'.
Proof.
  unfold in_cell. intros Hc (Hx & Hy & Hz) (Hx' & Hy' & Hz').
  repeat split; nia.
Qed.

(** One [emplace_back] of the generator: the point of the next cell is
    appended, unless the vector is full. *)
Lemma emplace_point_step gridSize engine c i j k st :
  0 <= i -> 0 <= j < gridSize -> 0 <= k < gridSize ->
  gen_inv gridSize engine c (flat_index gridSize i j k) st ->
  exists st',
    gen_inv gridSize engine c (flat_index gridSize i j k + 1) st' /\
    details.emplace_point (mk_dist 0 (c - 1)) c i j k st
      = if flat_index gridSize i j k <? max_points
        then Returns st' else Throws length_error.
Proof.
  intros Hi Hj Hk (Hlen & Heng & Hpts).
  assert (0 <= flat_index gridSize i j k) as Hn by (unfold flat_index; nia).
  destruct st as [fp eng]. simpl in *. subst eng.
  exists (fp ++ [raw_point engine gridSize c i j k],
          mk_mt19937 (entropy engine)
            (consumed engine
               + Z.to_nat (3 * (flat_index gridSize i j k + 1)))%nat).
  split.
  - repeat split; simpl.
    + rewrite length_app. simpl. lia.
    + intros i' j' k' Hi' Hj' Hk' Hlt.
      destruct (Z.eq_dec (flat_index gridSize i' j' k')
                         (flat_index gridSize i j k)) as [Heq|Hne].
      * destruct (flat_index_inj _ _ _ _ _ _ _ Hj' Hk' Hj Hk Heq)
          as (-> & -> & ->).
        rewrite lookup_app_r by lia.
        replace (Z.to_nat (flat_index gridSize i j k) - length fp)%nat
          with 0%nat by lia.
        reflexivity.
      * assert (0 <= flat_index gridSize i' j' k')
          by (unfold flat_index; nia).
        rewrite lookup_app_l by lia.
        apply Hpts; auto. lia.
  - unfold details.emplace_point, draw, vector_emplace_back; simpl.
    rewrite Hlen. fold max_points.
    replace (c - 1 - 0 + 1) with c by lia.
    destruct (_ <? _); [|reflexivity]. simpl.
    unfold raw_point, offset.
    set (n := flat_index gridSize i j k) in *.
    replace (consumed engine + Z.to_nat (3 * n))%nat
      with (consumed engine + Z.to_nat (3 * n) + 0)%nat at 1 by lia.
    replace (Datatypes.S (consumed engine + Z.to_nat (3 * n)))
      with (consumed engine + Z.to_nat (3 * n + 1))%nat by lia.
    replace (Datatypes.S (consumed engine + Z.to_nat (3 * n + 1)))
      with (consumed engine + Z.to_nat (3 * n + 2))%nat by lia.
    replace (Datatypes.S (consumed engine + Z.to_nat (3 * n + 2)))
      with (consumed engine + Z.to_nat (3 * (n + 1)))%nat by lia.
    rewrite Nat.add_0_r, !Z.add_0_l. reflexivity.
Qed.

Lemma gen_inv_init gridSize engine c :
  gen_inv gridSize engine c 0 ([], engine).
Proof.
  repeat split; simpl.
  - destruct engine as [e n]. simpl. f_equal. lia.
  - intros i j k Hi Hj Hk Hlt. exfalso. unfold flat_index in Hlt. nia.
Qed.

(** The three loops of the generator return when the vector can hold a
    point per cell. *)
Lemma generate_loops_total gridSize engine c :
  0 <= gridSize -> gridSize * gridSize * gridSize <= max_points ->
  exists st,
    for_range gridSize (fun i =>
      for_range gridSize (fun j =>
        for_range gridSize (fun k st =>
          details.emplace_point (mk_dist 0 (c - 1)) c i j k st)))
      ([], engine) = Returns st /\
    gen_inv gridSize engine c (gridSize * gridSize * gridSize) st.
Proof.
  intros Hg Hcap.
  replace (gridSize * gridSize * gridSize)
    with (flat_index gridSize gridSize 0 0) by (unfold flat_index; lia).
  apply (for_range_total
           (fun i => gen_inv gridSize engine c (flat_index gridSize i 0 0)));
    [lia|apply gen_inv_init|].
  intros i st Hi Hinv.
  replace (flat_index gridSize (i + 1) 0 0)
    with (flat_index gridSize i gridSize 0) by (unfold flat_index; lia).
  apply (for_range_total
           (fun j => gen_inv gridSize engine c (flat_index gridSize i j 0)));
    [lia|exact Hinv|].
  clear st Hinv. intros j st Hj Hinv.
  replace (flat_index gridSize i (j + 1) 0)
    with (flat_index gridSize i j gridSize) by (unfold flat_index; lia).
  apply (for_range_total
           (fun k => gen_inv gridSize engine c (flat_index gridSize i j k)));
    [lia|exact Hinv|].
  clear st Hinv. intros k st Hk Hinv.
  replace (flat_index gridSize i j (k + 1))
    with (flat_index gridSize i j k + 1) by (unfold flat_index; lia).
  destruct (emplace_point_step gridSize engine c i j k st)
    as (st' & Hinv' & Hrun); [lia..|assumption|].
  exists st'. split; [|assumption].
  rewrite Hrun.
  pose proof (flat_index_bound gridSize i j k Hi Hj Hk).
  destruct (Z.ltb_spec (flat_index gridSize i j k) max_points);
    [reflexivity|lia].
Qed.

(** When they return, the vector did hold a point per cell. *)
Lemma generate_loops_partial gridSize engine c st :
  0 <= gridSize ->
  for_range gridSize (fun i =>
    for_range gridSize (fun j =>
      for_range gridSize (fun k st =>
        details.emplace_point (mk_dist 0 (c - 1)) c i j k st)))
    ([], engine) = Returns st ->
  gridSize * gridSize * gridSize <= max_points /\
  gen_inv gridSize engine c (gridSize * gridSize * gridSize) st.
Proof.
  intros Hg Hrun.
  set (P := fun n (st : list details.Vector3i * mt19937) =>
              n <= max_points /\ gen_inv gridSize engine c n st).
  change (P (gridSize * gridSize * gridSize) st).
  replace (gridSize * gridSize * gridSize)
    with (flat_index gridSize gridSize 0 0) by (unfold flat_index; lia).
  refine (proj1 (for_range_partial
            (fun i => P (flat_index gridSize i 0 0)) _ _ _ _ Hg Hrun _ _)).
  { split; [|apply gen_inv_init].
    pose proof max_points_bounds. unfold flat_index. lia. }
  intros i s s' Hi Hinv Hrun1.
  replace (flat_index gridSize (i + 1) 0 0)
    with (flat_index gridSize i gridSize 0) by (unfold flat_index; lia).
  refine (proj1 (for_range_partial
            (fun j => P (flat_index gridSize i j 0)) _ _ _ _ Hg Hrun1 Hinv _)).
  clear s s' Hinv Hrun1. intros j s s' Hj Hinv Hrun2.
  replace (flat_index gridSize i (j + 1) 0)
    with (flat_index gridSize i j gridSize) by (unfold flat_index; lia).
  refine (proj1 (for_range_partial
            (fun k => P (flat_index gridSize i j k)) _ _ _ _ Hg Hrun2 Hinv _)).
  clear s s' Hinv Hrun2. intros k s s' Hk [_ Hinv] Hrun3.
  replace (flat_index gridSize i j (k + 1))
    with (flat_index gridSize i j k + 1) by (unfold flat_index; lia).
  destruct (emplace_point_step gridSize engine c i j k s)
    as (s'' & Hinv' & Hstep); [lia..|assumption|].
  rewrite Hstep in Hrun3.
  destruct (Z.ltb_spec (flat_index gridSize i j k) max_points);
    [|discriminate].
  injection Hrun3 as <-. split; [lia|assumption].
Qed.

(** The loops have no undefined behaviour. *)
Lemma generate_loops_defined dist c gridSize st :
  for_range gridSize (fun i =>
    for_range gridSize (fun j =>
      for_range gridSize (fun k st =>
        details.emplace_point dist c i j k st))) st <> Undefined.
Proof.
  assert (forall i j k s,
            details.emplace_point dist c i j k s <> Undefined) as Hbody.
  { intros i j k [fp eng]. unfold details.emplace_point, vector_emplace_back.
    simpl. destruct (_ <? _); discriminate. }
  unfold for_range.
  apply (for_loop_defined (fun _ _ => True)); [exact I|].
  intros i s _ _. split; [|auto].
  apply (for_loop_defined (fun _ _ => True)); [exact I|].
  intros j t _ _. split; [|auto].
  apply (for_loop_defined (fun _ _ => True)); [exact I|].
  intros k u _ _. split; [apply Hbody|auto].
Qed.

(** What a call of the generator that returns has gone through. *)
Lemma generateFeaturePoints_unfold size gridSize engine pts :
  details.generateFeaturePoints size gridSize engine = Returns pts ->
  gridSize <> 0 /\ 1 <= static_cast_int (size / gridSize) /\
  size_t_mul (size_t_mul size size) size <= max_points /\
  exists st,
    for_range gridSize (fun i =>
      for_range gridSize (fun j =>
        for_range gridSize (fun k st =>
          details.emplace_point
            (mk_dist 0 (static_cast_int (size / gridSize) - 1))
            (static_cast_int (size / gridSize)) i j k st)))
      ([], engine) = Returns st /\
    pts = st.1.
Proof.
  unfold details.generateFeaturePoints, details.sizeOfEachCell, size_t_div.
  destruct (Z.eqb_spec gridSize 0) as [|Hne]; [discriminate|]. simpl.
  set (c := static_cast_int (size / gridSize)).
  unfold int_sub. simpl.
  destruct (_ && _); [|discriminate]. simpl.
  unfold make_uniform_int_distribution.
  destruct (Z.leb_spec 0 (c - 1)); [|discriminate]. simpl.
  unfold vector_reserve. fold max_points.
  destruct (Z.leb_spec (size_t_mul (size_t_mul size size) size) max_points);
    [|discriminate].
  simpl. intros Hrun.
  apply bind_Returns in Hrun as (st & Hloops & Hret).
  injection Hret as <-.
  repeat split; [assumption|lia|assumption|].
  now exists st.
Qed.

Lemma generateFeaturePoints_cell_edge size gridSize engine pts :
  details.generateFeaturePoints size gridSize engine = Returns pts ->
  gridSize <> 0 /\ 1 <= static_cast_int (size / gridSize).
Proof.
  intros Hgen. apply generateFeaturePoints_unfold in Hgen.
  tauto.
Qed.

(** A call that returns: the cell edge is at least 1, [reserve] and every
    [emplace_back] were within the capacity, and the vector holds the
    point of every cell, in the order [flat_index]. *)
Lemma generateFeaturePoints_Returns size gridSize engine pts :
  0 <= gridSize ->
  details.generateFeaturePoints size gridSize engine = Returns pts ->
  gridSize <> 0 /\ 1 <= static_cast_int (size / gridSize) /\
  size_t_mul (size_t_mul size size) size <= max_points /\
  gridSize * gridSize * gridSize <= max_points /\
  Z.of_nat (length pts) = gridSize * gridSize * gridSize /\
  forall i j k,
    0 <= i < gridSize -> 0 <= j < gridSize -> 0 <= k < gridSize ->
    pts !! Z.to_nat (flat_index gridSize i j k)
      = Some (raw_point engine gridSize
                (static_cast_int (size / gridSize)) i j k).
Proof.
  intros Hg Hgen.
  apply generateFeaturePoints_unfold in Hgen
    as (Hne & Hc & Hres & st & Hloops & ->).
  apply generate_loops_partial in Hloops as (Hcap & Hlen & _ & Hpts);
    [|assumption].
  repeat split; try assumption.
  intros i j k Hi Hj Hk. apply Hpts; try lia.
  apply flat_index_bound; assumption.
Qed.

(** The generator returns under these conditions. *)
Lemma generateFeaturePoints_returns size gridSize engine :
  0 < gridSize -> 1 <= static_cast_int (size / gridSize) ->
  size_t_mul (size_t_mul size size) size <= max_points ->
  gridSize * gridSize * gridSize <= max_points ->
  exists pts, details.generateFeaturePoints size gridSize engine = Returns pts.
Proof.
  intros Hg Hc Hres Hcap.
  unfold details.generateFeaturePoints, details.sizeOfEachCell, size_t_div.
  destruct (Z.eqb_spec gridSize 0) as [|_]; [lia|]. simpl.
  set (c := static_cast_int (size / gridSize)) in *.
  pose proof (static_cast_int_range (size / gridSize)) as Hr. fold c in Hr.
  assert (int_sub c 1 = Some (c - 1)) as ->.
  { unfold int_sub. simpl.
    destruct (Z.leb_spec INT_MIN (c - 1)), (Z.leb_spec (c - 1) INT_MAX);
      simpl; unfold INT_MIN, INT_MAX in *; try reflexivity; lia. }
  simpl.
  assert (make_uniform_int_distribution 0 (c - 1) = Some (mk_dist 0 (c - 1)))
    as ->.
  { unfold make_uniform_int_distribution.
    destruct (Z.leb_spec 0 (c - 1)); [reflexivity|lia]. }
  simpl. unfold vector_reserve. fold max_points.
  destruct (Z.leb_spec (size_t_mul (size_t_mul size size) size) max_points);
    [|lia].
  simpl.
  destruct (generate_loops_total gridSize engine c) as (st & -> & _);
    [lia|assumption|].
  now exists st.1.
Qed.

(** The generator never has undefined behaviour when the cell edge is at
    least 1. *)
Lemma generateFeaturePoints_no_UB size gridSize engine :
  gridSize <> 0 -> 1 <= static_cast_int (size / gridSize) ->
  details.generateFeaturePoints size gridSize engine <> Undefined.
Proof.
  intros Hg Hc.
  unfold details.generateFeaturePoints, details.sizeOfEachCell, size_t_div.
  destruct (Z.eqb_spec gridSize 0) as [|_]; [lia|]. simpl.
  set (c := static_cast_int (size / gridSize)) in *.
  pose proof (static_cast_int_range (size / gridSize)) as Hr. fold c in Hr.
  assert (int_sub c 1 = Some (c - 1)) as ->.
  { unfold int_sub. simpl.
    destruct (Z.leb_spec INT_MIN (c - 1)), (Z.leb_spec (c - 1) INT_MAX);
      simpl; unfold INT_MIN, INT_MAX in *; try reflexivity; lia. }
  simpl.
  assert (make_uniform_int_distribution 0 (c - 1) = Some (mk_dist 0 (c - 1)))
    as ->.
  { unfold make_uniform_int_distribution.
    destruct (Z.leb_spec 0 (c - 1)); [reflexivity|lia]. }
  simpl. unfold vector_reserve.
  destruct (_ <=? _); [|discriminate]. simpl.
  pose proof (generate_loops_defined (mk_dist 0 (c - 1)) c gridSize
                ([], engine)) as Hdef.
  destruct (for_range _ _ _); [discriminate|discriminate|congruence].
Qed.

(** With no cell, or a cell edge below 1, its behaviour is undefined: it
    divides by zero, or asks for a distribution over an empty range. *)
Lemma generateFeaturePoints_Undefined size gridSize engine :
  gridSize = 0 \/ static_cast_int (size / gridSize) < 1 ->
  details.generateFeaturePoints size gridSize engine = Undefined.
Proof.
  intros Hbad.
  unfold details.generateFeaturePoints, details.sizeOfEachCell, size_t_div.
  destruct (Z.eqb_spec gridSize 0) as [|Hne]; [reflexivity|]. simpl.
  destruct Hbad as [|Hc]; [contradiction|].
  set (c := static_cast_int (size / gridSize)) in *.
  unfold int_sub. destruct (_ && _); [|reflexivity]. simpl.
  unfold make_uniform_int_distribution.
  destruct (Z.leb_spec 0 (c - 1)); [lia|reflexivity].
Qed.

Section Generator.
Variables (size gridSize : Z) (engine : mt19937).
Hypothesis Hgrid : 0 < gridSize <= size.
Hypothesis Hsize : size <= INT_MAX.

Let c := size / gridSize.

Lemma cell_edge_bounds : 1 <= c /\ gridSize * c <= size.
Proof.
  subst c. split.
  - apply Z.div_le_lower_bound; lia.
  - apply Z.mul_div_le. lia.
Qed.

Lemma cell_coordinate_exact i r :
  0 <= i < gridSize -> 0 <= r < c ->
  details.cell_coordinate i c r = i * c + r.
Proof.
  intros Hi Hr. destruct cell_edge_bounds as [Hc1 Hgc].
  assert ((i + 1) * c <= gridSize * c)
    by (apply Z.mul_le_mono_nonneg_r; lia).
  apply cell_coordinate_small; unfold INT_MAX in *; lia.
Qed.

(** Without wrap-around the generator's point is the point of the cell. *)
Lemma raw_point_exact i j k :
  0 <= i < gridSize -> 0 <= j < gridSize -> 0 <= k < gridSize ->
  raw_point engine gridSize c i j k = feature_point engine gridSize c i j k.
Proof.
  intros Hi Hj Hk. destruct cell_edge_bounds as [Hc1 _].
  unfold raw_point, feature_point, offset.
  assert (forall m, 0 <= m mod c < c) as Hm
    by (intros m; apply Z.mod_pos_bound; lia).
  rewrite !cell_coordinate_exact by (auto; apply Hm).
  reflexivity.
Qed.

Lemma cell_edge_int : static_cast_int (size / gridSize) = c.
Proof.
  destruct cell_edge_bounds as [Hc1 Hgc].
  apply static_cast_int_small.
  assert (c * 1 <= gridSize * c) by nia.
  unfold INT_MIN, INT_MAX in *. lia.
Qed.

Lemma generator_cell_edge :
  details.sizeOfEachCell size gridSize = Some c.
Proof.
  unfold details.sizeOfEachCell, size_t_div.
  destruct (Z.eqb_spec gridSize 0) as [?|_]; [lia|]. simpl.
  now rewrite cell_edge_int.
Qed.

(** What the generator returns is the enumeration of the points
    [feature_point] in the order [flat_index]. *)
Lemma generateFeaturePoints_spec pts :
  details.generateFeaturePoints size gridSize engine = Returns pts ->
  Z.of_nat (length pts) = gridSize * gridSize * gridSize /\
  forall i j k,
    0 <= i < gridSize -> 0 <= j < gridSize -> 0 <= k < gridSize ->
    pts !! Z.to_nat (flat_index gridSize i j k)
      = Some (feature_point engine gridSize c i j k).
Proof.
  intros Hgen.
  apply generateFeaturePoints_Returns in Hgen
    as (_ & _ & _ & _ & Hlen & Hpts); [|lia].
  split; [assumption|].
  intros i j k Hi Hj Hk.
  rewrite <- raw_point_exact by assumption.
  rewrite <- cell_edge_int. now apply Hpts.
Qed.

(** It returns when a vector can hold a point per voxel. *)
Lemma generateFeaturePoints_total :
  size * size * size <= max_points ->
  exists pts, details.generateFeaturePoints size gridSize engine = Returns pts.
Proof.
  intros Hcap. destruct cell_edge_bounds as [Hc1 _].
  destruct (volume_fits size ltac:(lia) Hcap) as [_ Hvol].
  apply generateFeaturePoints_returns; [lia| | |].
  - rewrite cell_edge_int. assumption.
  - rewrite Hvol. assumption.
  - pose proof (cube_le gridSize size ltac:(lia)). lia.
Qed.

Lemma generated_point_cell pts p :
  details.generateFeaturePoints size gridSize engine = Returns pts ->
  p ∈ pts ->
  exists i j k,
    0 <= i < gridSize /\ 0 <= j < gridSize /\ 0 <= k < gridSize /\
    pts !! Z.to_nat (flat_index gridSize i j k) = Some p /\
    p = feature_point engine gridSize c i j k.
Proof.
  intros Hgen Hp.
  destruct (generateFeaturePoints_spec pts Hgen) as (Hlen & Hpts).
  apply list_elem_of_lookup in Hp as [n Hn].
  pose proof (lookup_lt_Some _ _ _ Hn) as Hlt.
  destruct (flat_index_surj gridSize (Z.of_nat n)) as (i & j & k & Hi & Hj & Hk & E);
    [lia|lia|].
  exists i, j, k. repeat split; try lia.
  - rewrite E, Nat2Z.id. exact Hn.
  - specialize (Hpts i j k Hi Hj Hk). rewrite E, Nat2Z.id, Hn in Hpts.
    now injection Hpts.
Qed.

Lemma generated_points_NoDup pts :
  details.generateFeaturePoints size gridSize engine = Returns pts ->
  NoDup pts.
Proof.
  intros Hgen. destruct cell_edge_bounds as [Hc1 Hgc].
  destruct (generateFeaturePoints_spec pts Hgen) as (Hlen & Hpts).
  apply NoDup_alt. intros a b p Ha Hb.
  pose proof (lookup_lt_Some _ _ _ Ha) as Hla.
  pose proof (lookup_lt_Some _ _ _ Hb) as Hlb.
  destruct (flat_index_surj gridSize (Z.of_nat a))
    as (i & j & k & Hi & Hj & Hk & Ea); [lia|lia|].
  destruct (flat_index_surj gridSize (Z.of_nat b))
    as (i' & j' & k' & Hi' & Hj' & Hk' & Eb); [lia|lia|].
  pose proof (Hpts i j k Hi Hj Hk) as Hpa.
  pose proof (Hpts i' j' k' Hi' Hj' Hk') as Hpb.
  rewrite Ea, Nat2Z.id, Ha in Hpa. rewrite Eb, Nat2Z.id, Hb in Hpb.
  injection Hpa as Hpa. injection Hpb as Hpb.
  destruct (in_cell_unique c i j k i' j' k' p) as (-> & -> & ->);
    [lia| | |].
  - rewrite Hpa. apply feature_point_in_cell. lia.
  - rewrite Hpb. apply feature_point_in_cell. lia.
  - lia.
Qed.

Lemma in_cell_in_volume i j k p :
  0 <= i < gridSize -> 0 <= j < gridSize -> 0 <= k < gridSize ->
  in_cell c i j k p ->
  0 <= details.x p <= gridSize * c - 1 /\
  0 <= details.y p <= gridSize * c - 1 /\
  0 <= details.z p <= gridSize * c - 1.
Proof.
  destruct cell_edge_bounds as [Hc1 Hgc].
  intros Hi Hj Hk (Hx & Hy & Hz).
  assert ((i + 1) * c <= gridSize * c)
    by (apply Z.mul_le_mono_nonneg_r; lia).
  assert ((j + 1) * c <= gridSize * c)
    by (apply Z.mul_le_mono_nonneg_r; lia).
  assert ((k + 1) * c <= gridSize * c)
    by (apply Z.mul_le_mono_nonneg_r; lia).
  assert (0 <= i * c) by (apply Z.mul_nonneg_nonneg; lia).
  assert (0 <= j * c) by (apply Z.mul_nonneg_nonneg; lia).
  assert (0 <= k * c) by (apply Z.mul_nonneg_nonneg; lia).
  lia.
Qed.
End Generator.

(** ** The voxel loops *)

Lemma toLinearIndex_wrap size w h d :
  toLinearIndex size w h d = size_t_wrap (w + h * size + d * size * size).
Proof.
  unfold toLinearIndex, size_t_add, size_t_mul, size_t_wrap.
  assert (2 ^ SIZE_WIDTH <> 0) as Hm by discriminate.
  rewrite Z.mul_mod_idemp_l by assumption.
  rewrite Z.add_mod_idemp_l by assumption.
  rewrite Z.add_mod_idemp_r by assumption.
  rewrite (Z.add_comm w), <- Z.add_assoc, Z.add_mod_idemp_l by assumption.
  f_equal. lia.
Qed.

Lemma vector_set_Some {A : Type} (v v' : list A) i a :
  vector_set v i a = Some v' ->
  0 <= i < Z.of_nat (length v) /\ v' = <[Z.to_nat i := a]> v.
Proof.
  unfold vector_set.
  destruct (Z.leb_spec 0 i), (Z.ltb_spec i (Z.of_nat (length v)));
    simpl; intros Hset; inversion Hset; auto.
Qed.

Lemma vector_set_in_bounds {A : Type} (v : list A) i a :
  0 <= i < Z.of_nat (length v) ->
  vector_set v i a = Some (<[Z.to_nat i := a]> v).
Proof.
  unfold vector_set. intros Hb.
  destruct (Z.leb_spec 0 i), (Z.ltb_spec i (Z.of_nat (length v)));
    simpl; auto; lia.
Qed.

Section VoxelLoops.
Variables (size : Z) (val : Z -> Z -> Z -> float).
Hypothesis Hsize : 0 <= size.

(** Whenever the loops return, the vector kept its length and every
    voxel's index was inside it. *)
Lemma store_all_Returns r0 r :
  store_all size val r0 = Returns r ->
  length r = length r0 /\
  forall x y z, 0 <= x < size -> 0 <= y < size -> 0 <= z < size ->
    0 <= toLinearIndex size x y z < Z.of_nat (length r0).
Proof.
  intros Hrun. unfold store_all in Hrun.
  set (P := fun (_ : Z) (t : list float) => length t = length r0).
  assert (forall x y t t',
    for_range size (fun z resultNoise =>
      defined (vector_set resultNoise (toLinearIndex size x y z)
                 (val x y z))) t
      = Returns t' ->
    P 0 t ->
    P 0 t' /\ forall z, 0 <= z < size ->
      0 <= toLinearIndex size x y z < Z.of_nat (length r0)) as Hz.
  { intros x y t t' Hr Ht.
    destruct (for_range_partial P _ _ _ _ Hsize Hr Ht) as [HP Hall].
    - intros z u u' _ Hu Hset.
      apply defined_Returns, vector_set_Some in Hset as [_ ->].
      unfold P in *. now rewrite length_insert.
    - split; [exact HP|]. intros z Hzr.
      destruct (Hall z Hzr) as (u & u' & Hu & Hset).
      apply defined_Returns, vector_set_Some in Hset as [Hb _].
      unfold P in Hu. now rewrite Hu in Hb. }
  assert (forall x t t',
    for_range size (fun y =>
      for_range size (fun z resultNoise =>
        defined (vector_set resultNoise (toLinearIndex size x y z)
                   (val x y z)))) t
      = Returns t' ->
    P 0 t ->
    P 0 t' /\ forall y z, 0 <= y < size -> 0 <= z < size ->
      0 <= toLinearIndex size x y z < Z.of_nat (length r0)) as Hy.
  { intros x t t' Hr Ht.
    destruct (for_range_partial P _ _ _ _ Hsize Hr Ht) as [HP Hall].
    - intros y u u' _ Hu Hin. now apply (Hz x y u u').
    - split; [exact HP|]. intros y z Hyr Hzr.
      destruct (Hall y Hyr) as (u & u' & Hu & Hin).
      now apply (Hz x y u u' Hin Hu). }
  destruct (for_range_partial P _ _ _ _ Hsize Hrun eq_refl) as [HP Hall].
  - intros x u u' _ Hu Hin. now apply (Hy x u u').
  - split; [exact HP|]. intros x y z Hxr Hyr Hzr.
    destruct (Hall x Hxr) as (u & u' & Hu & Hin).
    now apply (Hy x u u' Hin Hu).
Qed.

(** The loops never throw. *)
Lemma store_all_not_Throws r0 e : store_all size val r0 <> Throws e.
Proof.
  assert (forall (body : Z -> list float -> outcome (list float)),
            (forall i t, body i t <> Throws e) ->
            forall fuel i t, for_loop fuel i body t <> Throws e) as Hloop.
  { intros body Hbody. induction fuel as [|fuel IH]; intros i t; simpl.
    - discriminate.
    - pose proof (Hbody i t) as Hb.
      destruct (body i t) as [t'|e'|]; [apply IH| |discriminate].
      congruence. }
  unfold store_all, for_range.
  apply Hloop. intros x t. apply Hloop. intros y u. apply Hloop.
  intros z v. apply defined_not_Throws.
Qed.

Hypothesis Hfit : size * size * size < 2 ^ SIZE_WIDTH.

Lemma toLinearIndex_exact x y z :
  0 <= x < size -> 0 <= y < size -> 0 <= z < size ->
  toLinearIndex size x y z = flat_index size z y x.
Proof.
  intros Hx Hy Hz. rewrite toLinearIndex_wrap.
  pose proof (flat_index_bound size z y x Hz Hy Hx).
  replace (x + y * size + z * size * size) with (flat_index size z y x)
    by (unfold flat_index; lia).
  apply size_t_wrap_small. unfold is_size_t. lia.
Qed.

Lemma store_inv_step x y z r :
  0 <= x < size -> 0 <= y < size -> 0 <= z < size ->
  store_inv size val (flat_index size x y z) r ->
  exists r',
    vector_set r (toLinearIndex size x y z) (val x y z) = Some r' /\
    store_inv size val (flat_index size x y z + 1) r'.
Proof.
  intros Hx Hy Hz [Hlen Hval].
  pose proof (flat_index_bound size z y x Hz Hy Hx) as Hb.
  rewrite toLinearIndex_exact by assumption.
  eexists. split; [apply vector_set_in_bounds; lia|].
  split; [now rewrite length_insert|].
  intros x' y' z' Hx' Hy' Hz' Hlt.
  destruct (Z.eq_dec (flat_index size x' y' z') (flat_index size x y z))
    as [Heq|Hne].
  - destruct (flat_index_inj _ _ _ _ _ _ _ Hy' Hz' Hy Hz Heq)
      as (-> & -> & ->).
    apply list_lookup_insert_eq. lia.
  - assert (x' < size).
    { destruct (Z.lt_ge_cases x' size) as [|Hge]; [assumption|exfalso].
      pose proof (flat_index_bound size x y z Hx Hy Hz).
      assert (size * size * size <= x' * size * size)
        by (repeat apply Z.mul_le_mono_nonneg_r; lia).
      assert (0 <= y' * size) by (apply Z.mul_nonneg_nonneg; lia).
      unfold flat_index in *. lia. }
    pose proof (flat_index_bound size z' y' x' Hz' Hy' ltac:(lia)).
    rewrite list_lookup_insert_ne.
    + apply Hval; auto. lia.
    + intros E. apply Z2Nat.inj in E; [|lia|lia].
      symmetry in E.
      apply flat_index_inj in E as (-> & -> & ->); [|lia..].
      now apply Hne.
Qed.

Lemma store_all_total r0 :
  Z.of_nat (length r0) = size * size * size ->
  exists r,
    store_all size val r0 = Returns r /\
    store_inv size val (size * size * size) r.
Proof.
  intros Hlen. unfold store_all.
  replace (store_inv size val (size * size * size))
    with (store_inv size val (flat_index size size 0 0))
    by (f_equal; unfold flat_index; lia).
  apply (for_range_total (fun x => store_inv size val (flat_index size x 0 0)));
    [lia| |].
  { split; [exact Hlen|]. intros x y z Hx Hy Hz Hlt. exfalso.
    assert (0 <= x * size * size)
      by (repeat apply Z.mul_nonneg_nonneg; lia).
    assert (0 <= y * size) by (apply Z.mul_nonneg_nonneg; lia).
    unfold flat_index in Hlt. lia. }
  intros x r Hx Hinv.
  replace (flat_index size (x + 1) 0 0) with (flat_index size x size 0)
    by (unfold flat_index; lia).
  apply (for_range_total (fun y => store_inv size val (flat_index size x y 0)));
    [lia|exact Hinv|].
  clear r Hinv. intros y r Hy Hinv.
  replace (flat_index size x (y + 1) 0) with (flat_index size x y size)
    by (unfold flat_index; lia).
  apply (for_range_total (fun z => store_inv size val (flat_index size x y z)));
    [lia|exact Hinv|].
  clear r Hinv. intros z r Hz Hinv.
  replace (flat_index size x y (z + 1)) with (flat_index size x y z + 1)
    by (unfold flat_index; lia).
  destruct (store_inv_step x y z r Hx Hy Hz Hinv) as (r' & -> & Hinv').
  now exists r'.
Qed.
End VoxelLoops.

(** ** [worleyNoise3D] as a whole *)

Section Evaluator.
Variables (size gridSize : Z) (engine : mt19937).

(** What a call that returns has gone through: the vector of the result
    was constructed, the generator returned, and the loops returned. *)
Lemma worleyNoise3D_unfold r :
  worleyNoise3D size gridSize engine = Returns r ->
  size_t_mul (size_t_mul size size) size <= vector_max_size sizeof_float /\
  gridSize <> 0 /\
  exists pts,
    details.generateFeaturePoints size gridSize engine = Returns pts /\
    store_all size (voxel pts (normaliser size gridSize))
      (replicate (Z.to_nat (size_t_mul (size_t_mul size size) size)) 0.f%f32)
      = Returns r.
Proof.
  unfold worleyNoise3D, vector_create.
  destruct (Z.leb_spec (size_t_mul (size_t_mul size size) size)
              (vector_max_size sizeof_float)); [|discriminate].
  simpl. unfold sizeOfEachCell, size_t_div.
  destruct (Z.eqb_spec gridSize 0) as [|Hne]; [discriminate|]. simpl.
  intros Hrun. apply bind_Returns in Hrun as (pts & Hgen & Hrun).
  repeat split; try assumption.
  now exists pts.
Qed.

(** The loops never return when [size]^3 does not fit [std::size_t]:
    some voxel is then written outside the vector. *)
Lemma worleyNoise3D_Returns r :
  is_size_t size -> is_size_t gridSize ->
  worleyNoise3D size gridSize engine = Returns r ->
  0 < gridSize <= size /\ size * size * size < 2 ^ SIZE_WIDTH.
Proof.
  intros Hs Hg Hrun. unfold is_size_t in *.
  apply worleyNoise3D_unfold in Hrun as (_ & Hne & pts & Hgen & Hrun).
  apply generateFeaturePoints_cell_edge in Hgen as [_ Hc].
  assert (gridSize <= size) as Hle.
  { destruct (Z.le_gt_cases gridSize size) as [|Hgt]; [assumption|].
    rewrite Z.div_small in Hc by lia.
    change (static_cast_int 0) with 0 in Hc. lia. }
  split; [lia|].
  apply (store_all_Returns size _ ltac:(lia)) in Hrun as [_ Hin].
  rewrite length_replicate, volume_wrap in Hin.
  set (L := size_t_wrap (size * size * size)) in *.
  assert (0 <= L < 2 ^ SIZE_WIDTH) as HL
    by (apply Z.mod_pos_bound; reflexivity).
  destruct (Z.lt_ge_cases (size * size * size) (2 ^ SIZE_WIDTH))
    as [|Hge]; [assumption|exfalso].
  destruct (flat_index_surj size L) as (i & j & k & Hi & Hj & Hk & E);
    [lia|lia|].
  specialize (Hin k j i Hk Hj Hi).
  rewrite toLinearIndex_wrap in Hin.
  replace (k + j * size + i * size * size) with L in Hin
    by (rewrite <- E; unfold flat_index; lia).
  rewrite size_t_wrap_small in Hin by exact HL. lia.
Qed.

(** A call that returns was within the capacity of the vector of feature
    points. *)
Lemma worleyNoise3D_capacity r :
  is_size_t size -> is_size_t gridSize ->
  worleyNoise3D size gridSize engine = Returns r ->
  size * size * size <= max_points.
Proof.
  intros Hs Hg Hrun.
  destruct (worleyNoise3D_Returns r Hs Hg Hrun) as [Hvalid Hfit].
  apply worleyNoise3D_unfold in Hrun as (_ & _ & pts & Hgen & _).
  apply generateFeaturePoints_unfold in Hgen as (_ & _ & Hres & _).
  rewrite volume_wrap, size_t_wrap_small in Hres; [assumption|].
  unfold is_size_t.
  assert (0 <= size * size * size)
    by (repeat apply Z.mul_nonneg_nonneg; lia).
  lia.
Qed.

Hypothesis Hgrid : 0 < gridSize <= size.
Hypothesis Hfit : size * size * size < 2 ^ SIZE_WIDTH.

(** On valid inputs whose volume fits [std::size_t], the result of a call
    that returns holds the value of voxel [(x, y, z)] at index
    [x + y * size + z * size * size]. *)
Lemma worleyNoise3D_spec r :
  worleyNoise3D size gridSize engine = Returns r ->
  exists pts,
    details.generateFeaturePoints size gridSize engine = Returns pts /\
    Z.of_nat (length r) = size * size * size /\
    forall x y z, 0 <= x < size -> 0 <= y < size -> 0 <= z < size ->
      r !! Z.to_nat (x + y * size + z * size * size)
        = Some (voxel pts (normaliser size gridSize) x y z).
Proof.
  intros Hrun.
  apply worleyNoise3D_unfold in Hrun as (_ & _ & pts & Hgen & Hrun).
  destruct (store_all_total size (voxel pts (normaliser size gridSize))
              ltac:(lia) Hfit
              (replicate (Z.to_nat (size_t_mul (size_t_mul size size) size))
                 (S754_zero false)))
    as (r' & Hrun' & Hlen & Hval).
  { assert (0 <= size * size * size)
      by (repeat apply Z.mul_nonneg_nonneg; lia).
    rewrite length_replicate, volume_wrap, size_t_wrap_small; [lia|].
    unfold is_size_t. lia. }
  rewrite Hrun in Hrun'. injection Hrun' as <-.
  exists pts. repeat split; try assumption.
  intros x y z Hx Hy Hz.
  replace (x + y * size + z * size * size) with (flat_index size z y x)
    by (unfold flat_index; lia).
  apply Hval; try lia.
  apply flat_index_bound; lia.
Qed.

(** The call has no undefined behaviour. *)
Lemma worleyNoise3D_no_UB :
  worleyNoise3D size gridSize engine <> Undefined.
Proof.
  pose proof (fits_int size ltac:(lia) Hfit) as Hint.
  unfold worleyNoise3D, vector_create.
  destruct (_ <=? _) eqn:Hcreate; [|discriminate]. simpl.
  unfold sizeOfEachCell, size_t_div.
  destruct (Z.eqb_spec gridSize 0) as [|_]; [lia|]. simpl.
  pose proof (generateFeaturePoints_no_UB size gridSize engine
                ltac:(lia)) as Hgen.
  rewrite (cell_edge_int size gridSize Hgrid Hint) in Hgen.
  specialize (Hgen (proj1 (cell_edge_bounds size gridSize Hgrid))).
  destruct (details.generateFeaturePoints size gridSize engine)
    as [pts|e|]; [|discriminate|congruence].
  simpl.
  destruct (store_all_total size
              (voxel pts (maxCellDistance (static_cast_float (size / gridSize))))
              ltac:(lia) Hfit
              (replicate (Z.to_nat (size_t_mul (size_t_mul size size) size))
                 (S754_zero false)))
    as (r' & Hrun' & _).
  { assert (0 <= size * size * size)
      by (repeat apply Z.mul_nonneg_nonneg; lia).
    rewrite length_replicate, volume_wrap, size_t_wrap_small; [lia|].
    unfold is_size_t. lia. }
  unfold store_all in Hrun'. rewrite Hrun'. discriminate.
Qed.

(** It returns when a vector can hold a feature point per voxel. *)
Lemma worleyNoise3D_total :
  size * size * size <= max_points ->
  exists r, worleyNoise3D size gridSize engine = Returns r.
Proof.
  intros Hcap.
  pose proof (fits_int size ltac:(lia) Hfit) as Hint.
  destruct (generateFeaturePoints_total size gridSize engine Hgrid Hint Hcap)
    as (pts & Hgen).
  destruct (volume_fits size ltac:(lia) Hcap) as [_ Hvol].
  destruct (store_all_total size (voxel pts (normaliser size gridSize))
              ltac:(lia) Hfit
              (replicate (Z.to_nat (size_t_mul (size_t_mul size size) size))
                 (S754_zero false)))
    as (r & Hrun & _).
  { assert (0 <= size * size * size)
      by (repeat apply Z.mul_nonneg_nonneg; lia).
    rewrite length_replicate, Hvol. lia. }
  exists r. unfold worleyNoise3D, vector_create.
  rewrite Hvol.
  pose proof max_points_bounds as (_ & Hm & _).
  destruct (Z.leb_spec (size * size * size) (vector_max_size sizeof_float));
    [|lia].
  simpl. unfold sizeOfEachCell, size_t_div.
  destruct (Z.eqb_spec gridSize 0) as [|_]; [lia|]. simpl.
  rewrite Hgen. simpl. rewrite <- Hvol. exact Hrun.
Qed.
End Evaluator.

(** * Floating point

    What the [SpecFloat] operations compute, in integer arithmetic: every
    operation is the exact result rounded to the nearest float, ties to
    even. *)

(** ** Digits *)

Lemma digits2_pos_size p : digits2_pos p = Pos.size p.
Proof. induction p; simpl; congruence. Qed.

Lemma digits2_pos_bounds p :
  2 ^ (Z.pos (digits2_pos p) - 1) <= Z.pos p < 2 ^ Z.pos (digits2_pos p).
Proof.
  induction p as [p IH|p IH|]; simpl digits2_pos.
  - rewrite Pos2Z.inj_succ.
    replace (Z.succ (Z.pos (digits2_pos p)) - 1)
      with (Z.succ (Z.pos (digits2_pos p) - 1)) by lia.
    rewrite !Z.pow_succ_r by lia. lia.
  - rewrite Pos2Z.inj_succ.
    replace (Z.succ (Z.pos (digits2_pos p)) - 1)
      with (Z.succ (Z.pos (digits2_pos p) - 1)) by lia.
    rewrite !Z.pow_succ_r by lia. lia.
  - simpl. lia.
Qed.

Lemma Zdigits2_bounds m :
  0 < m -> 2 ^ (Zdigits2 m - 1) <= m < 2 ^ Zdigits2 m.
Proof.
  destruct m as [|p|p]; try lia. intros _. apply digits2_pos_bounds.
Qed.

Lemma Zdigits2_nonneg m : 0 <= Zdigits2 m.
Proof. destruct m; simpl; lia. Qed.

Lemma Zdigits2_pos m : 0 < m -> 0 < Zdigits2 m.
Proof. destruct m; simpl; lia. Qed.

Lemma Zdigits2_unique m d :
  2 ^ (d - 1) <= m < 2 ^ d -> 0 < m -> Zdigits2 m = d.
Proof.
  intros [Hlo Hhi] Hm.
  destruct (Zdigits2_bounds m Hm) as [Hlo' Hhi'].
  pose proof (Zdigits2_pos m Hm).
  assert (0 < d).
  { destruct (Z.lt_ge_cases 0 d); [assumption|].
    destruct (Z.eq_dec d 0) as [->|]; [simpl in Hhi; lia|].
    rewrite Z.pow_neg_r in Hhi by lia. lia. }
  destruct (Z.lt_trichotomy (Zdigits2 m) d) as [Hlt|[Heq|Hgt]];
    [exfalso|assumption|exfalso].
  - assert (2 ^ Zdigits2 m <= 2 ^ (d - 1))
      by (apply Z.pow_le_mono_r; lia). lia.
  - assert (2 ^ d <= 2 ^ (Zdigits2 m - 1))
      by (apply Z.pow_le_mono_r; lia). lia.
Qed.

(** ** Right shifts with a round bit and a sticky bit *)

Lemma iter_pos_nat {A : Type} (f : A -> A) p a :
  SpecFloat.iter_pos f p a = Nat.iter (Pos.to_nat p) f a.
Proof.
  revert a. induction p as [p IH|p IH|]; intros a.
  - change (SpecFloat.iter_pos f p~1 a)
      with (SpecFloat.iter_pos f p (SpecFloat.iter_pos f p (f a))).
    rewrite !IH, Pos2Nat.inj_xI, <- Nat.iter_succ_r, <- Nat.iter_add.
    f_equal. lia.
  - change (SpecFloat.iter_pos f p~0 a)
      with (SpecFloat.iter_pos f p (SpecFloat.iter_pos f p a)).
    rewrite !IH, Pos2Nat.inj_xO, <- Nat.iter_add.
    f_equal. lia.
  - reflexivity.
Qed.

Lemma shr_1_spec mrs :
  0 <= shr_m mrs ->
  0 <= shr_m (shr_1 mrs) /\
  hval (shr_1 mrs) = hval mrs / 2 /\
  shr_s (shr_1 mrs) = shr_s mrs || negb (hval mrs mod 2 =? 0).
Proof.
  destruct mrs as [m r s]. unfold hval. simpl. intros Hm.
  assert ((2 * m + Z.b2z r) / 2 = m) as E1.
  { symmetry. apply Z.div_unique with (r := Z.b2z r); [|lia].
    destruct r; simpl; lia. }
  assert ((2 * m + Z.b2z r) mod 2 = Z.b2z r) as E2.
  { symmetry. apply Z.mod_unique with (q := m); [|lia].
    destruct r; simpl; lia. }
  rewrite E1, E2.
  destruct m as [|[p|p|]|p]; try lia; simpl;
    (split; [lia|]); (split; [lia|]); destruct r, s; reflexivity.
Qed.

Lemma shr_iter_spec n mrs :
  0 <= shr_m mrs ->
  0 <= shr_m (Nat.iter n shr_1 mrs) /\
  hval (Nat.iter n shr_1 mrs) = hval mrs / 2 ^ Z.of_nat n /\
  shr_s (Nat.iter n shr_1 mrs)
    = shr_s mrs || negb (hval mrs mod 2 ^ Z.of_nat n =? 0).
Proof.
  intros Hm. induction n as [|n (IHm & IHh & IHs)].
  - simpl. rewrite Z.div_1_r, Z.mod_1_r. simpl.
    rewrite orb_false_r. auto.
  - simpl Nat.iter.
    destruct (shr_1_spec (Nat.iter n shr_1 mrs) IHm) as (Hm' & Hh' & Hs').
    split; [exact Hm'|]. rewrite Hh', Hs', IHh, IHs.
    assert (0 < 2 ^ Z.of_nat n) by (apply Z.pow_pos_nonneg; lia).
    rewrite Nat2Z.inj_succ, Z.pow_succ_r by lia.
    rewrite (Z.mul_comm 2).
    split; [rewrite Z.div_div by lia; reflexivity|].
    rewrite Z.rem_mul_r by lia.
    pose proof (Z.mod_pos_bound (hval mrs) (2 ^ Z.of_nat n) ltac:(lia)).
    pose proof (Z.mod_pos_bound (hval mrs / 2 ^ Z.of_nat n) 2 ltac:(lia)).
    rewrite <- orb_assoc. f_equal.
    destruct (Z.eqb_spec (hval mrs mod 2 ^ Z.of_nat n) 0),
             (Z.eqb_spec ((hval mrs / 2 ^ Z.of_nat n) mod 2) 0),
             (Z.eqb_spec (hval mrs mod 2 ^ Z.of_nat n
                + 2 ^ Z.of_nat n * ((hval mrs / 2 ^ Z.of_nat n) mod 2)) 0);
      simpl; try reflexivity; exfalso; nia.
Qed.

(** ** Rounding a fraction to the nearest integer, ties to even

    A record [mrs] describes the non-negative fraction [A / B] when its
    mantissa and round bit are the integer part of [2 * A / B] and its
    sticky bit tells whether something is left. *)

Lemma rep_shift A B mrs n :
  rep A B mrs -> rep A (B * 2 ^ Z.of_nat n) (Nat.iter n shr_1 mrs).
Proof.
  intros [HB HA Hh Hs Hm].
  destruct (shr_iter_spec n mrs Hm) as (Hm' & Hh' & Hs').
  assert (0 < 2 ^ Z.of_nat n) by (apply Z.pow_pos_nonneg; lia).
  split; try assumption; try lia.
  - rewrite Hh', Hh. apply Z.div_div; lia.
  - rewrite Hs', Hs, Hh, Z.rem_mul_r by lia.
    pose proof (Z.mod_pos_bound (2 * A) B HB).
    pose proof (Z.mod_pos_bound (2 * A / B) (2 ^ Z.of_nat n) ltac:(lia)).
    destruct (Z.eqb_spec (2 * A mod B) 0),
             (Z.eqb_spec ((2 * A / B) mod 2 ^ Z.of_nat n) 0),
             (Z.eqb_spec (2 * A mod B
                + B * ((2 * A / B) mod 2 ^ Z.of_nat n)) 0);
      simpl; try reflexivity; exfalso; nia.
Qed.

Lemma rep_of_loc m l :
  0 <= m -> rep (4 * m + loc_code l) 4 (shr_record_of_loc m l).
Proof.
  intros Hm.
  assert (forall c, 0 <= c < 4 ->
            2 * (4 * m + c) / 4 = 2 * m + c / 2 /\
            2 * (4 * m + c) mod 4 = 2 * (c mod 2)) as E.
  { intros c Hc.
    pose proof (Z.div_mod c 2 ltac:(lia)).
    pose proof (Z.mod_pos_bound c 2 ltac:(lia)).
    split; symmetry.
    - apply Z.div_unique with (r := 2 * (c mod 2)); lia.
    - apply Z.mod_unique with (q := 2 * m + c / 2); lia. }
  destruct l as [|[| |]];
    cbn [loc_code shr_record_of_loc];
    (split; [lia|lia| | |cbn [shr_m]; lia]); unfold hval;
    cbn [shr_m shr_r shr_s Z.b2z].
  - destruct (E 0 ltac:(lia)) as [-> _]. reflexivity.
  - destruct (E 0 ltac:(lia)) as [_ ->]. reflexivity.
  - destruct (E 2 ltac:(lia)) as [-> _]. reflexivity.
  - destruct (E 2 ltac:(lia)) as [_ ->]. reflexivity.
  - destruct (E 1 ltac:(lia)) as [-> _]. reflexivity.
  - destruct (E 1 ltac:(lia)) as [_ ->]. reflexivity.
  - destruct (E 3 ltac:(lia)) as [-> _]. reflexivity.
  - destruct (E 3 ltac:(lia)) as [_ ->]. reflexivity.
Qed.

Lemma rep_round A B mrs :
  rep A B mrs ->
  round_nearest_even (shr_m mrs) (loc_of_shr_record mrs) = rnd A B.
Proof.
  intros [HB HA Hh Hs Hm]. unfold rnd. rewrite <- Hh, <- Hs.
  destruct mrs as [m r s]. unfold hval. simpl in *.
  assert ((2 * m + Z.b2z r) / 2 = m) as ->.
  { symmetry. apply Z.div_unique with (r := Z.b2z r); [|lia].
    destruct r; simpl; lia. }
  replace (Z.odd (2 * m + Z.b2z r)) with r.
  - destruct r, s; reflexivity.
  - destruct r; simpl.
    + rewrite Z.add_comm, Z.odd_add_mul_2. reflexivity.
    + rewrite Z.add_0_r, Z.odd_mul. reflexivity.
Qed.

(** The rounded value exceeds [k] exactly when the fraction is beyond
    [k + 1/2], or on it with [k] odd. *)
Lemma rnd_gt_iff A B k :
  0 < B -> 0 <= A ->
  k + 1 <= rnd A B <->
  (2 * k + 1) * B < 2 * A \/ ((2 * k + 1) * B = 2 * A /\ Z.odd k = true).
Proof.
  intros HB HA. unfold rnd.
  pose proof (Z.div_mod (2 * A) B ltac:(lia)) as E.
  pose proof (Z.mod_pos_bound (2 * A) B HB) as Hr.
  set (h := 2 * A / B) in *. set (rho := 2 * A mod B) in *.
  pose proof (Z.div_mod h 2 ltac:(lia)) as Eh.
  pose proof (Zmod_odd h) as Oh.
  pose proof (Zmod_odd (h / 2)) as Om.
  pose proof (Zmod_odd k) as Ok.
  pose proof (Z.div_mod (h / 2) 2 ltac:(lia)) as Em.
  pose proof (Z.div_mod k 2 ltac:(lia)) as Ek.
  rewrite <- Z.negb_odd.
  set (m := h / 2) in *.
  destruct (Z.odd h), (Z.eqb_spec rho 0), (Z.odd m), (Z.odd k);
    cbn [negb]; split; intros H;
    try (destruct H as [H|[H H']]; try discriminate H'); nia.
Qed.

Lemma rnd_mono A1 B1 A2 B2 :
  0 < B1 -> 0 < B2 -> 0 <= A1 -> 0 <= A2 ->
  A1 * B2 <= A2 * B1 -> rnd A1 B1 <= rnd A2 B2.
Proof.
  intros HB1 HB2 HA1 HA2 Hle.
  destruct (Z.le_gt_cases (rnd A1 B1) (rnd A2 B2)) as [|Hgt];
    [assumption|exfalso].
  set (k := rnd A1 B1 - 1).
  assert (k + 1 <= rnd A1 B1) as H1 by (subst k; lia).
  apply rnd_gt_iff in H1; [|assumption..].
  assert (k + 1 <= rnd A2 B2); [|subst k; lia].
  apply rnd_gt_iff; [assumption..|].
  destruct H1 as [H1|[H1 Hodd]].
  - left. nia.
  - destruct (Z.eq_dec ((2 * k + 1) * B2) (2 * A2)); [right; auto|left; nia].
Qed.

Lemma rnd_exact B k : 0 < B -> rnd (k * B) B = k.
Proof.
  intros HB. unfold rnd.
  replace (2 * (k * B)) with (2 * k * B) by lia.
  rewrite Z.div_mul, Z.mod_mul by lia.
  rewrite Z.odd_mul. cbn [Z.odd andb].
  rewrite Z.mul_comm. apply Z.div_mul. lia.
Qed.

Lemma rnd_le A B k :
  0 < B -> 0 <= A -> A <= k * B -> rnd A B <= k.
Proof.
  intros HB HA Hle. rewrite <- (rnd_exact B k HB).
  apply rnd_mono; nia.
Qed.

Lemma rnd_ge A B k :
  0 < B -> 0 <= k -> k * B <= A -> k <= rnd A B.
Proof.
  intros HB Hk Hle. rewrite <- (rnd_exact B k HB) at 1.
  apply rnd_mono; nia.
Qed.

Lemma rnd_scale A B c :
  0 < B -> 0 <= A -> 0 < c -> rnd (A * c) (B * c) = rnd A B.
Proof.
  intros HB HA Hc. apply Z.le_antisymm; apply rnd_mono; nia.
Qed.

Lemma rnd_floor A B :
  0 < B -> 0 <= A -> A / B <= rnd A B <= A / B + 1.
Proof.
  intros HB HA.
  pose proof (Z.div_mod A B ltac:(lia)).
  pose proof (Z.mod_pos_bound A B HB).
  assert (0 <= A / B) by (apply Z.div_pos; lia).
  split.
  - apply rnd_ge; nia.
  - apply rnd_le; nia.
Qed.

(** ** The rounding step of every operation *)

Lemma fexp_spec x : fexp prec emax x = Z.max (x - 24) (-149).
Proof. reflexivity. Qed.

Lemma shr_nat mrs e n :
  0 <= n -> shr mrs e n = (Nat.iter (Z.to_nat n) shr_1 mrs, e + n).
Proof.
  intros Hn. unfold shr. destruct n as [|p|p]; try lia.
  - simpl. now rewrite Z.add_0_r.
  - now rewrite iter_pos_nat.
Qed.

Lemma frac_floor A B n :
  0 < B -> 0 <= n -> A / (B * 2 ^ n) = A / B / 2 ^ n.
Proof.
  intros HB Hn. symmetry. apply Z.div_div; [lia|].
  apply Z.pow_pos_nonneg; lia.
Qed.

Lemma rep_floor A B mrs : rep A B mrs -> shr_m mrs = A / B.
Proof.
  intros [HB HA Hh Hs Hm]. unfold hval in Hh.
  assert (shr_m mrs = (2 * A / B) / 2) as ->.
  { apply Z.div_unique with (r := Z.b2z (shr_r mrs)); [|lia].
    destruct (shr_r mrs); simpl; lia. }
  rewrite Z.div_div by lia. rewrite (Z.mul_comm B 2).
  rewrite Z.div_mul_cancel_l by lia. reflexivity.
Qed.

Lemma binary_round_aux_spec sx m e l A B :
  rep A B (shr_record_of_loc m l) ->
  e <= fexp prec emax (Zdigits2 m + e) ->
  let ec := fexp prec emax (Zdigits2 m + e) in
  binary_round_aux prec emax sx m e l
    = finish sx (rnd A (B * 2 ^ (ec - e))) ec /\
  canon_frac A (B * 2 ^ (ec - e)) ec.
Proof.
  intros Hrep Hpre ec.
  pose proof (rep_floor _ _ _ Hrep) as Hm.
  assert (shr_m (shr_record_of_loc m l) = m) as Hmm by (destruct l as [|[]]; reflexivity).
  rewrite Hmm in Hm.
  pose proof (rep_den _ _ _ Hrep) as HB.
  pose proof (rep_num _ _ _ Hrep) as HA.
  assert (0 <= m) as Hm0 by (rewrite Hm; apply Z.div_pos; lia).
  set (n := ec - e). assert (0 <= n) as Hn by (subst n ec; lia).
  assert (0 < 2 ^ n) as Hpow by (apply Z.pow_pos_nonneg; lia).
  set (B' := B * 2 ^ n).
  assert (0 < B') as HB' by (subst B'; nia).
  (* the integer part after the shift *)
  assert (A / B' = m / 2 ^ n) as Hfl
    by (subst B'; rewrite frac_floor, Hm by lia; reflexivity).
  assert (A / B' < 2 ^ prec /\ -149 <= ec /\
          (ec = -149 \/ 2 ^ (prec - 1) <= A / B')) as (Hhi & Hec & Hnorm).
  { rewrite Hfl. subst ec n. rewrite fexp_spec in *.
    destruct (Z.eq_dec m 0) as [->|Hne].
    - simpl Zdigits2 in *. rewrite Z.div_0_l by lia.
      split; [reflexivity|]. split; [lia|]. left. lia.
    - destruct (Zdigits2_bounds m ltac:(lia)) as [Hlo Hup].
      set (d := Zdigits2 m) in *.
      assert (0 < d) by (apply Zdigits2_pos; lia).
      set (k := Z.max (d + e - 24) (-149) - e) in *.
      split; [|split; [lia|]].
      + apply Z.div_lt_upper_bound; [lia|].
        rewrite <- Z.pow_add_r by (unfold prec; lia).
        assert (2 ^ d <= 2 ^ (k + prec))
          by (apply Z.pow_le_mono_r; unfold prec; lia).
        lia.
      + destruct (Z.eq_dec (Z.max (d + e - 24) (-149)) (-149)) as [|Hmax];
          [left; assumption|right].
        apply Z.div_le_lower_bound; [lia|].
        rewrite <- Z.pow_add_r by (unfold prec; lia).
        assert (2 ^ (k + (prec - 1)) <= 2 ^ (d - 1))
          by (apply Z.pow_le_mono_r; unfold prec; lia).
        lia. }
  assert (canon_frac A B' ec) as Hcanon.
  { pose proof (Z.div_mod A B' ltac:(lia)).
    pose proof (Z.mod_pos_bound A B' HB').
    assert (0 < 2 ^ (prec - 1)) by reflexivity.
    repeat split; try assumption; [nia|].
    destruct Hnorm as [|Hnorm]; [left; assumption|right; nia]. }
  split; [|exact Hcanon].
  (* the first shift and the rounding *)
  unfold binary_round_aux, shr_fexp. fold ec. fold n.
  rewrite (shr_nat _ _ n Hn).
  replace (e + n) with ec by (subst n; lia).
  pose proof (rep_shift A B _ (Z.to_nat n) Hrep) as Hrep'.
  rewrite Z2Nat.id in Hrep' by assumption. fold B' in Hrep'.
  rewrite (rep_round _ _ _ Hrep').
  pose proof (rnd_floor A B' HB' HA) as Hrnd.
  assert (0 <= A / B') by (apply Z.div_pos; lia).
  set (m1 := rnd A B') in *.
  (* the second shift *)
  unfold finish.
  destruct m1 as [|p|p] eqn:Em1; [| |lia].
  - simpl Zdigits2. unfold shr.
    destruct (fexp prec emax (0 + ec) - ec) as [|q|q] eqn:Eq;
      [reflexivity| |reflexivity].
    rewrite fexp_spec in Eq. lia.
  - destruct (Z.ltb_spec (Z.pos p) (2 ^ prec)) as [Hlt|Hge].
    + assert (Zdigits2 (Z.pos p) <= prec) as Hd.
      { destruct (Zdigits2_bounds (Z.pos p) ltac:(lia)) as [Hlo _].
        destruct (Z.le_gt_cases (Zdigits2 (Z.pos p)) prec); [assumption|].
        assert (2 ^ prec <= 2 ^ (Zdigits2 (Z.pos p) - 1))
          by (apply Z.pow_le_mono_r; unfold prec in *; lia).
        lia. }
      unfold shr.
      destruct (fexp prec emax (Zdigits2 (Z.pos p) + ec) - ec)
        as [|q|q] eqn:Eq;
        [reflexivity| |reflexivity].
      rewrite fexp_spec in Eq. unfold prec in Hd. lia.
    + assert (Z.pos p = 2 ^ prec) as Ep by lia.
      change (2 ^ prec) with 16777216 in Ep. injection Ep as ->.
      change (Zdigits2 16777216) with 25.
      replace (fexp prec emax (25 + ec) - ec) with 1
        by (rewrite fexp_spec; lia).
      reflexivity.
Qed.

(** ** Order *)

Lemma SFcompare_finite m1 e1 m2 e2 :
  SFcompare (S754_finite false m1 e1) (S754_finite false m2 e2)
    = Some (match e1 ?= e2 with
            | Eq => (m1 ?= m2)%positive
            | c => c
            end).
Proof. simpl. destruct (e1 ?= e2); reflexivity. Qed.

Lemma SFleb_finite m1 e1 m2 e2 :
  SFleb (S754_finite false m1 e1) (S754_finite false m2 e2) = true <->
  e1 < e2 \/ (e1 = e2 /\ Z.pos m1 <= Z.pos m2).
Proof.
  unfold SFleb. rewrite SFcompare_finite.
  destruct (Z.compare_spec e1 e2); [|split; intros; (lia || reflexivity)|].
  - destruct (Pos.compare_spec m1 m2); split; intros H'; try reflexivity;
      try discriminate; lia.
  - split; intros H'; [discriminate|lia].
Qed.

Lemma SFltb_finite m1 e1 m2 e2 :
  SFltb (S754_finite false m1 e1) (S754_finite false m2 e2) = true <->
  e1 < e2 \/ (e1 = e2 /\ Z.pos m1 < Z.pos m2).
Proof.
  unfold SFltb. rewrite SFcompare_finite.
  destruct (Z.compare_spec e1 e2); [|split; intros; (lia || reflexivity)|].
  - destruct (Pos.compare_spec m1 m2); split; intros H'; try reflexivity;
      try discriminate; lia.
  - split; intros H'; [discriminate|lia].
Qed.

Lemma canon_rnd A B ec :
  canon_frac A B ec ->
  0 <= rnd A B <= 2 ^ prec /\ (ec = -149 \/ 2 ^ (prec - 1) <= rnd A B).
Proof.
  intros (HA & HB & Hhi & Hec & Hnorm).
  repeat split.
  - apply rnd_ge; lia.
  - apply rnd_le; lia.
  - destruct Hnorm as [|Hnorm]; [left; assumption|right].
    apply rnd_ge; [assumption|unfold prec; lia|lia].
Qed.

(** The result of a rounding is a float of the format. *)
Lemma finish_valid sx A B ec :
  canon_frac A B ec ->
  valid_binary prec emax (finish sx (rnd A B) ec) = true.
Proof.
  intros Hc. destruct (canon_rnd A B ec Hc) as ([H0 Hhi] & Hnorm).
  destruct Hc as (_ & _ & _ & Hec & _).
  unfold finish. destruct (rnd A B) as [|p|p]; [reflexivity| |lia].
  destruct (Z.ltb_spec (Z.pos p) (2 ^ prec)) as [Hlt|Hge].
  - destruct (Z.leb_spec ec (emax - prec)) as [Hle|]; [|reflexivity].
    unfold valid_binary, bounded, canonical_mantissa.
    apply andb_true_intro. split; [|now apply Z.leb_le].
    apply Z.eqb_eq. rewrite fexp_spec.
    destruct (Zdigits2_bounds (Z.pos p) ltac:(lia)) as [Hlo Hup].
    simpl Zdigits2 in *. set (d := Z.pos (digits2_pos p)) in *.
    assert (d <= 24).
    { destruct (Z.le_gt_cases d 24); [assumption|].
      assert (2 ^ prec <= 2 ^ (d - 1))
        by (apply Z.pow_le_mono_r; unfold prec; lia). lia. }
    destruct Hnorm as [->|Hn]; [lia|].
    assert (24 <= d).
    { destruct (Z.le_gt_cases 24 d); [assumption|].
      assert (2 ^ d <= 2 ^ (prec - 1))
        by (apply Z.pow_le_mono_r; unfold prec; lia). lia. }
    lia.
  - destruct (Z.leb_spec (ec + 1) (emax - prec)) as [Hle|]; [|reflexivity].
    unfold valid_binary, bounded, canonical_mantissa.
    apply andb_true_intro. split; [|now apply Z.leb_le].
    apply Z.eqb_eq. rewrite fexp_spec.
    change (Z.pos (digits2_pos (Z.to_pos (2 ^ (prec - 1))))) with 24. lia.
Qed.

Lemma scale_pos e : -1000 <= e -> 0 < scale e.
Proof. intros. apply Z.pow_pos_nonneg; lia. Qed.

Lemma scale_add e n :
  -1000 <= e -> 0 <= n -> scale (e + n) = scale e * 2 ^ n.
Proof.
  intros. unfold scale.
  replace (e + n + 1000) with (e + 1000 + n) by lia.
  apply Z.pow_add_r; lia.
Qed.

Lemma scale_lt e1 e2 :
  -1000 <= e1 -> e1 < e2 -> 2 * scale e1 <= scale e2.
Proof.
  intros H1 H2. unfold scale.
  rewrite <- Z.pow_succ_r by lia. apply Z.pow_le_mono_r; lia.
Qed.

(** Rounding is monotone: fractions at their canonical exponents, ordered
    by value, round to ordered floats. *)
Lemma finish_mono A1 B1 e1 A2 B2 e2 :
  canon_frac A1 B1 e1 -> canon_frac A2 B2 e2 ->
  A1 * scale e1 * B2 <= A2 * scale e2 * B1 ->
  SFleb (finish false (rnd A1 B1) e1) (finish false (rnd A2 B2) e2) = true.
Proof.
  intros Hc1 Hc2 Hle.
  destruct (canon_rnd _ _ _ Hc1) as ([L1 U1] & N1).
  destruct (canon_rnd _ _ _ Hc2) as ([L2 U2] & N2).
  destruct Hc1 as (HA1 & HB1 & Hhi1 & Hec1 & Hn1).
  destruct Hc2 as (HA2 & HB2 & Hhi2 & Hec2 & Hn2).
  pose proof (scale_pos e1 ltac:(lia)) as S1.
  pose proof (scale_pos e2 ltac:(lia)) as S2.
  assert (Hp : 2 ^ prec = 16777216) by reflexivity.
  assert (Hp' : 2 ^ (prec - 1) = 8388608) by reflexivity.
  rewrite Hp, Hp' in *.
  assert (e1 <= e2) as He.
  { destruct (Z.le_gt_cases e1 e2) as [|Hgt]; [assumption|exfalso].
    pose proof (scale_lt e2 e1 ltac:(lia) ltac:(lia)).
    destruct Hn1 as [|Hn1]; [lia|].
    assert (A2 * scale e2 * B1 < 16777216 * B2 * scale e2 * B1).
    { apply Z.mul_lt_mono_pos_r; [lia|].
      apply Z.mul_lt_mono_pos_r; lia. }
    assert (8388608 * B1 * (2 * scale e2) * B2 <= A1 * scale e1 * B2).
    { apply Z.mul_le_mono_nonneg_r; [lia|].
      apply Z.mul_le_mono_nonneg; lia. }
    lia. }
  assert (e1 = e2 -> rnd A1 B1 <= rnd A2 B2) as Hsame.
  { intros ->. apply rnd_mono; try assumption. nia. }
  assert (e1 < e2 -> 8388608 <= rnd A2 B2) as Hlt by (intros; lia).
  clear Hle Hhi1 Hhi2 Hn1 Hn2 HA1 HA2 HB1 HB2.
  unfold finish. rewrite Hp.
  change (Z.to_pos (2 ^ (prec - 1))) with 8388608%positive.
  change (emax - prec) with 104.
  destruct (rnd A1 B1) as [|p1|p1], (rnd A2 B2) as [|p2|p2]; try lia;
    try reflexivity;
    repeat match goal with
    | |- context [Z.ltb ?a ?b] => destruct (Z.ltb_spec a b)
    | |- context [Z.leb ?a ?b] => destruct (Z.leb_spec a b)
    end; try reflexivity; try (exfalso; lia);
    try (apply SFleb_finite; lia).
Qed.

(** ** Floats of the format and their values *)

Lemma bounded_canon m e :
  bounded prec emax m e = true ->
  canon_frac (Z.pos m) 1 e /\ e <= 104.
Proof.
  unfold bounded, canonical_mantissa. intros H.
  apply andb_prop in H as [Hc He].
  apply Z.eqb_eq in Hc. apply Z.leb_le in He. rewrite fexp_spec in Hc.
  change (emax - prec) with 104 in He.
  destruct (digits2_pos_bounds m) as [Hlo Hup].
  set (d := Z.pos (digits2_pos m)) in *.
  assert (d <= 24) by lia.
  assert (2 ^ d <= 2 ^ 24) by (apply Z.pow_le_mono_r; lia).
  split; [|assumption]. unfold canon_frac. change (2 ^ prec) with (2 ^ 24).
  repeat split; try lia.
  destruct (Z.eq_dec e (-149)); [left; assumption|right].
  assert (d = 24) as Hd by lia. rewrite Hd in Hlo.
  change (2 ^ (prec - 1)) with (2 ^ (24 - 1)). lia.
Qed.

Lemma finish_exact s m e :
  bounded prec emax m e = true ->
  finish s (rnd (Z.pos m) 1) e = S754_finite s m e.
Proof.
  intros Hb. destruct (bounded_canon m e Hb) as [(_ & _ & Hhi & _) He].
  replace (rnd (Z.pos m) 1) with (Z.pos m)
    by (rewrite <- (rnd_exact 1 (Z.pos m)) at 1; [f_equal; lia|lia]).
  unfold finish.
  destruct (Z.ltb_spec (Z.pos m) (2 ^ prec)); [|lia].
  change (emax - prec) with 104.
  destruct (Z.leb_spec e 104); [reflexivity|lia].
Qed.

(** On floats of the format the comparison is the comparison of the
    values. *)
Lemma SFcompare_value m1 e1 m2 e2 :
  bounded prec emax m1 e1 = true -> bounded prec emax m2 e2 = true ->
  SFcompare (S754_finite false m1 e1) (S754_finite false m2 e2)
    = Some (Z.pos m1 * scale e1 ?= Z.pos m2 * scale e2).
Proof.
  intros H1 H2.
  destruct (bounded_canon _ _ H1) as [(_ & _ & Hhi1 & Hlo1 & Hn1) _].
  destruct (bounded_canon _ _ H2) as [(_ & _ & Hhi2 & Hlo2 & Hn2) _].
  change (2 ^ prec) with 16777216 in *.
  change (2 ^ (prec - 1)) with 8388608 in *.
  pose proof (scale_pos e1 ltac:(lia)) as S1.
  pose proof (scale_pos e2 ltac:(lia)) as S2.
  rewrite SFcompare_finite. f_equal.
  destruct (Z.compare_spec e1 e2) as [->|Hlt|Hgt].
  - rewrite Pos2Z.inj_compare. apply Zmult_compare_compat_r. lia.
  - symmetry. apply Z.compare_lt_iff.
    pose proof (scale_lt e1 e2 ltac:(lia) Hlt).
    destruct Hn2 as [|Hn2]; [lia|].
    assert (Z.pos m1 * scale e1 < 16777216 * scale e1) by nia.
    assert (8388608 * scale e2 <= Z.pos m2 * scale e2) by nia.
    lia.
  - symmetry. apply Z.compare_gt_iff.
    pose proof (scale_lt e2 e1 ltac:(lia) Hgt).
    destruct Hn1 as [|Hn1]; [lia|].
    assert (Z.pos m2 * scale e2 < 16777216 * scale e2) by nia.
    assert (8388608 * scale e1 <= Z.pos m1 * scale e1) by nia.
    lia.
Qed.

Lemma rounds_mono V1 W1 f1 V2 W2 f2 :
  rounds false V1 W1 f1 -> rounds false V2 W2 f2 ->
  0 < W1 -> 0 < W2 -> V1 * W2 <= V2 * W1 ->
  SFleb f1 f2 = true.
Proof.
  intros (A1 & B1 & e1 & -> & Hc1 & E1) (A2 & B2 & e2 & -> & Hc2 & E2)
    HW1 HW2 Hle.
  apply finish_mono; try assumption.
  destruct Hc1 as (HA1 & HB1 & _). destruct Hc2 as (HA2 & HB2 & _).
  apply (Z.mul_le_mono_pos_r _ _ (W1 * W2)); [nia|].
  replace (A1 * scale e1 * B2 * (W1 * W2))
    with (A1 * scale e1 * W1 * (B2 * W2)) by lia.
  replace (A2 * scale e2 * B1 * (W1 * W2))
    with (A2 * scale e2 * W2 * (B1 * W1)) by lia.
  rewrite E1, E2.
  replace (V1 * B1 * (B2 * W2)) with (V1 * W2 * (B1 * B2)) by lia.
  replace (V2 * B2 * (B1 * W1)) with (V2 * W1 * (B1 * B2)) by lia.
  apply Z.mul_le_mono_nonneg_r; [nia|assumption].
Qed.

Lemma rounds_exact s m e :
  bounded prec emax m e = true ->
  rounds s (Z.pos m * scale e) 1 (S754_finite s m e).
Proof.
  intros Hb. exists (Z.pos m), 1, e.
  destruct (bounded_canon m e Hb) as [Hc _].
  rewrite finish_exact by assumption. repeat split; apply Hc.
Qed.

Lemma rounds_valid s V W f :
  rounds s V W f -> valid_binary prec emax f = true.
Proof. intros (A & B & ec & -> & Hc & _). now apply finish_valid. Qed.

(** ** The operations *)

Lemma Zdigits2_shift m k :
  0 < m -> 0 <= k -> Zdigits2 (m * 2 ^ k) = Zdigits2 m + k.
Proof.
  intros Hm Hk. destruct (Zdigits2_bounds m Hm) as [Hlo Hup].
  pose proof (Zdigits2_pos m Hm).
  assert (0 < 2 ^ k) by (apply Z.pow_pos_nonneg; lia).
  apply Zdigits2_unique; [|nia].
  replace (Zdigits2 m + k - 1) with (Zdigits2 m - 1 + k) by lia.
  rewrite !Z.pow_add_r by lia. nia.
Qed.

Lemma iter_xO_pow m d : Z.pos (Pos.iter xO m d) = Z.pos m * 2 ^ Z.pos d.
Proof.
  rewrite (Pos.iter_swap_gen _ _ Z.pos xO (Z.mul 2)) by reflexivity.
  change (Pos.iter (Z.mul 2) (Z.pos m) d) with (Z.shiftl (Z.pos m) (Z.pos d)).
  apply Z.shiftl_mul_pow2. lia.
Qed.

Lemma rep_exact m : 0 <= m -> rep m 1 (shr_record_of_loc m loc_Exact).
Proof.
  intros Hm. split; unfold hval; cbn [shr_record_of_loc shr_m shr_r shr_s];
    try lia.
  - rewrite Z.div_1_r. simpl Z.b2z. lia.
  - now rewrite Z.mod_1_r.
Qed.

Lemma binary_round_rounds s m e :
  -1000 <= e ->
  rounds s (Z.pos m * scale e) 1 (binary_round prec emax s m e).
Proof.
  intros He. unfold binary_round, shl_align.
  set (ec := fexp prec emax (Z.pos (digits2_pos m) + e)).
  assert (-149 <= ec) by (subst ec; rewrite fexp_spec; lia).
  destruct (ec - e) as [|d|d] eqn:Ed.
  - destruct (binary_round_aux_spec s (Z.pos m) e loc_Exact (Z.pos m) 1)
      as [Hr Hc]; [apply rep_exact; lia|simpl Zdigits2; fold ec; lia|].
    simpl Zdigits2 in Hr, Hc. fold ec in Hr, Hc. rewrite Ed in Hr, Hc.
    eexists _, _, _. split; [exact Hr|]. split; [exact Hc|].
    replace ec with e by lia. simpl. lia.
  - destruct (binary_round_aux_spec s (Z.pos m) e loc_Exact (Z.pos m) 1)
      as [Hr Hc]; [apply rep_exact; lia|simpl Zdigits2; fold ec; lia|].
    simpl Zdigits2 in Hr, Hc. fold ec in Hr, Hc. rewrite Ed in Hr, Hc.
    eexists _, _, _. split; [exact Hr|]. split; [exact Hc|].
    assert (scale ec = scale e * 2 ^ Z.pos d) as ->
      by (replace ec with (e + Z.pos d) by lia; apply scale_add; lia).
    lia.
  - assert (Zdigits2 (Z.pos (Pos.iter xO m d)) + ec
            = Z.pos (digits2_pos m) + e) as Hd.
    { rewrite iter_xO_pow, Zdigits2_shift by lia. simpl Zdigits2. lia. }
    destruct (binary_round_aux_spec s (Z.pos (Pos.iter xO m d)) ec loc_Exact
                (Z.pos (Pos.iter xO m d)) 1) as [Hr Hc];
      [apply rep_exact; lia|rewrite Hd; fold ec; lia|].
    rewrite Hd in Hr, Hc. fold ec in Hr, Hc.
    rewrite Z.sub_diag in Hr, Hc.
    eexists _, _, _. split; [exact Hr|]. split; [exact Hc|].
    rewrite iter_xO_pow.
    assert (scale e = scale ec * 2 ^ Z.pos d) as ->
      by (replace e with (ec + Z.pos d) by lia; apply scale_add; lia).
    simpl (2 ^ 0). lia.
Qed.

Lemma Zdigits2_ge m k : 0 <= k -> 2 ^ k <= m -> k + 1 <= Zdigits2 m.
Proof.
  intros Hk Hm.
  assert (0 < 2 ^ k) by (apply Z.pow_pos_nonneg; lia).
  destruct (Zdigits2_bounds m ltac:(lia)) as [_ Hup].
  destruct (Z.le_gt_cases (k + 1) (Zdigits2 m)); [assumption|].
  pose proof (Zdigits2_nonneg m).
  assert (2 ^ Zdigits2 m <= 2 ^ k) by (apply Z.pow_le_mono_r; lia).
  lia.
Qed.

Lemma Zdigits2_le m k : 0 <= k -> 0 < m -> m < 2 ^ k -> Zdigits2 m <= k.
Proof.
  intros Hk Hm Hlt.
  destruct (Zdigits2_bounds m Hm) as [Hlo _].
  destruct (Z.le_gt_cases (Zdigits2 m) k); [assumption|].
  assert (2 ^ k <= 2 ^ (Zdigits2 m - 1)) by (apply Z.pow_le_mono_r; lia).
  lia.
Qed.

Lemma bounded_digits m e :
  bounded prec emax m e = true ->
  1 <= Zdigits2 (Z.pos m) <= 24 /\ -149 <= e <= 104 /\
  (e = -149 \/ Zdigits2 (Z.pos m) = 24).
Proof.
  unfold bounded, canonical_mantissa. intros H.
  apply andb_prop in H as [Hc He].
  apply Z.eqb_eq in Hc. apply Z.leb_le in He. rewrite fexp_spec in Hc.
  change (emax - prec) with 104 in He. simpl Zdigits2. lia.
Qed.

Lemma scale_mul e1 e2 :
  -1000 <= e1 -> -1000 <= e2 -> -1000 <= e1 + e2 ->
  scale e1 * scale e2 = scale (e1 + e2) * scale 0.
Proof.
  intros. unfold scale. rewrite <- !Z.pow_add_r by lia. f_equal. lia.
Qed.

Lemma fmul_rounds s1 m1 e1 s2 m2 e2 :
  bounded prec emax m1 e1 = true -> bounded prec emax m2 e2 = true ->
  rounds (xorb s1 s2) (Z.pos m1 * scale e1 * (Z.pos m2 * scale e2)) (scale 0)
    (SFmul prec emax (S754_finite s1 m1 e1) (S754_finite s2 m2 e2)).
Proof.
  intros H1 H2.
  destruct (bounded_digits _ _ H1) as (Hd1 & He1 & Hn1).
  destruct (bounded_digits _ _ H2) as (Hd2 & He2 & Hn2).
  assert (Zdigits2 (Z.pos m1) + Zdigits2 (Z.pos m2) - 1
          <= Zdigits2 (Z.pos (m1 * m2))) as Hd.
  { destruct (Zdigits2_bounds (Z.pos m1) ltac:(lia)) as [L1 _].
    destruct (Zdigits2_bounds (Z.pos m2) ltac:(lia)) as [L2 _].
    replace (Zdigits2 (Z.pos m1) + Zdigits2 (Z.pos m2) - 1)
      with (Zdigits2 (Z.pos m1) - 1 + (Zdigits2 (Z.pos m2) - 1) + 1) by lia.
    apply Zdigits2_ge; [lia|].
    rewrite Z.pow_add_r by lia. rewrite Pos2Z.inj_mul.
    apply Z.mul_le_mono_nonneg; try assumption;
      apply Z.pow_nonneg; lia. }
  unfold SFmul.
  destruct (binary_round_aux_spec (xorb s1 s2) (Z.pos (m1 * m2)) (e1 + e2)
              loc_Exact (Z.pos (m1 * m2)) 1) as [Hr Hc];
    [apply rep_exact; lia|rewrite fexp_spec; lia|].
  set (ec := fexp prec emax (Zdigits2 (Z.pos (m1 * m2)) + (e1 + e2))) in *.
  assert (e1 + e2 <= ec) by (subst ec; rewrite fexp_spec; lia).
  eexists _, _, _. split; [exact Hr|]. split; [exact Hc|].
  assert (scale ec = scale (e1 + e2) * 2 ^ (ec - (e1 + e2))) as ->
    by (rewrite <- scale_add by lia; f_equal; lia).
  rewrite Pos2Z.inj_mul.
  replace (Z.pos m1 * scale e1 * (Z.pos m2 * scale e2) *
             (1 * 2 ^ (ec - (e1 + e2))))
    with (Z.pos m1 * Z.pos m2 * (scale e1 * scale e2) *
            2 ^ (ec - (e1 + e2))) by lia.
  rewrite scale_mul by lia. lia.
Qed.

(** Multiplying by one changes nothing. *)
Lemma fmul_one_r m e :
  bounded prec emax m e = true ->
  SFmul prec emax (S754_finite false m e) (S754_finite false 8388608 (-23))
    = S754_finite false m e.
Proof.
  intros Hb.
  destruct (bounded_digits _ _ Hb) as (Hd & He & Hn).
  unfold SFmul.
  assert (Zdigits2 (Z.pos (m * 8388608)) = Zdigits2 (Z.pos m) + 23) as Hd'.
  { rewrite Pos2Z.inj_mul. change (Z.pos 8388608) with (2 ^ 23).
    apply Zdigits2_shift; lia. }
  destruct (binary_round_aux_spec false (Z.pos (m * 8388608)) (e + -23)
              loc_Exact (Z.pos m * 2 ^ 23) 1) as [Hr _].
  - rewrite Pos2Z.inj_mul. apply rep_exact. lia.
  - rewrite Hd', fexp_spec. lia.
  - rewrite Hd' in Hr.
    replace (fexp prec emax (Zdigits2 (Z.pos m) + 23 + (e + -23))) with e
      in Hr by (rewrite fexp_spec; lia).
    replace (e - (e + -23)) with 23 in Hr by lia.
    simpl xorb. rewrite Hr, Z.mul_1_l, rnd_exact by lia.
    rewrite <- (finish_exact false m e Hb). f_equal.
    rewrite <- (rnd_exact 1 (Z.pos m)) at 1 by lia. f_equal. lia.
Qed.

Lemma new_location_rep A B :
  0 < B -> 0 <= A ->
  rep A B (shr_record_of_loc (A / B) (new_location B (A mod B))).
Proof.
  intros HB HA.
  pose proof (Z.div_mod A B ltac:(lia)) as E.
  pose proof (Z.mod_pos_bound A B HB) as Hk.
  assert (0 <= A / B) as Hq by (apply Z.div_pos; lia).
  set (q := A / B) in *. set (k := A mod B) in *.
  assert (2 * A / B = 2 * q + (if 2 * k <? B then 0 else 1) /\
          2 * A mod B = if 2 * k <? B then 2 * k else 2 * k - B)
    as [Eh Es].
  { destruct (Z.ltb_spec (2 * k) B); split; symmetry.
    - apply Z.div_unique with (r := 2 * k); lia.
    - apply Z.mod_unique with (q := 2 * q); lia.
    - apply Z.div_unique with (r := 2 * k - B); lia.
    - apply Z.mod_unique with (q := 2 * q + 1); lia. }
  assert (Z.even B = false -> 2 * k <> B) as Hodd.
  { intros Hev Heq. rewrite <- Heq, Z.even_mul in Hev. discriminate. }
  unfold new_location, new_location_even, new_location_odd.
  destruct (Z.even B) eqn:Hev, (Z.eqb_spec k 0) as [Hk0|Hk0];
    try (specialize (Hodd eq_refl));
    try destruct (Z.compare_spec (2 * k) B);
    try destruct (Z.compare_spec (2 * k + 1) B);
    (split; [lia|lia| | |cbn [shr_record_of_loc shr_m]; lia]);
    unfold hval; cbn [shr_record_of_loc shr_m shr_r shr_s Z.b2z];
    rewrite ?Eh, ?Es;
    destruct (Z.ltb_spec (2 * k) B); try lia;
    match goal with
    | |- _ = negb (?a =? 0) => destruct (Z.eqb_spec a 0)
    end; simpl; try reflexivity; lia.
Qed.

Lemma fdiv_rounds s1 m1 e1 s2 m2 e2 :
  bounded prec emax m1 e1 = true -> bounded prec emax m2 e2 = true ->
  rounds (xorb s1 s2) (Z.pos m1 * scale e1 * scale 0) (Z.pos m2 * scale e2)
    (SFdiv prec emax (S754_finite s1 m1 e1) (S754_finite s2 m2 e2)).
Proof.
  intros H1 H2.
  destruct (bounded_digits _ _ H1) as (Hd1 & He1 & Hn1).
  destruct (bounded_digits _ _ H2) as (Hd2 & He2 & Hn2).
  unfold SFdiv, SFdiv_core_binary.
  set (d1 := Zdigits2 (Z.pos m1)) in *. set (d2 := Zdigits2 (Z.pos m2)) in *.
  set (e' := Z.min (fexp prec emax (d1 + e1 - (d2 + e2))) (e1 - e2)).
  set (s := e1 - e2 - e').
  assert (0 <= s) as Hs by (subst s e'; lia).
  assert (-253 <= e') as He'
    by (subst e'; rewrite fexp_spec; lia).
  set (m' := match s with
             | 0 => Z.pos m1
             | Z.pos _ => Z.shiftl (Z.pos m1) s
             | Z.neg _ => 0
             end).
  assert (m' = Z.pos m1 * 2 ^ s) as Hm'.
  { subst m'. destruct s as [|p|p] eqn:Es; [simpl; lia| |lia].
    apply Z.shiftl_mul_pow2. lia. }
  assert (0 < 2 ^ s) as Hpow by (apply Z.pow_pos_nonneg; lia).
  assert (Z.div_eucl m' (Z.pos m2) = (m' / Z.pos m2, m' mod Z.pos m2))
    as -> by (unfold Z.div, Z.modulo;
              destruct (Z.div_eucl m' (Z.pos m2)); reflexivity).
  set (q := m' / Z.pos m2).
  pose proof (new_location_rep m' (Z.pos m2) ltac:(lia) ltac:(lia)) as Hrep.
  fold q in Hrep.
  (* the quotient has enough digits *)
  assert (e' <= fexp prec emax (Zdigits2 q + e')) as Hpre.
  { pose proof (Z.div_mod m' (Z.pos m2) ltac:(lia)) as E.
    pose proof (Z.mod_pos_bound m' (Z.pos m2) ltac:(lia)) as Hr.
    fold q in E.
    destruct (Zdigits2_bounds (Z.pos m1) ltac:(lia)) as [L1 U1].
    destruct (Zdigits2_bounds (Z.pos m2) ltac:(lia)) as [L2 U2].
    fold d1 in L1, U1. fold d2 in L2, U2.
    assert (0 <= q) by (apply Z.div_pos; lia).
    rewrite fexp_spec.
    destruct (Z.le_gt_cases e' (-149)) as [|Hbig]; [lia|].
    (* not in the underflow range: the shift is by prec + d2 - d1 at least *)
    assert (24 + d2 - d1 <= s)
      by (subst s e'; rewrite fexp_spec in *; lia).
    assert (d1 + s - d2 - 1 + 1 <= Zdigits2 q); [|lia].
    apply Zdigits2_ge; [lia|].
    apply Z.div_le_lower_bound; [lia|].
    rewrite Hm'.
    assert (2 ^ (d1 + s - d2 - 1) * 2 ^ d2 = 2 ^ (d1 - 1) * 2 ^ s) as Ep
      by (rewrite <- !Z.pow_add_r by lia; f_equal; lia).
    assert (0 < 2 ^ (d1 + s - d2 - 1)) by (apply Z.pow_pos_nonneg; lia).
    nia. }
  destruct (binary_round_aux_spec (xorb s1 s2) q e'
              (new_location (Z.pos m2) (m' mod Z.pos m2)) m' (Z.pos m2)
              Hrep Hpre) as [Hr Hc].
  set (ec := fexp prec emax (Zdigits2 q + e')) in *.
  eexists _, _, _. split; [exact Hr|]. split; [exact Hc|].
  assert (scale ec = scale e' * 2 ^ (ec - e')) as ->
    by (rewrite <- scale_add by lia; f_equal; lia).
  rewrite Hm'.
  assert (2 ^ s * scale e' * scale e2 = scale e1 * scale 0) as Ev.
  { unfold scale. rewrite <- !Z.pow_add_r by lia. f_equal. subst s. lia. }
  replace (Z.pos m1 * 2 ^ s * (scale e' * 2 ^ (ec - e')) *
             (Z.pos m2 * scale e2))
    with (Z.pos m1 * (2 ^ s * scale e' * scale e2) *
            (Z.pos m2 * 2 ^ (ec - e'))) by lia.
  rewrite Ev. lia.
Qed.

Lemma shl_align_fst m e ez :
  ez <= e -> Z.pos (fst (shl_align m e ez)) = Z.pos m * 2 ^ (e - ez).
Proof.
  intros Hle. unfold shl_align.
  destruct (ez - e) as [|d|d] eqn:Ed; simpl fst.
  - replace (e - ez) with 0 by lia. simpl. lia.
  - lia.
  - rewrite iter_xO_pow. f_equal. f_equal. lia.
Qed.

Lemma aligned_value m e ez :
  -1000 <= ez <= e -> Z.pos m * 2 ^ (e - ez) * scale ez = Z.pos m * scale e.
Proof.
  intros H. replace (scale e) with (scale (ez + (e - ez))) by (f_equal; lia).
  rewrite scale_add by lia. lia.
Qed.

Lemma fsub_spec m1 e1 m2 e2 :
  -1000 <= e1 -> -1000 <= e2 ->
  let x := S754_finite false m1 e1 in
  let y := S754_finite false m2 e2 in
  match value x ?= value y with
  | Eq => SFsub prec emax x y = S754_zero false
  | Gt => rounds false (value x - value y) 1 (SFsub prec emax x y)
  | Lt => rounds true (value y - value x) 1 (SFsub prec emax x y)
  end.
Proof.
  intros He1 He2 x y. unfold x, y, value, SFsub, cond_Zopp.
  set (ez := Z.min e1 e2).
  rewrite !shl_align_fst by (subst ez; lia).
  pose proof (aligned_value m1 e1 ez ltac:(subst ez; lia)) as V1.
  pose proof (aligned_value m2 e2 ez ltac:(subst ez; lia)) as V2.
  pose proof (scale_pos ez ltac:(subst ez; lia)) as Hs.
  set (a := Z.pos m1 * 2 ^ (e1 - ez)) in *.
  set (b := Z.pos m2 * 2 ^ (e2 - ez)) in *.
  rewrite <- V1, <- V2.
  assert ((a * scale ez ?= b * scale ez) = (a ?= b)) as ->
    by (symmetry; apply Zmult_compare_compat_r; lia).
  destruct (Z.compare_spec a b) as [Heq|Hlt|Hgt].
  - replace (a - b) with 0 by lia. reflexivity.
  - destruct (a - b) as [|p|p] eqn:Ed; try lia.
    unfold binary_normalize.
    replace (b * scale ez - a * scale ez) with (Z.pos p * scale ez) by lia.
    apply binary_round_rounds. subst ez; lia.
  - destruct (a - b) as [|p|p] eqn:Ed; try lia.
    unfold binary_normalize.
    replace (a * scale ez - b * scale ez) with (Z.pos p * scale ez) by lia.
    apply binary_round_rounds. subst ez; lia.
Qed.

Lemma fadd_rounds m1 e1 m2 e2 :
  -1000 <= e1 -> -1000 <= e2 ->
  let x := S754_finite false m1 e1 in
  let y := S754_finite false m2 e2 in
  rounds false (value x + value y) 1 (SFadd prec emax x y).
Proof.
  intros He1 He2 x y. unfold x, y, value, SFadd, cond_Zopp.
  set (ez := Z.min e1 e2).
  rewrite !shl_align_fst by (subst ez; lia).
  rewrite <- (aligned_value m1 e1 ez) by (subst ez; lia).
  rewrite <- (aligned_value m2 e2 ez) by (subst ez; lia).
  assert (0 < 2 ^ (e1 - ez)) by (apply Z.pow_pos_nonneg; subst ez; lia).
  assert (0 < 2 ^ (e2 - ez)) by (apply Z.pow_pos_nonneg; subst ez; lia).
  destruct (Z.pos m1 * 2 ^ (e1 - ez) + Z.pos m2 * 2 ^ (e2 - ez))
    as [|p|p] eqn:Ed; try lia.
  unfold binary_normalize.
  replace (Z.pos m1 * 2 ^ (e1 - ez) * scale ez
           + Z.pos m2 * 2 ^ (e2 - ez) * scale ez)
    with (Z.pos p * scale ez) by lia.
  apply binary_round_rounds. subst ez; lia.
Qed.

Lemma static_cast_float_rounds n :
  0 < n -> rounds false (n * scale 0) 1 (binary_normalize prec emax n 0 false).
Proof.
  intros Hn. destruct n as [|p|p]; try lia.
  apply binary_round_rounds. lia.
Qed.

Lemma sqrt_digits n q r :
  0 < n -> n = q * q + r -> 0 <= r <= 2 * q -> 0 <= q ->
  Zdigits2 q = (Zdigits2 n + 1) / 2.
Proof.
  intros Hn E Hr Hq.
  destruct (Zdigits2_bounds n Hn) as [Hlo Hup].
  pose proof (Zdigits2_pos n Hn) as Hd.
  set (d := Zdigits2 n) in *. set (k := (d + 1) / 2).
  assert (2 * k - 1 <= d <= 2 * k) as Hk
    by (subst k; pose proof (Z.div_mod (d + 1) 2 ltac:(lia));
        pose proof (Z.mod_pos_bound (d + 1) 2 ltac:(lia)); lia).
  assert (0 < q) by nia.
  assert (0 < 2 ^ (k - 1)) as HP by (apply Z.pow_pos_nonneg; lia).
  assert (2 ^ (k - 1) * 2 ^ (k - 1) <= 2 ^ (d - 1)) as H1.
  { rewrite <- Z.pow_add_r by lia. apply Z.pow_le_mono_r; lia. }
  assert (2 ^ d <= 2 ^ k * 2 ^ k) as H2.
  { rewrite <- Z.pow_add_r by lia. apply Z.pow_le_mono_r; lia. }
  assert (0 < 2 ^ k) by (apply Z.pow_pos_nonneg; lia).
  apply Zdigits2_unique; [|assumption]. split; nia.
Qed.

Lemma fsqrt_spec m e :
  exists A B ec,
    SFsqrt prec emax (S754_finite false m e) = finish false (rnd A B) ec /\
    canon_frac A B ec /\
    (1 <= Zdigits2 (Z.pos m) + e -> 1 <= rnd A B) /\
    (Zdigits2 (Z.pos m) + e <= 128 -> ec <= 40).
Proof.
  unfold SFsqrt, SFsqrt_core_binary.
  set (d := Zdigits2 (Z.pos m)).
  assert (0 < d) as Hd by (apply Zdigits2_pos; lia).
  rewrite !Z.div2_div.
  set (e' := Z.min (fexp prec emax ((d + e + 1) / 2)) (e / 2)).
  set (s := e - 2 * e').
  pose proof (Z.div_mod e 2 ltac:(lia)) as Ee.
  pose proof (Z.mod_pos_bound e 2 ltac:(lia)) as Hme.
  assert (0 <= s) as Hs by (subst s e'; lia).
  set (m' := match s with
             | 0 => Z.pos m
             | Z.pos _ => Z.shiftl (Z.pos m) s
             | Z.neg _ => 0
             end).
  assert (m' = Z.pos m * 2 ^ s) as Hm'.
  { subst m'. destruct s as [|p|p] eqn:Es; [simpl; lia| |lia].
    apply Z.shiftl_mul_pow2. lia. }
  assert (0 < 2 ^ s) as Hpow by (apply Z.pow_pos_nonneg; lia).
  assert (0 < m') as Hpos by nia.
  pose proof (Z.sqrtrem_spec m' ltac:(lia)) as Hsq.
  destruct (Z.sqrtrem m') as [q r]. destruct Hsq as [Eq Hr].
  assert (0 <= q) as Hq by lia.
  assert (Zdigits2 q + e' = (d + e + 1) / 2) as Hdq.
  { rewrite (sqrt_digits m' q r) by assumption.
    rewrite Hm', Zdigits2_shift by lia. fold d.
    replace (d + s + 1) with (d + e + 1 + (- e') * 2) by (subst s; lia).
    rewrite Z.div_add by lia. lia. }
  set (l := if r =? 0 then loc_Exact
            else loc_Inexact (if r <=? q then Lt else Gt)).
  destruct (binary_round_aux_spec false q e' l (4 * q + loc_code l) 4)
    as [Hres Hc];
    [apply rep_of_loc; assumption|rewrite Hdq; subst e'; lia|].
  rewrite Hdq in Hres, Hc.
  set (ec := fexp prec emax ((d + e + 1) / 2)) in *.
  assert (e' <= ec) as Hle by (subst e'; lia).
  exists (4 * q + loc_code l), (4 * 2 ^ (ec - e')), ec.
  split; [exact Hres|]. split; [exact Hc|].
  pose proof (Z.div_mod (d + e + 1) 2 ltac:(lia)) as Ed.
  pose proof (Z.mod_pos_bound (d + e + 1) 2 ltac:(lia)) as Hmd.
  split.
  - intros Hmag.
    assert (0 < q) by nia.
    destruct (Zdigits2_bounds q ltac:(lia)) as [Lq _].
    assert (ec - e' <= Zdigits2 q - 1)
      by (subst ec; rewrite fexp_spec; lia).
    assert (2 ^ (ec - e') <= 2 ^ (Zdigits2 q - 1))
      by (apply Z.pow_le_mono_r; lia).
    assert (0 <= loc_code l) by (destruct l as [|[]]; simpl; lia).
    apply rnd_ge; [|lia|lia].
    assert (0 < 2 ^ (ec - e')) by (apply Z.pow_pos_nonneg; lia). lia.
  - intros Hmag. subst ec. rewrite fexp_spec. lia.
Qed.

(** ** Shapes of results *)

Lemma finite_nonneg_nonneg f : finite_nonneg f -> nonneg_float f.
Proof. intros []; constructor; assumption. Qed.

Lemma positive_nonneg f : positive_float f -> nonneg_float f.
Proof. intros []; constructor; assumption. Qed.

Lemma finish_cases s A B ec :
  canon_frac A B ec ->
  (rnd A B = 0 /\ finish s (rnd A B) ec = S754_zero s) \/
  (0 < rnd A B /\
   (finish s (rnd A B) ec = S754_infinity s \/
    exists m e, finish s (rnd A B) ec = S754_finite s m e /\
                bounded prec emax m e = true)).
Proof.
  intros Hc. pose proof (finish_valid s A B ec Hc) as Hv.
  destruct (canon_rnd A B ec Hc) as ([H0 _] & _).
  unfold finish in *. destruct (rnd A B) as [|p|p]; [left; auto| |lia].
  right. split; [lia|].
  destruct (Z.pos p <? 2 ^ prec);
    match goal with
    | |- context [if ?b then _ else _] => destruct b
    end; eauto.
Qed.

Lemma rounds_nonneg V W f : rounds false V W f -> nonneg_float f.
Proof.
  intros (A & B & ec & -> & Hc & _).
  destruct (finish_cases false A B ec Hc)
    as [[_ ->]|[_ [->|(m & e & -> & Hb)]]]; constructor; assumption.
Qed.

Lemma finish_opp A ec :
  finish true A ec = SFopp (finish false A ec).
Proof.
  unfold finish. destruct A; try reflexivity.
  repeat match goal with
  | |- context [if ?b then _ else _] => destruct b
  end; reflexivity.
Qed.

(** ** More on the order *)

Lemma SFleb_opp f1 f2 : SFleb (SFopp f1) (SFopp f2) = SFleb f2 f1.
Proof.
  unfold SFleb.
  destruct f1 as [[]|[]| |[] m1 e1], f2 as [[]|[]| |[] m2 e2];
    try reflexivity; simpl;
    change (Pos.compare_cont Eq m1 m2) with (m1 ?= m2)%positive;
    change (Pos.compare_cont Eq m2 m1) with (m2 ?= m1)%positive;
    destruct (Z.compare_spec e1 e2), (Z.compare_spec e2 e1); try lia;
    try reflexivity;
    destruct (Pos.compare_spec m1 m2), (Pos.compare_spec m2 m1); try lia;
    reflexivity.
Qed.

Lemma SFleb_zero_nonneg f : nonneg_float f -> SFleb (S754_zero false) f = true.
Proof. intros []; reflexivity. Qed.

Lemma SFleb_neg_nonneg A B ec f :
  canon_frac A B ec -> nonneg_float f ->
  SFleb (finish true (rnd A B) ec) f = true.
Proof.
  intros Hc Hf.
  destruct (finish_cases true A B ec Hc)
    as [[_ ->]|[_ [->|(m & e & -> & Hb)]]]; destruct Hf; reflexivity.
Qed.

Lemma SFleb_value f1 f2 :
  finite_nonneg f1 -> finite_nonneg f2 ->
  SFleb f1 f2 = true <-> value f1 <= value f2.
Proof.
  intros [|m1 e1 H1] [|m2 e2 H2]; simpl value.
  - split; [lia|reflexivity].
  - destruct (bounded_digits _ _ H2) as (_ & He & _).
    pose proof (scale_pos e2 ltac:(lia)). split; [nia|reflexivity].
  - destruct (bounded_digits _ _ H1) as (_ & He & _).
    pose proof (scale_pos e1 ltac:(lia)). split; [discriminate|nia].
  - unfold SFleb. rewrite SFcompare_value by assumption.
    destruct (Z.compare_spec (Z.pos m1 * scale e1) (Z.pos m2 * scale e2));
      split; intros; try reflexivity; try discriminate; lia.
Qed.

Lemma SFltb_value f1 f2 :
  finite_nonneg f1 -> finite_nonneg f2 ->
  SFltb f1 f2 = true <-> value f1 < value f2.
Proof.
  intros [|m1 e1 H1] [|m2 e2 H2]; simpl value.
  - split; [discriminate|lia].
  - destruct (bounded_digits _ _ H2) as (_ & He & _).
    pose proof (scale_pos e2 ltac:(lia)). split; [nia|reflexivity].
  - destruct (bounded_digits _ _ H1) as (_ & He & _).
    pose proof (scale_pos e1 ltac:(lia)). split; [discriminate|nia].
  - unfold SFltb. rewrite SFcompare_value by assumption.
    destruct (Z.compare_spec (Z.pos m1 * scale e1) (Z.pos m2 * scale e2));
      split; intros; try reflexivity; try discriminate; lia.
Qed.

(** ** Subtracting from one *)

Lemma one_bounded : bounded prec emax 8388608 (-23) = true.
Proof. reflexivity. Qed.

Lemma value_one : value one = scale 0.
Proof.
  unfold one, value. change (Z.pos 8388608) with (2 ^ 23).
  rewrite Z.mul_comm, <- scale_add by lia. reflexivity.
Qed.

Lemma rounds_opp V W f :
  rounds true V W f -> exists g, f = SFopp g /\ rounds false V W g.
Proof.
  intros (A & B & ec & -> & Hc & E).
  exists (finish false (rnd A B) ec). split; [apply finish_opp|].
  exists A, B, ec. auto.
Qed.

Lemma rounds_neg_le V W f g :
  rounds true V W f -> nonneg_float g -> SFleb f g = true.
Proof.
  intros (A & B & ec & -> & Hc & _) Hg. now apply SFleb_neg_nonneg.
Qed.

(** [1 - q] for a positive finite [q]. *)
Lemma one_minus_cases m e :
  bounded prec emax m e = true ->
  let q := S754_finite false m e in
  let r := SFsub prec emax one q in
  (value q = scale 0 /\ r = S754_zero false) \/
  (value q < scale 0 /\ rounds false (scale 0 - value q) 1 r) \/
  (scale 0 < value q /\ rounds true (value q - scale 0) 1 r).
Proof.
  intros Hb q r.
  destruct (bounded_digits _ _ Hb) as (_ & He & _).
  pose proof (fsub_spec 8388608 (-23) m e ltac:(lia) ltac:(lia)) as H.
  cbv zeta in H. fold one in H. fold q in H. fold r in H.
  rewrite value_one in *.
  destruct (Z.compare_spec (scale 0) (value q)); auto.
Qed.

(** Subtraction from one reverses the order. *)
Lemma one_minus_anti q1 q2 :
  nonneg_float q1 -> nonneg_float q2 -> SFleb q1 q2 = true ->
  SFleb (SFsub prec emax one q2) (SFsub prec emax one q1) = true.
Proof.
  intros H1 H2 Hle.
  pose proof (rounds_exact false _ _ one_bounded) as Hone.
  fold one in Hone. change (Z.pos 8388608 * scale (-23)) with (value one) in Hone.
  rewrite value_one in Hone.
  assert (forall m e, bounded prec emax m e = true ->
            SFleb (SFsub prec emax one (S754_finite false m e)) one = true)
    as Hle_one.
  { intros m e Hb.
    destruct (one_minus_cases m e Hb) as [[_ ->]|[[Hv Hr]|[Hv Hr]]].
    - reflexivity.
    - destruct (bounded_digits _ _ Hb) as (_ & He & _).
      pose proof (scale_pos e ltac:(lia)).
      apply (rounds_mono _ _ _ _ _ _ Hr Hone); unfold value in *; nia.
    - apply (rounds_neg_le _ _ _ _ Hr). constructor. exact one_bounded. }
  assert (forall m e, bounded prec emax m e = true ->
            SFsub prec emax one (S754_finite false m e) <> S754_nan)
    as Hnan.
  { intros m e Hb.
    destruct (one_minus_cases m e Hb) as [[_ ->]|[[_ Hr]|[_ Hr]]];
      [discriminate| |].
    - apply rounds_nonneg in Hr. intros E. rewrite E in Hr. inversion Hr.
    - apply rounds_opp in Hr as (g & -> & Hg). apply rounds_nonneg in Hg.
      destruct Hg; discriminate. }
  destruct H1 as [| |m1 e1 Hb1], H2 as [| |m2 e2 Hb2];
    try discriminate Hle; try reflexivity.
  - now apply Hle_one.
  - specialize (Hnan m1 e1 Hb1).
    change (SFsub prec emax one (S754_infinity false))
      with (S754_infinity true).
    destruct (SFsub prec emax one (S754_finite false m1 e1)) as [|[]| |[]];
      try reflexivity; congruence.
  - assert (value (S754_finite false m1 e1) <= value (S754_finite false m2 e2))
      as Hv by (apply SFleb_value; [constructor..|]; assumption).
    destruct (one_minus_cases m1 e1 Hb1) as [[V1 E1]|[[V1 R1]|[V1 R1]]],
             (one_minus_cases m2 e2 Hb2) as [[V2 E2]|[[V2 R2]|[V2 R2]]];
      try lia.
    + rewrite E1, E2. reflexivity.
    + rewrite E1. apply (rounds_neg_le _ _ _ _ R2). constructor.
    + rewrite E2. apply SFleb_zero_nonneg. eapply rounds_nonneg; eauto.
    + apply (rounds_mono _ _ _ _ _ _ R2 R1); lia.
    + apply (rounds_neg_le _ _ _ _ R2). eapply rounds_nonneg; eauto.
    + apply rounds_opp in R1 as (g1 & -> & G1).
      apply rounds_opp in R2 as (g2 & -> & G2).
      rewrite SFleb_opp. apply (rounds_mono _ _ _ _ _ _ G1 G2); lia.
Qed.

Lemma one_minus_zero : SFsub prec emax one (S754_zero false) = one.
Proof. reflexivity. Qed.

(** Values of floats of the format are multiples of the least positive
    one. *)
Lemma value_multiple m e :
  bounded prec emax m e = true ->
  exists k, Z.pos m * scale e = k * scale (-149).
Proof.
  intros Hb. destruct (bounded_digits _ _ Hb) as (_ & He & _).
  exists (Z.pos m * 2 ^ (e + 149)).
  replace (scale e) with (scale (-149 + (e + 149))) by (f_equal; lia).
  rewrite scale_add by lia. lia.
Qed.

Lemma rounds_nonzero s V W f :
  rounds s V W f -> 0 < W -> scale (-149) * W <= V ->
  f = S754_infinity s \/
  exists m e, f = S754_finite s m e /\ bounded prec emax m e = true.
Proof.
  intros (A & B & ec & -> & Hc & E) HW HV.
  destruct (finish_cases s A B ec Hc) as [[H0 _]|[_ H]]; [exfalso|exact H].
  destruct Hc as (HA & HB & Hhi & Hec & Hn).
  pose proof (scale_pos ec ltac:(lia)) as Hs.
  pose proof (scale_pos (-149) ltac:(lia)) as Hs'.
  assert (1 <= rnd A B); [|lia].
  destruct Hn as [->|Hn].
  - apply rnd_ge; try lia.
    assert (scale (-149) * W * B <= A * scale (-149) * W) by nia.
    nia.
  - apply rnd_ge; try lia. change (2 ^ (prec - 1)) with 8388608 in Hn. lia.
Qed.

(** Beyond one the difference is negative. *)
Lemma one_minus_neg q :
  nonneg_float q -> SFltb one q = true ->
  SFltb (SFsub prec emax one q) (S754_zero false) = true.
Proof.
  intros [| |m e Hb] Hlt; try discriminate Hlt; [reflexivity|].
  assert (value one < value (S754_finite false m e)) as Hv
    by (apply SFltb_value; [constructor; exact one_bounded
                           |constructor; assumption|assumption]).
  rewrite value_one in Hv.
  destruct (one_minus_cases m e Hb) as [[V _]|[[V _]|[_ R]]]; try lia.
  destruct (value_multiple m e Hb) as (k & Ek).
  destruct (value_multiple _ _ one_bounded) as (k1 & Ek1).
  change (Z.pos 8388608 * scale (-23)) with (value one) in Ek1.
  rewrite value_one in Ek1. unfold value in *.
  pose proof (scale_pos (-149) ltac:(lia)).
  assert (scale (-149) * 1 <= Z.pos m * scale e - scale 0) as Hge.
  { rewrite Ek, Ek1 in *. set (u := scale (-149)) in *.
    assert (k1 < k) by nia. nia. }
  destruct (rounds_nonzero _ _ _ _ R ltac:(lia) Hge)
    as [->|(m' & e' & -> & _)]; reflexivity.
Qed.

(** ** Division *)

Lemma fdiv_nonneg t M :
  finite_nonneg t -> positive_float M -> nonneg_float (SFdiv prec emax t M).
Proof.
  intros [|mt et Ht] [|mM eM HM]; try (simpl; constructor).
  eapply rounds_nonneg. apply (fdiv_rounds false mt et false mM eM Ht HM).
Qed.

(** Division by a positive float is monotone. *)
Lemma fdiv_mono t1 t2 M :
  finite_nonneg t1 -> finite_nonneg t2 -> positive_float M ->
  SFleb t1 t2 = true ->
  SFleb (SFdiv prec emax t1 M) (SFdiv prec emax t2 M) = true.
Proof.
  intros H1 H2 HM Hle.
  assert (value t1 <= value t2) as Hv by (apply SFleb_value; assumption).
  destruct HM as [|mM eM HM].
  { destruct H1, H2; reflexivity. }
  destruct (bounded_digits _ _ HM) as (_ & HeM & _).
  pose proof (scale_pos eM ltac:(lia)) as HsM.
  pose proof (scale_pos 0 ltac:(lia)) as Hs0.
  destruct H1 as [|m1 e1 Hb1].
  { apply SFleb_zero_nonneg.
    apply (fdiv_nonneg _ (S754_finite false mM eM) H2).
    constructor; assumption. }
  destruct H2 as [|m2 e2 Hb2]; [discriminate Hle|].
  apply (rounds_mono _ _ _ _ _ _
           (fdiv_rounds false m1 e1 false mM eM Hb1 HM)
           (fdiv_rounds false m2 e2 false mM eM Hb2 HM)); try nia.
  unfold value in Hv.
  apply Z.mul_le_mono_nonneg_r; [nia|].
  apply Z.mul_le_mono_nonneg_r; [lia|assumption].
Qed.

Lemma finish_gt_one k ec :
  (-23 < ec /\ 1 <= k <= 2 ^ prec) \/ (ec = -23 /\ 2 ^ 23 < k <= 2 ^ prec) ->
  SFltb one (finish false k ec) = true.
Proof.
  change (2 ^ prec) with 16777216. change (2 ^ 23) with 8388608.
  intros H. unfold finish, one.
  change (2 ^ prec) with 16777216.
  change (Z.to_pos (2 ^ (prec - 1))) with 8388608%positive.
  destruct k as [|p|p]; try lia.
  destruct (Z.ltb_spec (Z.pos p) 16777216);
    match goal with
    | |- context [if ?b then _ else _] => destruct b
    end; try reflexivity; apply SFltb_finite; lia.
Qed.

(** A quotient of a float by a smaller one is above one. *)
Lemma fdiv_gt_one t M :
  finite_nonneg t -> positive_float M -> SFltb M t = true ->
  SFltb one (SFdiv prec emax t M) = true.
Proof.
  intros [|mt et Ht] [|mM eM HM] Hlt; try discriminate Hlt.
  apply SFltb_finite in Hlt.
  destruct (bounded_canon _ _ HM) as [(_ & _ & HhiM & HeM & _) _].
  destruct (bounded_digits _ _ Ht) as (_ & Het & _).
  change (2 ^ prec) with 16777216 in HhiM.
  pose proof (scale_pos eM ltac:(lia)) as HsM.
  (* the numerator exceeds the denominator by a unit of the latter *)
  assert (16777217 * (Z.pos mM * scale eM) < 16777216 * (Z.pos mt * scale et))
    as Hgap.
  { assert (scale et = scale eM * 2 ^ (et - eM)) as ->
      by (rewrite <- scale_add by lia; f_equal; lia).
    assert (0 < 2 ^ (et - eM)) by (apply Z.pow_pos_nonneg; lia).
    assert (Z.pos mM + 1 <= Z.pos mt * 2 ^ (et - eM)).
    { destruct Hlt as [Hlt|[-> Hlt]].
      - assert (2 ^ 1 <= 2 ^ (et - eM)) by (apply Z.pow_le_mono_r; lia).
        destruct (bounded_canon _ _ Ht) as [(_ & _ & _ & _ & Hn) _].
        change (2 ^ (prec - 1)) with 8388608 in Hn.
        destruct Hn as [|Hn]; [lia|]. simpl (2 ^ 1) in *. nia.
      - rewrite Z.sub_diag. simpl (2 ^ 0). lia. }
    nia. }
  destruct (fdiv_rounds false mt et false mM eM Ht HM)
    as (A & B & ec & -> & Hc & E).
  simpl xorb.
  destruct (canon_rnd _ _ _ Hc) as ([L U] & N).
  destruct Hc as (HA & HB & Hhi & Hec & Hn).
  change (2 ^ prec) with 16777216 in *.
  change (2 ^ (prec - 1)) with 8388608 in *.
  pose proof (scale_pos ec ltac:(lia)) as Hsc.
  set (vM := Z.pos mM * scale eM) in *.
  set (vt := Z.pos mt * scale et) in *.
  assert (0 < vM) by (subst vM; nia).
  apply finish_gt_one. change (2 ^ prec) with 16777216.
  change (2 ^ 23) with 8388608.
  destruct (Z.lt_trichotomy ec (-23)) as [Hlo|[->|Hup]].
  - exfalso.
    assert (scale ec * 16777216 <= scale 0).
    { change 16777216 with (2 ^ 24). rewrite <- scale_add by lia.
      unfold scale. apply Z.pow_le_mono_r; lia. }
    assert (A * scale ec * vM < B * scale 0 * vM).
    { apply Z.mul_lt_mono_pos_r; [assumption|]. nia. }
    assert (vM * (scale 0 * B) < vt * (scale 0 * B)).
    { apply Z.mul_lt_mono_pos_r; [|lia].
      pose proof (scale_pos 0 ltac:(lia)). nia. }
    lia.
  - right. split; [reflexivity|]. split; [|assumption].
    assert (scale 0 = scale (-23) * 8388608) as E0
      by (change 8388608 with (2 ^ 23); rewrite <- scale_add by lia;
          reflexivity).
    rewrite E0 in E.
    assert (A * vM = vt * 8388608 * B) as E'.
    { apply (Z.mul_cancel_r _ _ (scale (-23))); [lia|]. lia. }
    assert (8388608 + 1 <= rnd A B); [|lia].
    apply rnd_gt_iff; try assumption. left.
    apply (Z.mul_lt_mono_pos_r vM); [assumption|].
    replace (2 * A * vM) with (2 * (A * vM)) by lia. rewrite E'.
    replace ((2 * 8388608 + 1) * B * vM) with (16777217 * vM * B) by lia.
    replace (2 * (vt * 8388608 * B)) with (16777216 * vt * B) by lia.
    apply Z.mul_lt_mono_pos_r; assumption.
  - left. lia.
Qed.

(** * The arithmetic of [worleyNoise3D] *)

Lemma static_cast_float_one : static_cast_float 1 = one.
Proof. reflexivity. Qed.

Lemma FLT_MAX_bounded : bounded prec emax 16777215 104 = true.
Proof. reflexivity. Qed.

Lemma FLT_MAX_eq : FLT_MAX = S754_finite false 16777215 104.
Proof. reflexivity. Qed.

Lemma binary_normalize_valid n e s :
  -1000 <= e -> valid_binary prec emax (binary_normalize prec emax n e s) = true.
Proof.
  intros He. destruct n as [|p|p]; [reflexivity| |]; simpl;
    eapply rounds_valid; apply binary_round_rounds; assumption.
Qed.

Lemma static_cast_float_valid n :
  valid_binary prec emax (static_cast_float n) = true.
Proof. apply binary_normalize_valid. lia. Qed.

Lemma fsub_valid a b :
  valid_binary prec emax a = true -> valid_binary prec emax b = true ->
  valid_binary prec emax (a - b)%f32 = true.
Proof.
  intros Ha Hb. unfold fsub.
  destruct a as [sa|sa| |sa ma ea], b as [sb|sb| |sb mb eb];
    try reflexivity; try assumption;
    try (destruct sa, sb; reflexivity || assumption).
  simpl in Ha, Hb. unfold SFsub.
  destruct (bounded_digits _ _ Ha) as (_ & Hea & _).
  destruct (bounded_digits _ _ Hb) as (_ & Heb & _).
  apply binary_normalize_valid. lia.
Qed.

Lemma fmul_self_nonneg d :
  valid_binary prec emax d = true -> nonneg_or_nan (d * d)%f32.
Proof.
  intros Hd. unfold fmul.
  destruct d as [s|s| |s m e]; try (left; reflexivity);
    try (right; destruct s; constructor).
  right. simpl in Hd.
  pose proof (fmul_rounds s m e s m e Hd Hd) as Hr.
  replace (xorb s s) with false in Hr by (destruct s; reflexivity).
  eapply rounds_nonneg; eassumption.
Qed.

Lemma fadd_nonneg a b :
  nonneg_or_nan a -> nonneg_or_nan b -> nonneg_or_nan (a + b)%f32.
Proof.
  unfold fadd.
  intros [->|Ha] [->|Hb]; try (left; reflexivity);
    try (left; destruct a as [[]|[]| |[]]; reflexivity).
  right. destruct Ha as [| |ma ea Ha], Hb as [| |mb eb Hb];
    try (simpl; constructor; assumption).
  destruct (bounded_digits _ _ Ha) as (_ & Hea & _).
  destruct (bounded_digits _ _ Hb) as (_ & Heb & _).
  eapply rounds_nonneg.
  apply (fadd_rounds ma ea mb eb); lia.
Qed.

Lemma sqrtf_nonneg a : nonneg_or_nan a -> nonneg_or_nan (sqrtf a).
Proof.
  unfold sqrtf. intros [->|Ha]; [left; reflexivity|right].
  destruct Ha as [| |m e Hb]; try (simpl; constructor).
  destruct (fsqrt_spec m e) as (A & B & ec & -> & Hc & _).
  destruct (finish_cases false A B ec Hc)
    as [[_ ->]|[_ [->|(m' & e' & -> & Hb')]]]; constructor; assumption.
Qed.

Lemma distance_nonneg (p : details.Vector3i) x y z :
  nonneg_or_nan
    (details.distance (details.toVector3f p)
       (details.mkVector3 (static_cast_float x) (static_cast_float y)
          (static_cast_float z))).
Proof.
  unfold details.distance, details.toVector3f. cbn [details.x details.y details.z].
  apply sqrtf_nonneg.
  repeat apply fadd_nonneg; apply fmul_self_nonneg; apply fsub_valid;
    apply static_cast_float_valid.
Qed.

(** ** The scan for the nearest feature point *)

Lemma nearest_scan featurePoints x y z :
  nearest featurePoints x y z
  = scan (map (fun point =>
                 details.distance (details.toVector3f point)
                   (details.mkVector3 (static_cast_float x)
                      (static_cast_float y) (static_cast_float z)))
              featurePoints) FLT_MAX.
Proof.
  unfold nearest, scan. generalize FLT_MAX.
  induction featurePoints as [|p ps IH]; intros init; [reflexivity|].
  simpl. apply IH.
Qed.

Lemma flt_finite d m :
  nonneg_or_nan d -> finite_nonneg m -> (d < m)%f32 = true ->
  finite_nonneg d.
Proof.
  intros [->|Hd] Hm Hlt; [destruct Hm; discriminate|].
  destruct Hd as [| |md ed Hb]; try (constructor; assumption).
  destruct Hm; discriminate.
Qed.

Lemma flt_false_value a b :
  finite_nonneg a -> finite_nonneg b ->
  (a < b)%f32 = false <-> value b <= value a.
Proof.
  intros Ha Hb. split.
  - intros Hf. destruct (Z.le_gt_cases (value b) (value a)); [assumption|].
    assert ((a < b)%f32 = true) by (apply SFltb_value; assumption).
    congruence.
  - intros Hle. apply not_true_is_false. intros Hlt.
    apply SFltb_value in Hlt; [lia|assumption..].
Qed.

(** The scan returns a finite float that is not above its start, that no
    scanned distance is below, and that is the start or one of the
    distances. *)
Lemma scan_spec ds init :
  Forall nonneg_or_nan ds -> finite_nonneg init ->
  finite_nonneg (scan ds init) /\
  value (scan ds init) <= value init /\
  (forall d, d ∈ ds -> (d < scan ds init)%f32 = false) /\
  (scan ds init = init \/ scan ds init ∈ ds).
Proof.
  intros Hds. revert init.
  induction Hds as [|d ds Hd Hds IH]; intros init Hinit.
  - simpl. repeat split; auto; [lia|].
    intros d Hin. inversion Hin.
  - cbn [scan fold_left]. fold (scan ds (if (d < init)%f32 then d else init)).
    destruct (d < init)%f32 eqn:Hlt.
    + pose proof (flt_finite d init Hd Hinit Hlt) as Hfd.
      destruct (IH d Hfd) as (Hfin & Hlow & Hall & Hatt).
      apply SFltb_value in Hlt; [|assumption..].
      repeat split; [assumption|lia| |].
      * intros d' Hin. apply elem_of_cons in Hin as [->|Hin]; auto.
        now apply flt_false_value.
      * right. destruct Hatt as [->|Hatt]; [left|right; assumption].
    + destruct (IH init Hinit) as (Hfin & Hlow & Hall & Hatt).
      repeat split; [assumption|assumption| |].
      * intros d' Hin. apply elem_of_cons in Hin as [->|Hin]; auto.
        apply not_true_is_false. intros Hlt'.
        pose proof (flt_finite d _ Hd Hfin Hlt') as Hfd.
        apply SFltb_value in Hlt'; [|assumption..].
        assert ((d < init)%f32 = true)
          by (apply SFltb_value; [assumption..|lia]).
        congruence.
      * destruct Hatt as [->|Hatt]; [left; reflexivity|right].
        now apply list_elem_of_further.
Qed.

(** ** Magnitudes: the distances are finite *)

Lemma pow2_bounded k :
  -126 <= k <= 127 -> bounded prec emax 8388608 (k - 23) = true.
Proof.
  intros Hk. unfold bounded, canonical_mantissa.
  apply andb_true_intro. split.
  - apply Z.eqb_eq. rewrite fexp_spec.
    change (Z.pos (digits2_pos 8388608)) with 24. lia.
  - apply Z.leb_le. change (emax - prec) with 104. lia.
Qed.

Lemma pow2_value k : -126 <= k -> Z.pos 8388608 * scale (k - 23) = scale k.
Proof.
  intros Hk. change (Z.pos 8388608) with (2 ^ 23).
  rewrite Z.mul_comm, <- scale_add by lia. f_equal. lia.
Qed.

Lemma rounds_finite_le V W f k :
  rounds false V W f -> 0 < W -> -126 <= k <= 127 -> V <= scale k * W ->
  finite_le (scale k) f.
Proof.
  intros Hr HW Hk Hle.
  pose proof (rounds_exact false _ _ (pow2_bounded k Hk)) as Hp.
  rewrite pow2_value in Hp by lia.
  assert (SFleb f (S754_finite false 8388608 (k - 23)) = true) as Hcmp
    by (apply (rounds_mono _ _ _ _ _ _ Hr Hp); lia).
  pose proof (scale_pos k ltac:(lia)).
  apply rounds_nonneg in Hr. destruct Hr as [| |m e Hb].
  - split; [constructor|simpl; lia].
  - discriminate Hcmp.
  - split; [constructor; assumption|].
    apply SFleb_value in Hcmp;
      [|constructor; assumption|constructor; apply pow2_bounded; lia].
    simpl value in Hcmp. rewrite pow2_value in Hcmp by lia. exact Hcmp.
Qed.

Lemma scale_double k : -1000 <= k -> 2 * scale k = scale (k + 1).
Proof. intros. rewrite scale_add by lia. simpl (2 ^ 1). lia. Qed.

Lemma scale_le j k : -1000 <= j <= k -> scale j <= scale k.
Proof. intros. unfold scale. apply Z.pow_le_mono_r; lia. Qed.

Lemma static_cast_float_finite n :
  0 <= n <= 2 ^ 31 -> finite_le (scale 31) (static_cast_float n).
Proof.
  intros Hn. destruct (Z.eq_dec n 0) as [->|Hne].
  - split; [constructor|]. pose proof (scale_pos 31 ltac:(lia)). simpl. lia.
  - apply (rounds_finite_le (n * scale 0) 1); [|lia|lia|].
    + apply static_cast_float_rounds. lia.
    + replace (scale 31) with (scale 0 * 2 ^ 31)
        by (rewrite <- scale_add by lia; reflexivity).
      pose proof (scale_pos 0 ltac:(lia)). nia.
Qed.

Lemma fsub_finite a b k :
  -126 <= k <= 127 ->
  finite_le (scale k) a -> finite_le (scale k) b ->
  finite_abs_le (scale k) (a - b)%f32.
Proof.
  intros Hk [Ha Va] [Hb Vb]. unfold fsub.
  destruct Ha as [|ma ea Ha], Hb as [|mb eb Hb]; simpl value in *;
    try (simpl; auto; fail).
  destruct (bounded_digits _ _ Ha) as (_ & Hea & _).
  destruct (bounded_digits _ _ Hb) as (_ & Heb & _).
  pose proof (scale_pos ea ltac:(lia)). pose proof (scale_pos eb ltac:(lia)).
  pose proof (fsub_spec ma ea mb eb ltac:(lia) ltac:(lia)) as Hs.
  cbv zeta in Hs. simpl value in Hs.
  destruct (Z.compare_spec (Z.pos ma * scale ea) (Z.pos mb * scale eb)).
  - rewrite Hs. exact I.
  - apply rounds_opp in Hs as (g & -> & Hg).
    destruct (rounds_finite_le _ _ _ k Hg) as [Hfg Vg]; [lia|lia|nia|].
    destruct Hfg; simpl; auto.
  - destruct (rounds_finite_le _ _ _ k Hs) as [Hfg Vg]; [lia|lia|nia|].
    destruct Hfg; simpl; auto.
Qed.

Lemma fmul_self_finite d k :
  -63 <= k <= 63 ->
  finite_abs_le (scale k) d -> finite_le (scale (k + k)) (d * d)%f32.
Proof.
  intros Hk Hd. unfold fmul.
  pose proof (scale_pos (k + k) ltac:(lia)).
  destruct d as [s|s| |s m e]; try contradiction.
  - split; [destruct s; constructor|simpl; lia].
  - destruct Hd as [Hb Hv].
    destruct (bounded_digits _ _ Hb) as (_ & He & _).
    pose proof (scale_pos e ltac:(lia)).
    pose proof (fmul_rounds s m e s m e Hb Hb) as Hr.
    replace (xorb s s) with false in Hr by (destruct s; reflexivity).
    apply (rounds_finite_le _ _ _ (k + k) Hr);
      [apply scale_pos; lia|lia|].
    rewrite <- scale_mul by lia.
    apply Z.mul_le_mono_nonneg; nia.
Qed.

Lemma fadd_finite a b k :
  -126 <= k <= 126 ->
  finite_le (scale k) a -> finite_le (scale k) b ->
  finite_le (scale (k + 1)) (a + b)%f32.
Proof.
  intros Hk [Ha Va] [Hb Vb]. unfold fadd.
  pose proof (scale_double k ltac:(lia)).
  pose proof (scale_pos k ltac:(lia)).
  destruct Ha as [|ma ea Ha], Hb as [|mb eb Hb]; simpl value in *;
    try (split; [constructor; assumption|simpl; lia]).
  destruct (bounded_digits _ _ Ha) as (_ & Hea & _).
  destruct (bounded_digits _ _ Hb) as (_ & Heb & _).
  apply (rounds_finite_le _ 1 _ (k + 1)
           (fadd_rounds ma ea mb eb ltac:(lia) ltac:(lia)));
    [lia|lia|]. simpl value. lia.
Qed.

Lemma finite_le_weaken j k f :
  -1000 <= j <= k -> finite_le (scale j) f -> finite_le (scale k) f.
Proof.
  intros H [Hf Hv]. split; [assumption|].
  pose proof (scale_le j k H). lia.
Qed.

Lemma sqrtf_finite a : finite_nonneg a -> finite_nonneg (sqrtf a).
Proof.
  unfold sqrtf. intros [|m e Hb]; [constructor|].
  destruct (bounded_digits _ _ Hb) as (Hd & He & _).
  destruct (fsqrt_spec m e) as (A & B & ec & -> & Hc & _ & Hec).
  specialize (Hec ltac:(lia)).
  pose proof (finish_valid false A B ec Hc) as Hv.
  destruct (canon_rnd A B ec Hc) as ([H0 _] & _).
  unfold finish in *. change (emax - prec) with 104 in *.
  destruct (rnd A B) as [|p|p]; [constructor| |lia].
  destruct (Z.pos p <? 2 ^ prec).
  - destruct (Z.leb_spec ec 104); [|lia]. constructor. exact Hv.
  - destruct (Z.leb_spec (ec + 1) 104); [|lia]. constructor. exact Hv.
Qed.

(** Between points whose coordinates are non-negative [int]s the distance
    is finite. *)
Lemma distance_finite (p : details.Vector3i) x y z :
  0 <= details.x p <= 2 ^ 31 -> 0 <= details.y p <= 2 ^ 31 ->
  0 <= details.z p <= 2 ^ 31 ->
  0 <= x <= 2 ^ 31 -> 0 <= y <= 2 ^ 31 -> 0 <= z <= 2 ^ 31 ->
  finite_nonneg
    (details.distance (details.toVector3f p)
       (details.mkVector3 (static_cast_float x) (static_cast_float y)
          (static_cast_float z))).
Proof.
  intros Hpx Hpy Hpz Hx Hy Hz.
  unfold details.distance, details.toVector3f.
  cbn [details.x details.y details.z].
  apply sqrtf_finite.
  assert (forall a b, 0 <= a <= 2 ^ 31 -> 0 <= b <= 2 ^ 31 ->
            finite_le (scale 62)
              ((static_cast_float a - static_cast_float b)
               * (static_cast_float a - static_cast_float b))%f32) as Hsq.
  { intros a b Ha Hb.
    apply (fmul_self_finite _ 31); [lia|].
    apply fsub_finite; [lia|apply static_cast_float_finite; assumption..]. }
  eapply proj1.
  apply (fadd_finite _ _ 63); [lia| |].
  - apply (fadd_finite _ _ 62); [lia|apply Hsq; assumption..].
  - apply (finite_le_weaken 62 63); [lia|apply Hsq; assumption].
Qed.

(** The distance of a point to itself is [+0]. *)
Lemma distance_self (p : details.Vector3i) :
  0 <= details.x p <= 2 ^ 31 -> 0 <= details.y p <= 2 ^ 31 ->
  0 <= details.z p <= 2 ^ 31 ->
  details.distance (details.toVector3f p)
    (details.mkVector3 (static_cast_float (details.x p))
       (static_cast_float (details.y p)) (static_cast_float (details.z p)))
  = S754_zero false.
Proof.
  intros Hx Hy Hz.
  unfold details.distance, details.toVector3f.
  cbn [details.x details.y details.z].
  assert (forall a, 0 <= a <= 2 ^ 31 ->
            (static_cast_float a - static_cast_float a)%f32
            = S754_zero false) as Hd.
  { intros a Ha.
    destruct (static_cast_float_finite a Ha) as [[|m e Hb] _];
      [reflexivity|].
    destruct (bounded_digits _ _ Hb) as (_ & He & _).
    pose proof (fsub_spec m e m e ltac:(lia) ltac:(lia)) as Hs.
    cbv zeta in Hs. rewrite Z.compare_refl in Hs. exact Hs. }
  rewrite !Hd by assumption. reflexivity.
Qed.

(** ** The normalisation constant is positive *)

Lemma rounds_ge_one V W f :
  rounds false V W f -> 0 < W -> scale 0 * W <= V -> ge_one f.
Proof.
  intros Hr HW Hle.
  pose proof (rounds_exact false _ _ one_bounded) as Hone.
  change (Z.pos 8388608 * scale (-23)) with (value one) in Hone.
  rewrite value_one in Hone. fold one in Hone.
  assert (SFleb one f = true) as Hcmp
    by (apply (rounds_mono _ _ _ _ _ _ Hone Hr); lia).
  split; [|assumption].
  apply rounds_nonneg in Hr.
  destruct Hr; [discriminate Hcmp|constructor|constructor; assumption].
Qed.

Lemma ge_one_value m e :
  ge_one (S754_finite false m e) ->
  bounded prec emax m e = true /\ scale 0 <= Z.pos m * scale e.
Proof.
  intros [Hp Hle]. inversion Hp as [|m' e' Hb]; subst.
  split; [assumption|].
  apply SFleb_value in Hle;
    [|constructor; exact one_bounded|constructor; assumption].
  rewrite value_one in Hle. exact Hle.
Qed.

Lemma static_cast_float_ge_one q : 1 <= q -> ge_one (static_cast_float q).
Proof.
  intros Hq. apply (rounds_ge_one (q * scale 0) 1); [|lia|].
  - apply static_cast_float_rounds. lia.
  - pose proof (scale_pos 0 ltac:(lia)). nia.
Qed.

Lemma fmul_ge_one a b : ge_one a -> ge_one b -> ge_one (a * b)%f32.
Proof.
  intros Ha Hb. unfold fmul.
  destruct a as [sa|sa| |sa ma ea], b as [sb|sb| |sb mb eb];
    try (destruct Ha as [Ha _]; inversion Ha; fail);
    try (destruct Hb as [Hb _]; inversion Hb; fail).
  - destruct Ha as [Ha _], Hb as [Hb _]. inversion Ha; inversion Hb; subst.
    split; [constructor|reflexivity].
  - destruct Ha as [Ha _], Hb as [Hb _]. inversion Ha; inversion Hb; subst.
    split; [constructor|reflexivity].
  - destruct Ha as [Ha _], Hb as [Hb _]. inversion Ha; inversion Hb; subst.
    split; [constructor|reflexivity].
  - assert (sa = false) as -> by (destruct Ha as [Ha _]; now inversion Ha).
    assert (sb = false) as -> by (destruct Hb as [Hb _]; now inversion Hb).
    destruct (ge_one_value _ _ Ha) as [Hba Va].
    destruct (ge_one_value _ _ Hb) as [Hbb Vb].
    pose proof (scale_pos 0 ltac:(lia)).
    apply (rounds_ge_one _ _ _ (fmul_rounds false ma ea false mb eb Hba Hbb));
      [assumption|].
    apply Z.mul_le_mono_nonneg; lia.
Qed.

Lemma three_ge_one : ge_one 3.f%f32.
Proof.
  split; [|reflexivity].
  change (static_cast_float 3) with (S754_finite false 12582912 (-22)).
  constructor. reflexivity.
Qed.

Lemma sqrtf_ge_one a : ge_one a -> positive_float (sqrtf a).
Proof.
  intros Ha. unfold sqrtf.
  destruct a as [s|s| |s m e];
    try (destruct Ha as [Ha _]; inversion Ha; fail).
  - destruct Ha as [Ha _]. inversion Ha; subst. constructor.
  - assert (s = false) as -> by (destruct Ha as [Ha _]; now inversion Ha).
    destruct (ge_one_value _ _ Ha) as [Hb Hv].
    destruct (bounded_digits _ _ Hb) as (Hd & He & _).
    assert (1 <= Zdigits2 (Z.pos m) + e) as Hmag.
    { destruct (Zdigits2_bounds (Z.pos m) ltac:(lia)) as [_ Hup].
      destruct (Z.le_gt_cases 1 (Zdigits2 (Z.pos m) + e)); [assumption|].
      exfalso. unfold scale in Hv.
      assert (Z.pos m * 2 ^ (e + 1000)
              < 2 ^ Zdigits2 (Z.pos m) * 2 ^ (e + 1000))
        by (apply Z.mul_lt_mono_pos_r; [apply Z.pow_pos_nonneg; lia|lia]).
      rewrite <- Z.pow_add_r in * by lia.
      assert (2 ^ (Zdigits2 (Z.pos m) + (e + 1000)) <= 2 ^ (0 + 1000))
        by (apply Z.pow_le_mono_r; lia).
      lia. }
    destruct (fsqrt_spec m e) as (A & B & ec & -> & Hc & Hnz & _).
    specialize (Hnz Hmag).
    destruct (finish_cases false A B ec Hc)
      as [[H0 _]|[_ [->|(m' & e' & -> & Hb')]]];
      [lia|constructor|constructor; assumption].
Qed.

Lemma maxCellDistance_positive q :
  1 <= q -> positive_float (maxCellDistance (static_cast_float q)).
Proof.
  intros Hq. unfold maxCellDistance. apply sqrtf_ge_one.
  apply fmul_ge_one; [|exact three_ge_one].
  apply fmul_ge_one; apply static_cast_float_ge_one; assumption.
Qed.

(** ** The remap *)

(** With [oldMin = newMin = 0] and [newMax = 1] the affine transform is the
    division by [oldMax], exactly. *)
Lemma mapValue_unit t M :
  finite_nonneg t -> positive_float M ->
  details.mapValue t 0.f%f32 M 0.f%f32 1.f%f32 = (t / M)%f32.
Proof.
  intros Ht HM. unfold details.mapValue.
  rewrite static_cast_float_one.
  assert ((t - S754_zero false)%f32 = t) as ->
    by (destruct Ht; reflexivity).
  assert ((one - S754_zero false)%f32 = one) as -> by reflexivity.
  assert ((t * one)%f32 = t) as ->.
  { destruct Ht as [|m e Hb]; [reflexivity|]. now apply fmul_one_r. }
  assert ((M - S754_zero false)%f32 = M) as ->
    by (destruct HM; reflexivity).
  pose proof (fdiv_nonneg t M Ht HM) as Hq. fold fdiv in Hq.
  destruct Hq; reflexivity.
Qed.

Lemma nearest_finite featurePoints x y z :
  finite_nonneg (nearest featurePoints x y z).
Proof.
  rewrite nearest_scan. apply scan_spec.
  - apply Forall_forall. intros d Hd.
    apply list_elem_of_fmap in Hd as (p & -> & _). apply distance_nonneg.
  - rewrite FLT_MAX_eq. constructor. exact FLT_MAX_bounded.
Qed.

(** The value stored for a voxel: one minus the quotient of the nearest
    distance by the normalisation constant. *)
Lemma voxel_eq featurePoints M x y z :
  positive_float M ->
  voxel featurePoints M x y z
  = (1.f - nearest featurePoints x y z / M)%f32.
Proof.
  intros HM. unfold voxel.
  now rewrite mapValue_unit by (try apply nearest_finite; assumption).
Qed.

(** ** Monotonicity of the distance

    Every operation of [details::distance] is monotone in the magnitude
    of its operands, so the computed distance to a point grows with the
    distance along each axis. *)

(** The magnitude of a finite float is not negative. *)
Lemma value_nonneg f : 0 <= value f.
Proof.
  destruct f as [| | |s m e]; simpl; try lia.
  unfold scale. pose proof (Z.pow_nonneg 2 (e + 1000) ltac:(lia)). nia.
Qed.

Lemma value_zero f : finite_nonneg f -> value f = 0 -> f = S754_zero false.
Proof.
  intros [|m e Hb] E; [reflexivity|]. simpl in E.
  destruct (bounded_digits _ _ Hb) as (_ & He & _).
  pose proof (scale_pos e ltac:(lia)). nia.
Qed.

(** The square root of a finite positive float, with the integer square
    root that [SFsqrt] rounds. *)
Lemma fsqrt_core m e :
  bounded prec emax m e = true ->
  exists q r ec,
    let c := if r =? 0 then 0 else if r <=? q then 1 else 3 in
    SFsqrt prec emax (S754_finite false m e)
      = finish false (rnd (4 * q + c) 4) ec /\
    canon_frac (4 * q + c) 4 ec /\
    ec = fexp prec emax ((Zdigits2 (Z.pos m) + e + 1) / 2) /\
    2 * ec <= e /\
    Z.pos m * 2 ^ (e - 2 * ec) = q * q + r /\ 0 <= r <= 2 * q.
Proof.
  intros Hb. destruct (bounded_digits _ _ Hb) as (Hd24 & He & _).
  unfold SFsqrt, SFsqrt_core_binary.
  set (d := Zdigits2 (Z.pos m)) in *.
  rewrite !Z.div2_div.
  pose proof (Z.div_mod e 2 ltac:(lia)) as Ee.
  pose proof (Z.mod_pos_bound e 2 ltac:(lia)) as Hme.
  pose proof (Z.div_mod (d + e + 1) 2 ltac:(lia)) as Ed.
  pose proof (Z.mod_pos_bound (d + e + 1) 2 ltac:(lia)) as Hmd.
  set (ec := fexp prec emax ((d + e + 1) / 2)).
  assert (ec <= e / 2) as Hmin by (subst ec; rewrite fexp_spec; lia).
  rewrite (Z.min_l ec (e / 2)) by exact Hmin.
  set (s := e - 2 * ec).
  assert (0 <= s) as Hs by (subst s; lia).
  set (m' := match s with
             | 0 => Z.pos m
             | Z.pos _ => Z.shiftl (Z.pos m) s
             | Z.neg _ => 0
             end).
  assert (m' = Z.pos m * 2 ^ s) as Hm'.
  { subst m'. destruct s as [|p|p] eqn:Es; [simpl; lia| |lia].
    apply Z.shiftl_mul_pow2. lia. }
  assert (0 < 2 ^ s) as Hpow by (apply Z.pow_pos_nonneg; lia).
  assert (0 < m') as Hpos by nia.
  pose proof (Z.sqrtrem_spec m' ltac:(lia)) as Hsq.
  destruct (Z.sqrtrem m') as [q r]. destruct Hsq as [Eq Hr].
  assert (0 <= q) as Hq by lia.
  assert (Zdigits2 q + ec = (d + e + 1) / 2) as Hdq.
  { rewrite (sqrt_digits m' q r) by assumption.
    rewrite Hm', Zdigits2_shift by lia. fold d.
    replace (d + s + 1) with (d + e + 1 + (- ec) * 2) by (subst s; lia).
    rewrite Z.div_add by lia. lia. }
  set (l := if r =? 0 then loc_Exact
            else loc_Inexact (if r <=? q then Lt else Gt)).
  destruct (binary_round_aux_spec false q ec l (4 * q + loc_code l) 4)
    as [Hres Hc];
    [apply rep_of_loc; assumption|rewrite Hdq; fold ec; lia|].
  rewrite Hdq in Hres, Hc. fold ec in Hres, Hc.
  rewrite Z.sub_diag, Z.mul_1_r in Hres, Hc.
  exists q, r, ec. cbv zeta.
  assert (loc_code l = if r =? 0 then 0 else if r <=? q then 1 else 3) as <-.
  { subst l. destruct (r =? 0); [reflexivity|].
    destruct (r <=? q); reflexivity. }
  split; [exact Hres|]. split; [exact Hc|]. split; [reflexivity|].
  split; [subst s; lia|]. split; [|lia].
  fold s. rewrite <- Hm'. exact Eq.
Qed.

Lemma digits_value_le m1 e1 m2 e2 :
  -1000 <= e1 -> -1000 <= e2 ->
  Z.pos m1 * scale e1 <= Z.pos m2 * scale e2 ->
  Zdigits2 (Z.pos m1) + e1 <= Zdigits2 (Z.pos m2) + e2.
Proof.
  intros H1 H2 Hle.
  destruct (Zdigits2_bounds (Z.pos m1) ltac:(lia)) as [L1 _].
  destruct (Zdigits2_bounds (Z.pos m2) ltac:(lia)) as [_ U2].
  pose proof (Zdigits2_pos (Z.pos m1) ltac:(lia)) as P1.
  pose proof (Zdigits2_pos (Z.pos m2) ltac:(lia)) as P2.
  set (d1 := Zdigits2 (Z.pos m1)) in *. set (d2 := Zdigits2 (Z.pos m2)) in *.
  pose proof (scale_pos e1 H1). pose proof (scale_pos e2 H2).
  assert (2 ^ (d1 - 1) * scale e1 < 2 ^ d2 * scale e2) as Hlt by nia.
  unfold scale in Hlt. rewrite <- !Z.pow_add_r in Hlt by lia.
  apply Z.pow_lt_mono_r_iff in Hlt; lia.
Qed.

(** [SFsqrt] is monotone on the finite positive floats. *)
Lemma fsqrt_mono m1 e1 m2 e2 :
  bounded prec emax m1 e1 = true -> bounded prec emax m2 e2 = true ->
  Z.pos m1 * scale e1 <= Z.pos m2 * scale e2 ->
  SFleb (SFsqrt prec emax (S754_finite false m1 e1))
        (SFsqrt prec emax (S754_finite false m2 e2)) = true.
Proof.
  intros Hb1 Hb2 Hle.
  destruct (bounded_digits _ _ Hb1) as (Hd1 & He1 & _).
  destruct (bounded_digits _ _ Hb2) as (Hd2 & He2 & _).
  pose proof (digits_value_le m1 e1 m2 e2 ltac:(lia) ltac:(lia) Hle) as Hmag.
  destruct (fsqrt_core m1 e1 Hb1)
    as (q1 & r1 & ec1 & -> & Hc1 & Eec1 & Hs1 & Eq1 & Hr1).
  destruct (fsqrt_core m2 e2 Hb2)
    as (q2 & r2 & ec2 & -> & Hc2 & Eec2 & Hs2 & Eq2 & Hr2).
  set (c1 := if r1 =? 0 then 0 else if r1 <=? q1 then 1 else 3) in *.
  set (c2 := if r2 =? 0 then 0 else if r2 <=? q2 then 1 else 3) in *.
  apply finish_mono; [assumption..|].
  destruct Hc1 as (HA1 & _ & HU1 & Hlo1 & _).
  destruct Hc2 as (HA2 & _ & _ & Hlo2 & HL2).
  assert (ec1 <= ec2) as Hec.
  { rewrite Eec1, Eec2, !fexp_spec.
    assert ((Zdigits2 (Z.pos m1) + e1 + 1) / 2
            <= (Zdigits2 (Z.pos m2) + e2 + 1) / 2)
      by (apply Z.div_le_mono; lia).
    lia. }
  pose proof (scale_pos ec1 ltac:(lia)) as Hp1.
  pose proof (scale_pos ec2 ltac:(lia)) as Hp2.
  destruct (Z.eq_dec ec1 ec2) as [E|Hne].
  - rewrite <- E in *. clear E.
    assert (q1 * q1 + r1 <= q2 * q2 + r2) as Hsq.
    { rewrite <- Eq1, <- Eq2.
      assert (scale e1 = 2 ^ (e1 - 2 * ec1) * 2 ^ (2 * ec1 + 1000)) as X1
        by (unfold scale; rewrite <- Z.pow_add_r by lia; f_equal; lia).
      assert (scale e2 = 2 ^ (e2 - 2 * ec1) * 2 ^ (2 * ec1 + 1000)) as X2
        by (unfold scale; rewrite <- Z.pow_add_r by lia; f_equal; lia).
      rewrite X1, X2, !Z.mul_assoc in Hle.
      apply Z.mul_le_mono_pos_r in Hle; [assumption|].
      apply Z.pow_pos_nonneg; lia. }
    assert (q1 <= q2) as Hq by nia.
    assert (4 * q1 + c1 <= 4 * q2 + c2) as HA.
    { destruct (Z.eq_dec q1 q2) as [->|].
      - assert (r1 <= r2) by lia. subst c1 c2.
        destruct (Z.eqb_spec r1 0), (Z.eqb_spec r2 0),
          (Z.leb_spec r1 q2), (Z.leb_spec r2 q2); lia.
      - subst c1 c2.
        destruct (r1 =? 0), (r2 =? 0), (r1 <=? q1), (r2 <=? q2); lia. }
    apply Z.mul_le_mono_nonneg_r; [lia|].
    apply Z.mul_le_mono_nonneg_r; lia.
  - pose proof (scale_lt ec1 ec2 ltac:(lia) ltac:(lia)) as Hsc.
    destruct HL2 as [|HL2]; [lia|].
    change (2 ^ prec) with 16777216 in HU1.
    change (2 ^ (prec - 1)) with 8388608 in HL2.
    nia.
Qed.


Lemma rounds_value_mono V1 W1 g1 V2 W2 g2 :
  rounds false V1 W1 g1 -> rounds false V2 W2 g2 ->
  0 < W1 -> 0 < W2 -> V1 * W2 <= V2 * W1 ->
  finite_nonneg g2 ->
  finite_nonneg g1 /\ value g1 <= value g2.
Proof.
  intros R1 R2 HW1 HW2 Hle Hf2.
  pose proof (rounds_mono _ _ _ _ _ _ R1 R2 HW1 HW2 Hle) as Hleb.
  assert (finite_nonneg g1) as Hf1.
  { destruct (rounds_nonneg _ _ _ R1); [constructor| |now constructor].
    destruct Hf2; discriminate Hleb. }
  split; [assumption|]. now apply SFleb_value.
Qed.

Lemma value_opp g : value (SFopp g) = value g.
Proof. destruct g; reflexivity. Qed.

Lemma static_cast_float_mono a b :
  0 <= a <= b -> b <= 2 ^ 31 ->
  value (static_cast_float a) <= value (static_cast_float b).
Proof.
  intros Hab Hb. destruct (Z.eq_dec a 0) as [->|Hne].
  - apply value_nonneg.
  - apply (rounds_value_mono (a * scale 0) 1 _ (b * scale 0) 1);
      [apply static_cast_float_rounds; lia..|lia|lia| |].
    + pose proof (scale_pos 0 ltac:(lia)). nia.
    + apply static_cast_float_finite. lia.
Qed.

(** The magnitude of a difference of two non-negative floats. *)
Lemma fsub_mag a b :
  finite_nonneg a -> finite_nonneg b ->
  (value a = value b /\ value (a - b)%f32 = 0) \/
  (value a <> value b /\
   exists g, rounds false (Z.abs (value a - value b)) 1 g /\
             value (a - b)%f32 = value g).
Proof.
  intros [|ma ea Ha] [|mb eb Hb]; unfold fsub.
  - left. split; reflexivity.
  - right. destruct (bounded_digits _ _ Hb) as (_ & He & _).
    pose proof (scale_pos eb ltac:(lia)).
    split; [simpl; nia|]. exists (S754_finite false mb eb).
    split; [|reflexivity].
    replace (Z.abs _) with (Z.pos mb * scale eb) by (simpl; nia).
    now apply rounds_exact.
  - right. destruct (bounded_digits _ _ Ha) as (_ & He & _).
    pose proof (scale_pos ea ltac:(lia)).
    split; [simpl; nia|]. exists (S754_finite false ma ea).
    split; [|reflexivity].
    replace (Z.abs _) with (Z.pos ma * scale ea) by (simpl; nia).
    now apply rounds_exact.
  - destruct (bounded_digits _ _ Ha) as (_ & Hea & _).
    destruct (bounded_digits _ _ Hb) as (_ & Heb & _).
    pose proof (fsub_spec ma ea mb eb ltac:(lia) ltac:(lia)) as Hs.
    cbv zeta in Hs.
    destruct (Z.compare_spec (value (S754_finite false ma ea))
                (value (S754_finite false mb eb))) as [E|Hlt|Hgt].
    + left. split; [assumption|]. rewrite Hs. reflexivity.
    + right. split; [lia|].
      apply rounds_opp in Hs as (g & -> & Hg). exists g.
      split; [|apply value_opp].
      replace (Z.abs _) with
        (value (S754_finite false mb eb) - value (S754_finite false ma ea))
        by lia.
      exact Hg.
    + right. split; [lia|]. eexists. split; [|reflexivity].
      replace (Z.abs _) with
        (value (S754_finite false ma ea) - value (S754_finite false mb eb))
        by lia.
      exact Hs.
Qed.

Lemma fsub_mag_mono p a b k :
  -126 <= k <= 127 ->
  finite_le (scale k) p -> finite_le (scale k) a -> finite_le (scale k) b ->
  Z.abs (value a - value p) <= Z.abs (value b - value p) ->
  value (a - p)%f32 <= value (b - p)%f32.
Proof.
  intros Hk [Hp Vp] [Ha Va] [Hb Vb] Hle.
  pose proof (value_nonneg p). pose proof (value_nonneg a).
  pose proof (value_nonneg b).
  destruct (fsub_mag a p Ha Hp) as [[_ ->]|(Hna & ga & Ra & ->)];
    [apply value_nonneg|].
  destruct (fsub_mag b p Hb Hp) as [[E _]|(Hnb & gb & Rb & ->)]; [lia|].
  apply (rounds_value_mono _ 1 _ _ 1 _ Ra Rb); [lia|lia|lia|].
  apply (rounds_finite_le _ 1 _ k Rb); lia.
Qed.

Lemma fmul_self_mono d1 d2 k :
  -63 <= k <= 63 ->
  finite_abs_le (scale k) d1 -> finite_abs_le (scale k) d2 ->
  value d1 <= value d2 ->
  value (d1 * d1)%f32 <= value (d2 * d2)%f32.
Proof.
  intros Hk H1 H2 Hle.
  pose proof (fmul_self_finite d2 k Hk H2) as [Hf2 _].
  destruct d1 as [s1|s1| |s1 m1 e1]; try contradiction;
    [apply value_nonneg|].
  destruct H1 as [Hb1 _].
  destruct (bounded_digits _ _ Hb1) as (_ & He1 & _).
  pose proof (scale_pos e1 ltac:(lia)).
  destruct d2 as [s2|s2| |s2 m2 e2]; try contradiction;
    [simpl in Hle; nia|].
  destruct H2 as [Hb2 _].
  destruct (bounded_digits _ _ Hb2) as (_ & He2 & _).
  pose proof (scale_pos e2 ltac:(lia)).
  pose proof (scale_pos 0 ltac:(lia)).
  pose proof (fmul_rounds s1 m1 e1 s1 m1 e1 Hb1 Hb1) as R1.
  pose proof (fmul_rounds s2 m2 e2 s2 m2 e2 Hb2 Hb2) as R2.
  replace (xorb s1 s1) with false in R1 by (destruct s1; reflexivity).
  replace (xorb s2 s2) with false in R2 by (destruct s2; reflexivity).
  apply (rounds_value_mono _ _ _ _ _ _ R1 R2); [lia|lia| |exact Hf2].
  simpl in Hle. apply Z.mul_le_mono_nonneg_r; [lia|].
  apply Z.mul_le_mono_nonneg; lia.
Qed.

(** The sum of two non-negative floats. *)
Lemma fadd_cases a b :
  finite_nonneg a -> finite_nonneg b ->
  (value a = 0 /\ value b = 0 /\ value (a + b)%f32 = 0) \/
  rounds false (value a + value b) 1 (a + b)%f32.
Proof.
  intros [|ma ea Ha] [|mb eb Hb]; unfold fadd.
  - left. repeat split.
  - right. simpl. now apply rounds_exact.
  - right. simpl. rewrite Z.add_0_r. now apply rounds_exact.
  - right. destruct (bounded_digits _ _ Ha) as (_ & Hea & _).
    destruct (bounded_digits _ _ Hb) as (_ & Heb & _).
    apply (fadd_rounds ma ea mb eb); lia.
Qed.

Lemma fadd_mono a1 b1 a2 b2 :
  finite_nonneg a1 -> finite_nonneg b1 ->
  finite_nonneg a2 -> finite_nonneg b2 ->
  finite_nonneg (a2 + b2)%f32 ->
  value a1 <= value a2 -> value b1 <= value b2 ->
  value (a1 + b1)%f32 <= value (a2 + b2)%f32.
Proof.
  intros Ha1 Hb1 Ha2 Hb2 Hf Hla Hlb.
  pose proof (value_nonneg a1). pose proof (value_nonneg b1).
  destruct (fadd_cases a1 b1 Ha1 Hb1) as [(_ & _ & ->)|R1];
    [apply value_nonneg|].
  destruct (fadd_cases a2 b2 Ha2 Hb2) as [(E1 & E2 & _)|R2].
  - rewrite (value_zero a1), (value_zero b1) by (assumption || lia).
    apply value_nonneg.
  - apply (rounds_value_mono _ 1 _ _ 1 _ R1 R2); [lia|lia|lia|exact Hf].
Qed.

Lemma sqrtf_mono a1 a2 :
  finite_nonneg a1 -> finite_nonneg a2 -> value a1 <= value a2 ->
  value (sqrtf a1) <= value (sqrtf a2).
Proof.
  intros H1 H2 Hle.
  destruct H1 as [|m1 e1 Hb1]; [apply value_nonneg|].
  destruct (bounded_digits _ _ Hb1) as (_ & He1 & _).
  pose proof (scale_pos e1 ltac:(lia)).
  destruct H2 as [|m2 e2 Hb2]; [simpl in Hle; nia|].
  apply SFleb_value; [apply sqrtf_finite; now constructor..|].
  now apply fsqrt_mono.
Qed.

Lemma sq_diff_mono p a b :
  0 <= p <= 2 ^ 31 -> 0 <= a <= 2 ^ 31 -> 0 <= b <= 2 ^ 31 ->
  between p a b ->
  let da := (static_cast_float a - static_cast_float p)%f32 in
  let db := (static_cast_float b - static_cast_float p)%f32 in
  value (da * da)%f32 <= value (db * db)%f32.
Proof.
  intros Hp Ha Hb Hbt da db.
  apply (fmul_self_mono _ _ 31); [lia| | |].
  - apply fsub_finite; [lia|now apply static_cast_float_finite..].
  - apply fsub_finite; [lia|now apply static_cast_float_finite..].
  - apply (fsub_mag_mono _ _ _ 31);
      [lia|now apply static_cast_float_finite..|].
    destruct Hbt as [[H1 H2]|[H1 H2]].
    + pose proof (static_cast_float_mono p a ltac:(lia) ltac:(lia)).
      pose proof (static_cast_float_mono a b ltac:(lia) ltac:(lia)).
      lia.
    + pose proof (static_cast_float_mono a p ltac:(lia) ltac:(lia)).
      pose proof (static_cast_float_mono b a ltac:(lia) ltac:(lia)).
      lia.
Qed.

(** The computed distance to a point grows along every axis-wise
    monotone path that leaves the point. *)
Lemma distance_between_mono (p : details.Vector3i) xa ya za xb yb zb :
  0 <= details.x p <= 2 ^ 31 -> 0 <= details.y p <= 2 ^ 31 ->
  0 <= details.z p <= 2 ^ 31 ->
  0 <= xa <= 2 ^ 31 -> 0 <= ya <= 2 ^ 31 -> 0 <= za <= 2 ^ 31 ->
  0 <= xb <= 2 ^ 31 -> 0 <= yb <= 2 ^ 31 -> 0 <= zb <= 2 ^ 31 ->
  between (details.x p) xa xb -> between (details.y p) ya yb ->
  between (details.z p) za zb ->
  (voxel_distance p xa ya za <= voxel_distance p xb yb zb)%f32 = true.
Proof.
  intros Hpx Hpy Hpz Hxa Hya Hza Hxb Hyb Hzb Bx By Bz.
  assert (forall a b, 0 <= a <= 2 ^ 31 -> 0 <= b <= 2 ^ 31 ->
            finite_le (scale 62)
              ((static_cast_float a - static_cast_float b)
               * (static_cast_float a - static_cast_float b))%f32) as Hsq.
  { intros a b Ha Hb.
    apply (fmul_self_finite _ 31); [lia|].
    apply fsub_finite; [lia|apply static_cast_float_finite; assumption..]. }
  assert (forall a b c d, 0 <= a <= 2 ^ 31 -> 0 <= b <= 2 ^ 31 ->
            0 <= c <= 2 ^ 31 -> 0 <= d <= 2 ^ 31 ->
            finite_le (scale 63)
              ((static_cast_float a - static_cast_float b)
               * (static_cast_float a - static_cast_float b)
               + (static_cast_float c - static_cast_float d)
                 * (static_cast_float c - static_cast_float d))%f32)
    as Hsum.
  { intros a b c d Ha Hb Hc Hd.
    apply (fadd_finite _ _ 62); [lia|apply Hsq; assumption..]. }
  unfold fle. apply SFleb_value;
    [unfold voxel_distance; now apply distance_finite..|].
  unfold voxel_distance, details.distance, details.toVector3f.
  cbn [details.x details.y details.z].
  apply sqrtf_mono.
  - eapply proj1. apply (fadd_finite _ _ 63); [lia|now apply Hsum|].
    apply (finite_le_weaken 62 63); [lia|now apply Hsq].
  - eapply proj1. apply (fadd_finite _ _ 63); [lia|now apply Hsum|].
    apply (finite_le_weaken 62 63); [lia|now apply Hsq].
  - apply fadd_mono.
    + eapply proj1. now apply Hsum.
    + eapply proj1. now apply Hsq.
    + eapply proj1. now apply Hsum.
    + eapply proj1. now apply Hsq.
    + eapply proj1. apply (fadd_finite _ _ 63); [lia|now apply Hsum|].
      apply (finite_le_weaken 62 63); [lia|now apply Hsq].
    + apply fadd_mono.
      * eapply proj1. now apply Hsq.
      * eapply proj1. now apply Hsq.
      * eapply proj1. now apply Hsq.
      * eapply proj1. now apply Hsq.
      * eapply proj1. now apply Hsum.
      * now apply sq_diff_mono.
      * now apply sq_diff_mono.
    + now apply sq_diff_mono.
Qed.

(** ** Exact results *)

Lemma value_inj a b :
  finite_nonneg a -> finite_nonneg b -> value a = value b -> a = b.
Proof.
  intros [|ma ea Ha] [|mb eb Hb] E; simpl value in E.
  - reflexivity.
  - destruct (bounded_digits _ _ Hb) as (_ & He & _).
    pose proof (scale_pos eb ltac:(lia)). nia.
  - destruct (bounded_digits _ _ Ha) as (_ & He & _).
    pose proof (scale_pos ea ltac:(lia)). nia.
  - pose proof (SFcompare_value ma ea mb eb Ha Hb) as Hc.
    rewrite E, Z.compare_refl, SFcompare_finite in Hc.
    injection Hc as Hc.
    destruct (Z.compare_spec ea eb) as [->| |]; try discriminate.
    apply Pos.compare_eq in Hc. now subst.
Qed.

Lemma bounded_intro m e :
  Zdigits2 (Z.pos m) = 24 -> -149 <= e <= 104 ->
  bounded prec emax m e = true.
Proof.
  intros Hd He. unfold bounded, canonical_mantissa.
  change (Z.pos (digits2_pos m)) with (Zdigits2 (Z.pos m)).
  rewrite Hd, fexp_spec.
  apply andb_true_intro. split.
  - apply Z.eqb_eq. lia.
  - apply Z.leb_le. change (emax - prec) with 104. lia.
Qed.

(** The integers below 2^24 are floats. *)
Lemma representable n :
  0 < n <= 2 ^ 24 ->
  exists m e, bounded prec emax m e = true /\
              Z.pos m * scale e = n * scale 0.
Proof.
  intros Hn'. destruct (Z.eq_dec n (2 ^ 24)) as [->|Hne].
  { exists 8388608%positive, (24 - 23). split; [apply pow2_bounded; lia|].
    rewrite pow2_value by lia. rewrite Z.mul_comm. apply (scale_add 0 24); lia. }
  assert (0 < n < 2 ^ 24) as Hn by lia. clear Hn' Hne.
  pose proof (Zdigits2_pos n ltac:(lia)) as Hd1.
  pose proof (Zdigits2_le n 24 ltac:(lia) ltac:(lia) ltac:(lia)) as Hd2.
  set (d := Zdigits2 n) in *.
  assert (0 < 2 ^ (24 - d)) as Hp by (apply Z.pow_pos_nonneg; lia).
  exists (Z.to_pos (n * 2 ^ (24 - d))), (d - 24).
  assert (Z.pos (Z.to_pos (n * 2 ^ (24 - d))) = n * 2 ^ (24 - d)) as E
    by (apply Z2Pos.id; nia).
  split.
  - apply bounded_intro; [|lia].
    rewrite E, Zdigits2_shift by lia. fold d. lia.
  - rewrite E.
    assert (scale 0 = scale (d - 24) * 2 ^ (24 - d)) as ->
      by (rewrite <- scale_add by lia; f_equal; lia).
    ring.
Qed.

Lemma rounds_representable V W f m e :
  rounds false V W f -> 0 < W ->
  bounded prec emax m e = true -> V = Z.pos m * scale e * W ->
  f = S754_finite false m e.
Proof.
  intros R HW Hb ->.
  pose proof (rounds_exact false m e Hb) as R'.
  pose proof (rounds_mono _ _ _ _ _ _ R R' HW ltac:(lia) ltac:(lia)) as H1.
  pose proof (rounds_mono _ _ _ _ _ _ R' R ltac:(lia) HW ltac:(lia)) as H2.
  assert (finite_nonneg (S754_finite false m e)) as Hf by now constructor.
  destruct (rounds_nonneg _ _ _ R) as [| |m' e' Hb'];
    [discriminate H2|discriminate H1|].
  assert (finite_nonneg (S754_finite false m' e')) as Hf' by now constructor.
  apply SFleb_value in H1; [|assumption..].
  apply SFleb_value in H2; [|assumption..].
  apply value_inj; [assumption..|lia].
Qed.

(** The conversion of an integer up to 2^24 is exact. *)
Lemma static_cast_float_exact n :
  0 <= n <= 2 ^ 24 ->
  finite_nonneg (static_cast_float n) /\
  value (static_cast_float n) = n * scale 0.
Proof.
  intros Hn. destruct (Z.eq_dec n 0) as [->|Hne].
  - split; [constructor|reflexivity].
  - destruct (representable n ltac:(lia)) as (m & e & Hb & E).
    unfold static_cast_float.
    rewrite (rounds_representable _ _ _ m e
               (static_cast_float_rounds n ltac:(lia))); [|lia|assumption|lia].
    split; [now constructor|exact E].
Qed.

(** So is the difference of two such conversions. *)
Lemma fsub_int_exact a p :
  0 <= a <= 2 ^ 24 -> 0 <= p <= 2 ^ 24 ->
  let d := (static_cast_float a - static_cast_float p)%f32 in
  finite_abs_le (scale 24) d /\ value d = Z.abs (a - p) * scale 0.
Proof.
  intros Ha Hp d.
  destruct (static_cast_float_exact a Ha) as [Hfa Va].
  destruct (static_cast_float_exact p Hp) as [Hfp Vp].
  pose proof (scale_pos 0 ltac:(lia)) as Hs0.
  assert (scale 24 = 2 ^ 24 * scale 0) as Hs24
    by (rewrite Z.mul_comm; apply (scale_add 0 24); lia).
  split.
  - apply fsub_finite; [lia| |]; (split; [assumption|nia]).
  - subst d. destruct (fsub_mag _ _ Hfa Hfp) as [[E ->]|(Hne & g & R & ->)].
    + rewrite Va, Vp in E. nia.
    + rewrite Va, Vp in R, Hne.
      replace (a * scale 0 - p * scale 0) with ((a - p) * scale 0) in R
        by ring.
      rewrite Z.abs_mul, (Z.abs_eq (scale 0)) in R by lia.
      destruct (representable (Z.abs (a - p)) ltac:(nia)) as (m & e & Hb & E).
      rewrite (rounds_representable _ _ _ m e R); [|lia|assumption|lia].
      exact E.
Qed.

Lemma sq_diff_finite a b :
  0 <= a <= 2 ^ 31 -> 0 <= b <= 2 ^ 31 ->
  finite_le (scale 62)
    ((static_cast_float a - static_cast_float b)
     * (static_cast_float a - static_cast_float b))%f32.
Proof.
  intros Ha Hb. apply (fmul_self_finite _ 31); [lia|].
  apply fsub_finite; [lia|apply static_cast_float_finite; assumption..].
Qed.

(** ** The computed distance and the Euclidean distance *)

(** Rounding to nearest moves a fraction by half a unit at most. *)
Lemma rnd_half A B :
  0 < B -> 0 <= A -> 2 * A - B <= 2 * rnd A B * B <= 2 * A + B.
Proof.
  intros HB HA. split.
  - destruct (Z.le_gt_cases (2 * A - B) (2 * rnd A B * B)) as [|Hgt];
      [assumption|exfalso].
    assert (rnd A B + 1 <= rnd A B); [|lia].
    apply rnd_gt_iff; [assumption..|]. left. lia.
  - assert (rnd A B - 1 + 1 <= rnd A B) as H by lia.
    apply rnd_gt_iff in H; [|assumption..].
    destruct H as [H|[H _]]; lia.
Qed.

Lemma value_finish k ec :
  0 <= k <= 2 ^ prec -> -1000 <= ec ->
  finite_nonneg (finish false k ec) ->
  value (finish false k ec) = k * scale ec.
Proof.
  intros Hk Hec Hf. unfold finish in *.
  destruct k as [|p|p]; [reflexivity| |lia].
  destruct (Z.ltb_spec (Z.pos p) (2 ^ prec)).
  - destruct (ec <=? emax - prec); [reflexivity|inversion Hf].
  - destruct (ec + 1 <=? emax - prec); [|inversion Hf].
    replace (Z.pos p) with (2 ^ prec) by lia.
    unfold value. rewrite <- scale_double by lia.
    change (Z.pos (Z.to_pos (2 ^ (prec - 1)))) with 8388608.
    change (2 ^ prec) with 16777216. lia.
Qed.

(** The relative error of a rounding in the normal range is one unit
    roundoff at most. *)
Lemma rounds_rel V W f :
  rounds false V W f -> 0 < W -> V = 0 \/ scale (-126) * W <= V ->
  finite_nonneg f ->
  (ulps - 1) * V <= ulps * (value f * W) <= (ulps + 1) * V.
Proof.
  intros (A & B & ec & -> & Hc & E) HW HV Hf.
  pose proof Hc as (HA & HB & Hhi & Hec & Hnorm).
  destruct (canon_rnd A B ec Hc) as [Hk _].
  rewrite value_finish by (assumption || lia).
  pose proof (scale_pos ec ltac:(lia)) as Hs.
  pose proof (rnd_half A B HB HA) as Hh.
  set (k := rnd A B) in *.
  assert (0 < scale ec * W) as HT by (apply Z.mul_pos_pos; assumption).
  destruct HV as [->|HV].
  { assert (A = 0) as -> by nia.
    assert (k = 0) as -> by nia. lia. }
  assert (2 ^ (prec - 1) * B <= A) as Hn.
  { destruct Hnorm as [->|]; [|assumption].
    assert (scale (-126) = scale (-149) * 2 ^ 23) as E1
      by (rewrite <- scale_add by lia; reflexivity).
    rewrite E1 in HV. change (2 ^ (prec - 1)) with (2 ^ 23).
    pose proof (scale_pos (-149) ltac:(lia)) as Hs'.
    assert (0 < scale (-149) * W) as HT' by (apply Z.mul_pos_pos; assumption).
    apply (Z.mul_le_mono_pos_r _ _ (scale (-149) * W)); [assumption|].
    replace (A * (scale (-149) * W)) with (V * B) by lia.
    replace (2 ^ 23 * B * (scale (-149) * W))
      with (scale (-149) * 2 ^ 23 * W * B) by ring.
    apply Z.mul_le_mono_nonneg_r; lia. }
  unfold ulps. change (2 ^ (prec - 1)) with 8388608 in Hn.
  change (2 ^ prec) with 16777216 in *.
  assert ((16777216 - 1) * A <= 16777216 * (k * B)
          /\ 16777216 * (k * B) <= (16777216 + 1) * A) as [H1 H2] by lia.
  split.
  - apply (Z.mul_le_mono_pos_r _ _ B); [assumption|].
    replace ((16777216 - 1) * V * B) with ((16777216 - 1) * A * (scale ec * W))
      by (rewrite <- (Z.mul_assoc _ V B), <- E; ring).
    replace (16777216 * (k * scale ec * W) * B)
      with (16777216 * (k * B) * (scale ec * W)) by ring.
    apply Z.mul_le_mono_nonneg_r; lia.
  - apply (Z.mul_le_mono_pos_r _ _ B); [assumption|].
    replace ((16777216 + 1) * V * B) with ((16777216 + 1) * A * (scale ec * W))
      by (rewrite <- (Z.mul_assoc _ V B), <- E; ring).
    replace (16777216 * (k * scale ec * W) * B)
      with (16777216 * (k * B) * (scale ec * W)) by ring.
    apply Z.mul_le_mono_nonneg_r; lia.
Qed.

Lemma sqrt_round_bounds N q r k :
  2 <= N -> N <= 2 * q -> 0 <= r <= 2 * q ->
  k = (if r <=? q then q else q + 1) ->
  (N - 1) ^ 2 * (q * q + r) <= N ^ 2 * (k * k) /\
  N ^ 2 * (k * k) <= (N + 1) ^ 2 * (q * q + r).
Proof.
  intros HN Hq Hr ->.
  replace ((N - 1) ^ 2) with ((N - 1) * (N - 1)) by ring.
  replace ((N + 1) ^ 2) with ((N + 1) * (N + 1)) by ring.
  replace (N ^ 2) with (N * N) by ring.
  destruct (Z.leb_spec r q) as [Hle|Hgt].
  - split.
    + (* (N-1)^2 (q^2+r) <= (N-1)^2 (q^2+q) <= N^2 q^2 *)
      apply Z.le_trans with ((N - 1) * (N - 1) * (q * q + q)).
      * apply Z.mul_le_mono_nonneg_l; nia.
      * assert (0 <= (2 * q - N) * (2 * N - 1)) as H1 by nia.
        assert ((N - 1) * (N - 1) * (q + 1) <= N * N * q) as H2 by nia.
        replace ((N - 1) * (N - 1) * (q * q + q))
          with ((N - 1) * (N - 1) * (q + 1) * q) by ring.
        replace (N * N * (q * q)) with (N * N * q * q) by ring.
        apply Z.mul_le_mono_nonneg_r; lia.
    + apply Z.le_trans with (N * N * (q * q + r)); [|nia].
      apply Z.mul_le_mono_nonneg_l; nia.
  - split.
    + apply Z.le_trans with (N * N * (q * q + r)); [nia|].
      apply Z.mul_le_mono_nonneg_l; nia.
    + apply Z.le_trans with ((N + 1) * (N + 1) * (q * q + q + 1)).
      * assert (0 <= (2 * q - N) * (2 * N + 1)) as H1 by nia.
        assert (N * N * (q + 1) <= (N + 1) * (N + 1) * q) as H2 by nia.
        apply Z.le_trans with ((N + 1) * (N + 1) * q * (q + 1)); [|nia].
        replace (N * N * ((q + 1) * (q + 1)))
          with (N * N * (q + 1) * (q + 1)) by ring.
        apply Z.mul_le_mono_nonneg_r; lia.
      * apply Z.mul_le_mono_nonneg_l; nia.
Qed.

(** The relative error of the square root. *)
Lemma fsqrt_rel m e :
  bounded prec emax m e = true -> scale (-126) <= Z.pos m * scale e ->
  (ulps - 1) ^ 2 * (Z.pos m * scale e * scale 0)
    <= ulps ^ 2 * value (sqrtf (S754_finite false m e)) ^ 2 /\
  ulps ^ 2 * value (sqrtf (S754_finite false m e)) ^ 2
    <= (ulps + 1) ^ 2 * (Z.pos m * scale e * scale 0).
Proof.
  intros Hb Hlow.
  pose proof (sqrtf_finite (S754_finite false m e) ltac:(now constructor))
    as Hf.
  unfold sqrtf in *.
  destruct (bounded_digits _ _ Hb) as (_ & He & _).
  destruct (fsqrt_core m e Hb) as (q & r & ec & Hs & Hc & _ & Hec & HM & Hr).
  cbv zeta in Hs, Hc. rewrite Hs in *.
  set (c := if r =? 0 then 0 else if r <=? q then 1 else 3) in *.
  assert (0 <= c <= 3) as Hc3
    by (subst c; destruct (r =? 0), (r <=? q); lia).
  pose proof Hc as (HA & _ & Hhi & Hec0 & Hnorm).
  destruct (canon_rnd _ _ _ Hc) as [Hk _].
  rewrite value_finish by (assumption || lia).
  pose proof (rnd_half (4 * q + c) 4 ltac:(lia) HA) as Hh.
  set (k := rnd (4 * q + c) 4) in *.
  assert (k = if r <=? q then q else q + 1) as Ek.
  { subst c. destruct (Z.eqb_spec r 0), (Z.leb_spec r q); lia. }
  pose proof (scale_pos ec ltac:(lia)) as Hsc.
  assert (Z.pos m * scale e * scale 0 = (q * q + r) * (scale ec * scale ec))
    as EM.
  { rewrite <- HM. unfold scale.
    rewrite <- !Z.mul_assoc, <- !Z.pow_add_r by lia.
    f_equal. f_equal. lia. }
  assert (8388608 <= q) as Hq.
  { destruct Hnorm as [->|Hn];
      [|change (2 ^ (prec - 1)) with 8388608 in Hn; lia].
    destruct (Z.le_gt_cases 8388608 q) as [|Hlt]; [assumption|exfalso].
    assert (scale e = 2 ^ (e - 2 * -149) * 2 ^ 702) as E1
      by (unfold scale; rewrite <- Z.pow_add_r by lia; f_equal; lia).
    assert (scale (-126) = 2 ^ 172 * 2 ^ 702) as E2 by reflexivity.
    rewrite E1, E2, Z.mul_assoc, HM in Hlow.
    apply Z.mul_le_mono_pos_r in Hlow; [|reflexivity].
    assert (q * q <= 8388607 * 8388607) by nia.
    change (2 ^ 172) with 5986310706507378352962293074805895248510699696029696 in Hlow.
    lia. }
  rewrite EM.
  replace ((k * scale ec) ^ 2) with (k * k * (scale ec * scale ec)) by ring.
  assert (0 <= scale ec * scale ec) as HT by nia.
  destruct (sqrt_round_bounds ulps q r k) as [H1 H2];
    [unfold ulps; simpl; lia|unfold ulps; change (2 ^ prec) with 16777216; lia
    |assumption|assumption|].
  set (T := scale ec * scale ec) in *.
  split.
  - rewrite (Z.mul_assoc _ _ T), (Z.mul_assoc _ _ T).
    apply Z.mul_le_mono_nonneg_r; assumption.
  - rewrite (Z.mul_assoc _ _ T), (Z.mul_assoc _ _ T).
    apply Z.mul_le_mono_nonneg_r; assumption.
Qed.

Lemma ulps_pow n :
  0 <= n ->
  0 < (ulps - 1) ^ n /\ 0 < ulps ^ n /\ 0 < (ulps + 1) ^ n /\
  ulps ^ n <= 2 ^ n * (ulps - 1) ^ n.
Proof.
  intros Hn. unfold ulps. change (2 ^ prec) with 16777216.
  repeat split; try (apply Z.pow_pos_nonneg; lia).
  rewrite <- Z.pow_mul_l. apply Z.pow_le_mono_l. lia.
Qed.

Lemma approximates_zero n D f :
  0 <= n -> 0 <= D -> approximates n D f -> (D = 0 <-> value f = 0).
Proof.
  intros Hn HD (Hf & Hlo & Hhi).
  destruct (ulps_pow n Hn) as (H1 & H2 & H3 & _).
  pose proof (scale_pos 0 ltac:(lia)) as Hs.
  pose proof (value_nonneg f) as Hv.
  split.
  - intros ->. rewrite Z.mul_0_l, Z.mul_0_r in Hhi. nia.
  - intros E. rewrite E, Z.mul_0_r in Hlo.
    assert (D * scale 0 <= 0) by nia. nia.
Qed.

Lemma approximates_lower n D f :
  0 <= n <= 1000 -> 1 <= D -> approximates n D f -> scale (-n) <= value f.
Proof.
  intros Hn HD (Hf & Hlo & _).
  destruct (ulps_pow n ltac:(lia)) as (H1 & H2 & _ & H3).
  pose proof (scale_pos 0 ltac:(lia)) as Hs.
  pose proof (value_nonneg f) as Hv.
  assert (scale 0 = scale (-n) * 2 ^ n) as E
    by (rewrite <- scale_add by lia; f_equal; lia).
  assert (0 < 2 ^ n) as Hp by (apply Z.pow_pos_nonneg; lia).
  apply (Z.mul_le_mono_pos_r _ _ (2 ^ n * (ulps - 1) ^ n));
    [apply Z.mul_pos_pos; assumption|].
  apply Z.le_trans with ((ulps - 1) ^ n * (D * scale 0)).
  - rewrite E.
    replace ((ulps - 1) ^ n * (D * (scale (- n) * 2 ^ n)))
      with (D * (scale (- n) * (2 ^ n * (ulps - 1) ^ n))) by ring.
    pose proof (scale_pos (- n) ltac:(lia)).
    assert (0 <= scale (- n) * (2 ^ n * (ulps - 1) ^ n))
      by (apply Z.mul_nonneg_nonneg; [lia|apply Z.mul_nonneg_nonneg; lia]).
    nia.
  - apply Z.le_trans with (ulps ^ n * value f); [assumption|].
    rewrite (Z.mul_comm (value f)). apply Z.mul_le_mono_nonneg_r; lia.
Qed.

(** The square of the difference of two coordinates. *)
Lemma sq_diff_approx a p :
  0 <= a <= 2 ^ 24 -> 0 <= p <= 2 ^ 24 ->
  approximates 1 ((a - p) ^ 2)
    ((static_cast_float a - static_cast_float p)
     * (static_cast_float a - static_cast_float p))%f32.
Proof.
  intros Ha Hp.
  destruct (fsub_int_exact a p Ha Hp) as [Hd Vd]. cbv zeta in Hd, Vd.
  pose proof (fmul_self_finite _ 24 ltac:(lia) Hd) as [Hf _].
  set (d := (static_cast_float a - static_cast_float p)%f32) in *.
  pose proof (scale_pos 0 ltac:(lia)) as Hs.
  split; [assumption|]. rewrite !Z.pow_1_r.
  destruct d as [s|s| |s m e]; try contradiction.
  - simpl in Vd. assert (a - p = 0) as -> by nia.
    unfold fmul. simpl. lia.
  - destruct Hd as [Hb _]. simpl value in Vd.
    pose proof (fmul_rounds s m e s m e Hb Hb) as Hr.
    replace (xorb s s) with false in Hr by (destruct s; reflexivity).
    fold (fmul (S754_finite s m e) (S754_finite s m e)) in Hr.
    apply rounds_rel in Hr; [|assumption| |assumption].
    + rewrite Vd in Hr.
      replace (Z.abs (a - p) * scale 0 * (Z.abs (a - p) * scale 0))
        with ((a - p) ^ 2 * scale 0 * scale 0) in Hr
        by (rewrite Z.pow_2_r, <- (Z.abs_square (a - p)); ring).
      rewrite !Z.mul_assoc in Hr.
      split; apply (Z.mul_le_mono_pos_r _ _ (scale 0)); try assumption;
        rewrite <- !Z.mul_assoc; rewrite <- !Z.mul_assoc in Hr; apply Hr.
    + right. rewrite Vd.
      assert (1 <= Z.abs (a - p)).
      { destruct (bounded_digits _ _ Hb) as (_ & He & _).
        pose proof (scale_pos e ltac:(lia)). nia. }
      assert (scale (-126) <= scale 0) by (apply scale_le; lia).
      pose proof (scale_pos (-126) ltac:(lia)).
      apply Z.mul_le_mono_nonneg; nia.
Qed.

(** The sum of two approximations. *)
Lemma fadd_approx n a b Da Db :
  0 <= n <= 126 -> 0 <= Da -> 0 <= Db ->
  approximates n Da a -> approximates n Db b -> finite_nonneg (a + b)%f32 ->
  approximates (n + 1) (Da + Db) (a + b)%f32.
Proof.
  intros Hn HDa HDb Ha Hb Hf.
  pose proof (approximates_zero n Da a ltac:(lia) HDa Ha) as Za.
  pose proof (approximates_zero n Db b ltac:(lia) HDb Hb) as Zb.
  pose proof (fun H => approximates_lower n Da a ltac:(lia) H Ha) as La.
  pose proof (fun H => approximates_lower n Db b ltac:(lia) H Hb) as Lb.
  destruct Ha as (Hfa & Hloa & Hhia), Hb as (Hfb & Hlob & Hhib).
  destruct (ulps_pow n ltac:(lia)) as (H1 & H2 & H3 & _).
  pose proof (scale_pos 0 ltac:(lia)) as Hs.
  pose proof (value_nonneg a) as Hva. pose proof (value_nonneg b) as Hvb.
  assert (0 <= ulps - 1 /\ 0 <= ulps + 1) as [U1 U2]
    by (unfold ulps; change (2 ^ prec) with 16777216; lia).
  split; [assumption|]. rewrite !Z.pow_add_r, !Z.pow_1_r by lia.
  destruct (fadd_cases a b Hfa Hfb) as [(Ea & Eb & ->)|Hr].
  - apply Za in Ea. apply Zb in Eb. subst. simpl. lia.
  - apply rounds_rel in Hr; [|lia| |assumption].
    + rewrite Z.mul_1_r in Hr. destruct Hr as [Hlo Hhi].
      set (v := value (a + b)%f32) in *.
      split.
      * apply Z.le_trans with ((ulps - 1) * (ulps ^ n * (value a + value b))).
        -- replace ((ulps - 1) ^ n * (ulps - 1) * ((Da + Db) * scale 0))
             with ((ulps - 1) * ((ulps - 1) ^ n * (Da * scale 0)
                                 + (ulps - 1) ^ n * (Db * scale 0))) by ring.
           apply Z.mul_le_mono_nonneg_l; [assumption|lia].
        -- replace ((ulps - 1) * (ulps ^ n * (value a + value b)))
             with (ulps ^ n * ((ulps - 1) * (value a + value b))) by ring.
           rewrite <- Z.mul_assoc. apply Z.mul_le_mono_nonneg_l; lia.
      * apply Z.le_trans with ((ulps + 1) * (ulps ^ n * (value a + value b))).
        -- replace ((ulps + 1) * (ulps ^ n * (value a + value b)))
             with (ulps ^ n * ((ulps + 1) * (value a + value b))) by ring.
           rewrite <- Z.mul_assoc. apply Z.mul_le_mono_nonneg_l; lia.
        -- replace ((ulps + 1) ^ n * (ulps + 1) * ((Da + Db) * scale 0))
             with ((ulps + 1) * ((ulps + 1) ^ n * (Da * scale 0)
                                 + (ulps + 1) ^ n * (Db * scale 0))) by ring.
           apply Z.mul_le_mono_nonneg_l; [assumption|lia].
    + rewrite Z.mul_1_r.
      assert (scale (-126) <= scale (- n)) by (apply scale_le; lia).
      destruct (Z.eq_dec Da 0) as [E0|Hne].
      * destruct (Z.eq_dec Db 0) as [E1|Hne'].
        -- left. apply Za in E0. apply Zb in E1. lia.
        -- right. specialize (Lb ltac:(lia)). lia.
      * right. specialize (La ltac:(lia)). lia.
Qed.

Lemma approximates_weaken n D f :
  0 <= n -> 0 <= D -> approximates n D f -> approximates (n + 1) D f.
Proof.
  intros Hn HD (Hf & Hlo & Hhi).
  destruct (ulps_pow n Hn) as (H1 & H2 & H3 & _).
  pose proof (scale_pos 0 ltac:(lia)) as Hs.
  pose proof (value_nonneg f) as Hv.
  split; [assumption|]. rewrite !Z.pow_add_r, !Z.pow_1_r by lia.
  assert (0 <= D * scale 0) by nia.
  assert (ulps = 16777216) as EU by reflexivity.
  split.
  - apply Z.le_trans with ((ulps - 1) * (ulps ^ n * value f)).
    + rewrite (Z.mul_comm ((ulps - 1) ^ n)), <- Z.mul_assoc.
      apply Z.mul_le_mono_nonneg_l; lia.
    + rewrite (Z.mul_comm (ulps ^ n) ulps), <- Z.mul_assoc.
      apply Z.mul_le_mono_nonneg_r; nia.
  - apply Z.le_trans with ((ulps + 1) * (ulps ^ n * value f)).
    + rewrite (Z.mul_comm (ulps ^ n) ulps), <- Z.mul_assoc.
      apply Z.mul_le_mono_nonneg_r; nia.
    + rewrite (Z.mul_comm ((ulps + 1) ^ n)), <- Z.mul_assoc.
      apply Z.mul_le_mono_nonneg_l; lia.
Qed.

(** The square root of an approximation. *)
Lemma sqrtf_approx D a :
  0 <= D -> approximates 3 D a -> approximates_sqrt D (sqrtf a).
Proof.
  intros HD Ha.
  pose proof (approximates_zero 3 D a ltac:(lia) HD Ha) as Za.
  pose proof (fun H => approximates_lower 3 D a ltac:(lia) H Ha) as La.
  destruct Ha as (Hf & Hlo & Hhi).
  pose proof (scale_pos 0 ltac:(lia)) as Hs.
  split; [now apply sqrtf_finite|].
  destruct Hf as [|m e Hb].
  - assert (D = 0) as -> by (apply Za; reflexivity).
    unfold sqrtf. simpl. lia.
  - change (value (S754_finite false m e)) with (Z.pos m * scale e) in *.
    assert (D <> 0) as Hne.
    { intros E. apply Za in E.
      destruct (bounded_digits _ _ Hb) as (_ & He & _).
      pose proof (scale_pos e ltac:(lia)). nia. }
    specialize (La ltac:(lia)). change (- (3)) with (-3) in La.
    assert (scale (-126) <= scale (-3)) by (apply scale_le; lia).
    destruct (fsqrt_rel m e Hb ltac:(lia)) as [Slo Shi].
    set (r := value (sqrtf (S754_finite false m e)) ^ 2) in *.
    set (v := Z.pos m * scale e) in *.
    assert (0 <= r) by (subst r; apply Z.pow_even_nonneg; exists 1; reflexivity).
    replace (scale 0 ^ 2) with (scale 0 * scale 0) by ring.
    assert (ulps = 16777216) as EU by reflexivity.
    split.
    + apply Z.le_trans with ((ulps - 1) ^ 2 * (ulps ^ 3 * v * scale 0)).
      * replace ((ulps - 1) ^ 5 * (D * (scale 0 * scale 0)))
          with ((ulps - 1) ^ 2 * ((ulps - 1) ^ 3 * (D * scale 0) * scale 0))
          by ring.
        apply Z.mul_le_mono_nonneg_l; [rewrite EU; lia|].
        apply Z.mul_le_mono_nonneg_r; lia.
      * replace ((ulps - 1) ^ 2 * (ulps ^ 3 * v * scale 0))
          with (ulps ^ 3 * ((ulps - 1) ^ 2 * (v * scale 0))) by ring.
        replace (ulps ^ 5 * r) with (ulps ^ 3 * (ulps ^ 2 * r)) by ring.
        apply Z.mul_le_mono_nonneg_l; [rewrite EU; lia|assumption].
    + apply Z.le_trans with ((ulps + 1) ^ 2 * (ulps ^ 3 * v * scale 0)).
      * replace ((ulps + 1) ^ 2 * (ulps ^ 3 * v * scale 0))
          with (ulps ^ 3 * ((ulps + 1) ^ 2 * (v * scale 0))) by ring.
        replace (ulps ^ 5 * r) with (ulps ^ 3 * (ulps ^ 2 * r)) by ring.
        apply Z.mul_le_mono_nonneg_l; [rewrite EU; lia|assumption].
      * replace ((ulps + 1) ^ 5 * (D * (scale 0 * scale 0)))
          with ((ulps + 1) ^ 2 * ((ulps + 1) ^ 3 * (D * scale 0) * scale 0))
          by ring.
        apply Z.mul_le_mono_nonneg_l; [rewrite EU; lia|].
        apply Z.mul_le_mono_nonneg_r; lia.
Qed.

(** Between a point and a voxel with coordinates up to 2^24, the distance
    that [details::distance] computes is the Euclidean distance up to
    its roundings. *)
Lemma distance_approximates (p : details.Vector3i) x y z :
  0 <= details.x p <= 2 ^ 24 -> 0 <= details.y p <= 2 ^ 24 ->
  0 <= details.z p <= 2 ^ 24 ->
  0 <= x <= 2 ^ 24 -> 0 <= y <= 2 ^ 24 -> 0 <= z <= 2 ^ 24 ->
  approximates_sqrt (squared_distance p x y z) (voxel_distance p x y z).
Proof.
  intros Hpx Hpy Hpz Hx Hy Hz.
  unfold voxel_distance, details.distance, details.toVector3f,
    squared_distance.
  cbn [details.x details.y details.z].
  set (sx := ((static_cast_float x - static_cast_float (details.x p))
              * (static_cast_float x - static_cast_float (details.x p)))%f32).
  set (sy := ((static_cast_float y - static_cast_float (details.y p))
              * (static_cast_float y - static_cast_float (details.y p)))%f32).
  set (sz := ((static_cast_float z - static_cast_float (details.z p))
              * (static_cast_float z - static_cast_float (details.z p)))%f32).
  assert (finite_le (scale 62) sx) as Hsx by (apply sq_diff_finite; lia).
  assert (finite_le (scale 62) sy) as Hsy by (apply sq_diff_finite; lia).
  assert (finite_le (scale 62) sz) as Hsz by (apply sq_diff_finite; lia).
  pose proof (fadd_finite _ _ 62 ltac:(lia) Hsx Hsy) as [Hxy _].
  pose proof (fadd_finite _ _ 63 ltac:(lia)
                (fadd_finite _ _ 62 ltac:(lia) Hsx Hsy)
                (finite_le_weaken 62 63 _ ltac:(lia) Hsz)) as [Hxyz _].
  pose proof (sq_diff_approx x (details.x p) Hx Hpx) as Ax. fold sx in Ax.
  pose proof (sq_diff_approx y (details.y p) Hy Hpy) as Ay. fold sy in Ay.
  pose proof (sq_diff_approx z (details.z p) Hz Hpz) as Az. fold sz in Az.
  replace ((details.x p - x) ^ 2) with ((x - details.x p) ^ 2) by ring.
  replace ((details.y p - y) ^ 2) with ((y - details.y p) ^ 2) by ring.
  replace ((details.z p - z) ^ 2) with ((z - details.z p) ^ 2) by ring.
  assert (0 <= (x - details.x p) ^ 2) as Dx
    by (apply Z.pow_even_nonneg; exists 1; reflexivity).
  assert (0 <= (y - details.y p) ^ 2) as Dy
    by (apply Z.pow_even_nonneg; exists 1; reflexivity).
  assert (0 <= (z - details.z p) ^ 2) as Dz
    by (apply Z.pow_even_nonneg; exists 1; reflexivity).
  apply sqrtf_approx; [lia|].
  apply (fadd_approx 2); [lia|lia|lia| | |assumption].
  - apply (fadd_approx 1); [lia|lia|lia|assumption|assumption|assumption].
  - apply (approximates_weaken 1); [lia|lia|assumption].
Qed.


(** * What a call of [worleyNoise3D] returns *)

Lemma worleyNoise3D_inv size gridSize engine r :
  is_size_t size -> is_size_t gridSize ->
  worleyNoise3D size gridSize engine = Returns r ->
  0 < gridSize <= size /\ size * size * size < 2 ^ SIZE_WIDTH /\
  exists pts,
    details.generateFeaturePoints size gridSize engine = Returns pts /\
    Z.of_nat (length r) = size * size * size /\
    forall x y z, in_volume size x y z ->
      r !! linear_index size x y z
        = Some (voxel pts (normaliser size gridSize) x y z).
Proof.
  intros Hs Hg Hrun.
  destruct (worleyNoise3D_Returns size gridSize engine r Hs Hg Hrun)
    as [Hvalid Hfit].
  split; [assumption|]. split; [assumption|].
  destruct (worleyNoise3D_spec size gridSize engine Hvalid Hfit r Hrun)
    as (pts & Hgen & Hlen & Hval).
  exists pts. repeat split; try assumption.
  intros x y z (Hx & Hy & Hz). now apply Hval.
Qed.

Lemma generated_in_volume size gridSize engine pts p :
  0 < gridSize <= size -> size <= INT_MAX ->
  details.generateFeaturePoints size gridSize engine = Returns pts ->
  p ∈ pts ->
  in_volume size (details.x p) (details.y p) (details.z p).
Proof.
  intros Hvalid Hint Hgen Hp.
  destruct (cell_edge_bounds size gridSize Hvalid) as [Hc Hgc].
  destruct (generated_point_cell size gridSize engine Hvalid Hint pts p
              Hgen Hp) as (i & j & k & Hi & Hj & Hk & _ & ->).
  pose proof (feature_point_in_cell engine gridSize (size / gridSize) i j k
                ltac:(lia)) as Hcell.
  pose proof (in_cell_in_volume size gridSize Hvalid i j k _ Hi Hj Hk Hcell).
  unfold in_volume. lia.
Qed.

Lemma generated_nonempty size gridSize engine pts :
  0 < gridSize <= size -> size <= INT_MAX ->
  details.generateFeaturePoints size gridSize engine = Returns pts ->
  exists p, p ∈ pts.
Proof.
  intros Hvalid Hint Hgen.
  destruct (generateFeaturePoints_spec size gridSize engine Hvalid Hint
              pts Hgen) as (Hlen & _).
  destruct pts as [|p pts]; [simpl in Hlen; nia|].
  exists p. constructor.
Qed.

Lemma FLT_MAX_largest d :
  finite_nonneg d -> value FLT_MAX <= value d -> d = FLT_MAX.
Proof.
  rewrite FLT_MAX_eq. simpl value.
  pose proof (scale_pos 104 ltac:(lia)) as Hs.
  intros [|m e Hb] Hle; [simpl in Hle; nia|]. simpl value in Hle.
  destruct (bounded_canon _ _ Hb) as [(_ & _ & Hhi & Hlo & _) He].
  change (2 ^ prec) with 16777216 in Hhi.
  pose proof (scale_pos e ltac:(lia)).
  destruct (Z.eq_dec e 104) as [->|Hne].
  - assert (Z.pos m = 16777215) as Hm by nia. injection Hm as ->. reflexivity.
  - exfalso. pose proof (scale_lt e 104 ltac:(lia) ltac:(lia)). nia.
Qed.

(** The scan finds the least of the distances to the feature points. *)
Lemma nearest_spec pts x y z :
  (forall p, p ∈ pts -> finite_nonneg (voxel_distance p x y z)) ->
  (exists p, p ∈ pts) ->
  (exists p, p ∈ pts /\ nearest pts x y z = voxel_distance p x y z) /\
  (forall p, p ∈ pts ->
     (voxel_distance p x y z < nearest pts x y z)%f32 = false).
Proof.
  intros Hfin [p0 Hp0].
  set (dist := fun p => voxel_distance p x y z).
  assert (nearest pts x y z = scan (map dist pts) FLT_MAX) as ->
    by apply nearest_scan.
  change (forall p, p ∈ pts -> finite_nonneg (dist p)) in Hfin.
  change (voxel_distance ?p x y z) with (dist p).
  destruct (scan_spec (map dist pts) FLT_MAX)
    as (Hf & Hle & Hlow & Hatt).
  { apply Forall_forall. intros d Hd.
    apply list_elem_of_fmap in Hd as (p & -> & _). apply distance_nonneg. }
  { rewrite FLT_MAX_eq. constructor. exact FLT_MAX_bounded. }
  assert (forall p, p ∈ pts ->
            (dist p < scan (map dist pts) FLT_MAX)%f32 = false)
    as Hlow'.
  { intros p Hp. apply Hlow. apply list_elem_of_fmap. eauto. }
  split; [|exact Hlow'].
  destruct Hatt as [Hatt|Hatt].
  - exists p0. split; [assumption|]. rewrite Hatt.
    symmetry. apply FLT_MAX_largest; [auto|].
    specialize (Hlow' p0 Hp0). rewrite Hatt in Hlow'.
    apply flt_false_value in Hlow'; auto.
    rewrite FLT_MAX_eq. constructor. exact FLT_MAX_bounded.
  - apply list_elem_of_fmap in Hatt as (p & E & Hp). eauto.
Qed.

Lemma least_squared_distance_exists pts x y z :
  (exists p, p ∈ pts) -> exists D, least_squared_distance pts x y z D.
Proof.
  intros [p0 Hp0]. destruct pts as [|q pts]; [inversion Hp0|].
  clear p0 Hp0. revert q. induction pts as [|q' pts IH]; intros q.
  - exists (squared_distance q x y z). split.
    + exists q. split; [constructor|reflexivity].
    + intros p Hp. apply list_elem_of_singleton in Hp as ->. lia.
  - destruct (IH q') as (D & (p1 & Hp1 & E1) & Hmin).
    destruct (Z.le_gt_cases D (squared_distance q x y z)) as [Hle|Hgt].
    + exists D. split.
      * exists p1. split; [now constructor|assumption].
      * intros p Hp. apply elem_of_cons in Hp as [->|Hp]; auto.
    + exists (squared_distance q x y z). split.
      * exists q. split; [constructor|reflexivity].
      * intros p Hp. apply elem_of_cons in Hp as [->|Hp]; [lia|].
        specialize (Hmin p Hp). lia.
Qed.

(** The minimum that the scan finds is the least Euclidean distance to a
    feature point, up to the roundings of [details::distance]. *)
Lemma nearest_approximates pts x y z D :
  (forall p, p ∈ pts ->
     0 <= details.x p <= 2 ^ 24 /\ 0 <= details.y p <= 2 ^ 24 /\
     0 <= details.z p <= 2 ^ 24) ->
  0 <= x <= 2 ^ 24 -> 0 <= y <= 2 ^ 24 -> 0 <= z <= 2 ^ 24 ->
  least_squared_distance pts x y z D ->
  approximates_sqrt D (nearest pts x y z).
Proof.
  intros Hpts Hx Hy Hz [(p0 & Hp0 & E0) Hmin].
  assert (forall p, p ∈ pts ->
            approximates_sqrt (squared_distance p x y z)
              (voxel_distance p x y z)) as Happ.
  { intros p Hp. destruct (Hpts p Hp) as (Hpx & Hpy & Hpz).
    now apply distance_approximates. }
  destruct (nearest_spec pts x y z) as [(p1 & Hp1 & E1) Hlow].
  { intros p Hp. apply (Happ p Hp). }
  { now exists p0. }
  destruct (Happ p1 Hp1) as (Hf1 & Hlo1 & _).
  destruct (Happ p0 Hp0) as (Hf0 & _ & Hhi0).
  rewrite E0 in Hhi0. rewrite <- E1 in Hf1, Hlo1.
  pose proof (scale_pos 0 ltac:(lia)) as Hs.
  assert (ulps = 16777216) as EU by reflexivity.
  split; [assumption|]. split.
  - apply Z.le_trans
      with ((ulps - 1) ^ 5 * (squared_distance p1 x y z * scale 0 ^ 2));
      [|assumption].
    apply Z.mul_le_mono_nonneg_l; [rewrite EU; lia|].
    apply Z.mul_le_mono_nonneg_r; [nia|]. now apply Hmin.
  - apply Z.le_trans with (ulps ^ 5 * value (voxel_distance p0 x y z) ^ 2);
      [|assumption].
    apply Z.mul_le_mono_nonneg_l; [rewrite EU; lia|].
    specialize (Hlow p0 Hp0).
    apply flt_false_value in Hlow; [|assumption..].
    pose proof (value_nonneg (nearest pts x y z)).
    apply Z.pow_le_mono_l. lia.
Qed.

(** Everything a returning call establishes. *)
Lemma worleyNoise3D_context size gridSize engine r :
  is_size_t size -> is_size_t gridSize ->
  worleyNoise3D size gridSize engine = Returns r ->
  exists pts,
    details.generateFeaturePoints size gridSize engine = Returns pts /\
    positive_float (normaliser size gridSize) /\
    (exists p, p ∈ pts) /\
    (forall p, p ∈ pts ->
       in_volume size (details.x p) (details.y p) (details.z p)) /\
    (forall p x y z, p ∈ pts -> in_volume size x y z ->
       finite_nonneg (voxel_distance p x y z)) /\
    Z.of_nat (length r) = size * size * size /\
    (forall x y z, in_volume size x y z ->
       r !! linear_index size x y z
         = Some (1.f - nearest pts x y z / normaliser size gridSize)%f32).
Proof.
  intros Hs Hg Hrun.
  destruct (worleyNoise3D_inv size gridSize engine r Hs Hg Hrun)
    as (Hvalid & Hfit & pts & Hgen & Hlen & Hval).
  pose proof (fits_int size ltac:(lia) Hfit) as Hint.
  destruct (cell_edge_bounds size gridSize Hvalid) as [Hc _].
  assert (positive_float (normaliser size gridSize)) as HM
    by (apply maxCellDistance_positive; assumption).
  assert (forall p, p ∈ pts ->
            in_volume size (details.x p) (details.y p) (details.z p)) as Hin
    by (intros p; apply (generated_in_volume size gridSize engine); assumption).
  exists pts.
  split; [assumption|]. split; [assumption|]. split; [|split; [assumption|]].
  2: split; [|split; [assumption|]].
  - apply (generated_nonempty size gridSize engine); assumption.
  - intros p x y z Hp (Hx & Hy & Hz).
    destruct (Hin p Hp) as (Hpx & Hpy & Hpz).
    unfold INT_MAX in Hint.
    apply distance_finite; lia.
  - intros x y z Hv. rewrite (Hval x y z Hv). f_equal.
    now apply voxel_eq.
Qed.

(** Every index of the result is the linear index of a voxel. *)
Lemma linear_index_surj size n :
  0 < size -> (n < Z.to_nat (size * size * size))%nat ->
  exists x y z, in_volume size x y z /\ linear_index size x y z = n.
Proof.
  intros Hs Hn.
  destruct (flat_index_surj size (Z.of_nat n) Hs ltac:(lia))
    as (i & j & k & Hi & Hj & Hk & E).
  exists k, j, i. split; [unfold in_volume; lia|].
  unfold linear_index, flat_index in *.
  replace (k + j * size + i * size * size) with (Z.of_nat n) by lia.
  apply Nat2Z.id.
Qed.

(** On valid inputs the call returns when a vector can hold a feature
    point per voxel. *)
Lemma worleyNoise3D_returns size gridSize engine :
  0 < gridSize <= size -> size ^ 3 <= max_points ->
  exists r, worleyNoise3D size gridSize engine = Returns r.
Proof.
  intros Hvalid Hcap.
  replace (size ^ 3) with (size * size * size) in Hcap by ring.
  destruct (volume_fits size ltac:(lia) Hcap) as [Hfit _].
  now apply worleyNoise3D_total.
Qed.

(** * The claims *)

Lemma run_4_2 : worleyNoise3D 4 2 count_engine = Returns noise_4_2.
Proof. vm_compute. reflexivity. Qed.

Lemma generate_4_2 :
  details.generateFeaturePoints 4 2 count_engine = Returns points_4_2.
Proof. vm_compute. reflexivity. Qed.

(** ** C1 *)

(** C1, as stated, fails: for [size = 5] and [gridSize = 2], which do not
    divide evenly, the cell edge of the evaluator is the float of the
    generator's truncated cell edge 2, and not the real quotient 2.5. *)
Lemma cell_edge_not_real_quotient :
  5 mod 2 <> 0 /\
  details.sizeOfEachCell 5 2 = Some 2 /\
  sizeOfEachCell 5 2 = Some (static_cast_float 2) /\
  sizeOfEachCell 5 2 <> Some (static_cast_float 5 / static_cast_float 2)%f32.
Proof. repeat split; try reflexivity; discriminate. Qed.

(** C1 (amended): the cell edge that [worleyNoise3D] normalises with is
    the quotient [size / gridSize] truncated to an integer [c] and then
    converted to [float]; whenever the quotient fits an [int], [c] is the
    cell edge of the generator too; and the normalisation constant is
    [sqrtf (c * c * 3)] in single precision. *)
Theorem evaluator_cell_edge_truncated size gridSize :
  is_size_t size -> 0 < gridSize -> size / gridSize <= INT_MAX ->
  exists c : Z,
    gridSize * c <= size < gridSize * (c + 1) /\
    details.sizeOfEachCell size gridSize = Some c /\
    sizeOfEachCell size gridSize = Some (static_cast_float c) /\
    normaliser size gridSize
      = sqrtf (static_cast_float c * static_cast_float c * 3.f)%f32.
Proof.
  intros Hs Hg Hq. exists (size / gridSize).
  unfold is_size_t in Hs.
  pose proof (Z.mul_div_le size gridSize Hg).
  pose proof (Z.mul_succ_div_gt size gridSize Hg).
  assert (0 <= size / gridSize) by (apply Z.div_pos; lia).
  split; [lia|].
  unfold details.sizeOfEachCell, sizeOfEachCell, size_t_div.
  destruct (Z.eqb_spec gridSize 0) as [|_]; [lia|]. simpl.
  rewrite static_cast_int_small by (unfold INT_MIN; lia).
  repeat split.
Qed.

Lemma evaluator_cell_edge_truncated_witness :
  is_size_t 5 /\ 0 < 2 /\ 5 / 2 <= INT_MAX /\
  exists c : Z,
    2 * c <= 5 < 2 * (c + 1) /\
    details.sizeOfEachCell 5 2 = Some c /\
    sizeOfEachCell 5 2 = Some (static_cast_float c) /\
    normaliser 5 2
      = sqrtf (static_cast_float c * static_cast_float c * 3.f)%f32.
Proof.
  assert (is_size_t 5) as H1 by (unfold is_size_t, SIZE_WIDTH; lia).
  assert (0 < 2) as H2 by lia.
  assert (5 / 2 <= INT_MAX) as H3 by (vm_compute; discriminate).
  exact (conj H1 (conj H2 (conj H3
           (evaluator_cell_edge_truncated 5 2 H1 H2 H3)))).
Defined.

(** ** C3 *)

(** C3, as stated, fails: for [size = 2^21] and [gridSize = 1] the
    constructor of the result is asked for 2^63 elements, more than
    [max_size()], and throws [std::length_error]; for [size = 2^22] and
    [gridSize = 1] the product [size * size * size] wraps to 0, the
    vector is empty and the first write is outside it.  Neither call
    returns an array. *)
Lemma result_length_counterexample :
  0 < 1 <= 2097152 /\
  worleyNoise3D 2097152 1 zero_engine = Throws length_error /\
  0 < 1 <= 4194304 /\
  worleyNoise3D 4194304 1 zero_engine = Undefined.
Proof.
  split; [lia|]. split; [vm_compute; reflexivity|].
  split; [lia|]. vm_compute. reflexivity.
Qed.

(** C3 (amended): for valid inputs with [size]^3 at most the capacity
    [max_size()] of the vector of feature points, [worleyNoise3D] returns
    an array of exactly [size]^3 elements; and every array that it
    returns on a valid input has [size]^3 elements, with [size]^3 within
    that capacity. *)
Theorem result_length size gridSize engine :
  is_size_t size -> 0 < gridSize <= size ->
  (size ^ 3 <= max_points ->
   exists r, worleyNoise3D size gridSize engine = Returns r /\
             Z.of_nat (length r) = size ^ 3) /\
  (forall r, worleyNoise3D size gridSize engine = Returns r ->
     Z.of_nat (length r) = size ^ 3 /\ size ^ 3 <= max_points).
Proof.
  intros Hs Hvalid.
  assert (is_size_t gridSize) as Hg by (unfold is_size_t in *; lia).
  assert (forall r, worleyNoise3D size gridSize engine = Returns r ->
            Z.of_nat (length r) = size ^ 3 /\ size ^ 3 <= max_points)
    as Hpartial.
  { intros r Hrun. replace (size ^ 3) with (size * size * size) by ring.
    destruct (worleyNoise3D_inv size gridSize engine r Hs Hg Hrun)
      as (_ & _ & pts & _ & Hlen & _).
    split; [exact Hlen|].
    now apply (worleyNoise3D_capacity size gridSize engine r). }
  split; [|exact Hpartial].
  intros Hcap.
  destruct (worleyNoise3D_returns size gridSize engine Hvalid Hcap)
    as [r Hrun].
  exists r. split; [assumption|]. now apply Hpartial.
Qed.

Lemma result_length_witness :
  is_size_t 4 /\ 0 < 2 <= 4 /\
  (4 ^ 3 <= max_points ->
   exists r, worleyNoise3D 4 2 count_engine = Returns r /\
             Z.of_nat (length r) = 4 ^ 3) /\
  (forall r, worleyNoise3D 4 2 count_engine = Returns r ->
     Z.of_nat (length r) = 4 ^ 3 /\ 4 ^ 3 <= max_points).
Proof.
  assert (is_size_t 4) as H1 by (unfold is_size_t, SIZE_WIDTH; lia).
  assert (0 < 2 <= 4) as H2 by lia.
  exact (conj H1 (conj H2 (result_length 4 2 count_engine H1 H2))).
Defined.

(** ** C4 *)

(** C4, as stated, fails: for [size = 3 * 2^30] and [gridSize = 3] the
    coordinates of the last layer of cells do not fit an [int], and the
    point of cell [(2, 0, 0)], at position 18, has a negative [x]; and for
    [size = 2^21] and [gridSize = 1] the generator reserves room for 2^63
    points, more than [max_size()], and throws [std::length_error]. *)
Lemma cells_counterexample :
  0 < 3 <= 3221225472 /\
  (exists pts p,
     details.generateFeaturePoints 3221225472 3 zero_engine = Returns pts /\
     pts !! Z.to_nat (flat_index 3 2 0 0) = Some p /\
     details.x p = -2147483648 /\
     ~ in_cell (3221225472 / 3) 2 0 0 p) /\
  0 < 1 <= 2097152 /\
  details.generateFeaturePoints 2097152 1 zero_engine = Throws length_error.
Proof.
  split; [lia|]. split; [|split; [lia|vm_compute; reflexivity]].
  eexists _, _. split; [vm_compute; reflexivity|].
  split; [vm_compute; reflexivity|].
  split; [reflexivity|].
  unfold in_cell. simpl details.x.
  change (3221225472 / 3) with 1073741824. lia.
Qed.

(** C4 (amended): for valid inputs with [size <= INT_MAX],
    [generateFeaturePoints] returns whenever [size]^3 is at most the
    capacity [max_size()] of its vector, and whenever it returns, it
    returns exactly [gridSize]^3 points, the point of cell [(i, j, k)] at
    position [i * gridSize^2 + j * gridSize + k], and each of its
    components lies in [[i * cellEdge, (i + 1) * cellEdge - 1]] (and
    likewise for [j], [k]), where [cellEdge = size / gridSize]
    truncated. *)
Theorem generated_cells size gridSize engine :
  0 < gridSize <= size -> size <= INT_MAX ->
  (size ^ 3 <= max_points ->
   exists pts,
     details.generateFeaturePoints size gridSize engine = Returns pts) /\
  forall pts,
    details.generateFeaturePoints size gridSize engine = Returns pts ->
    Z.of_nat (length pts) = gridSize ^ 3 /\
    forall i j k,
      0 <= i < gridSize -> 0 <= j < gridSize -> 0 <= k < gridSize ->
      exists p,
        pts !! Z.to_nat (i * gridSize * gridSize + j * gridSize + k)
          = Some p /\
        in_cell (size / gridSize) i j k p.
Proof.
  intros Hvalid Hint. split.
  - intros Hcap. replace (size ^ 3) with (size * size * size) in Hcap by ring.
    now apply generateFeaturePoints_total.
  - intros pts Hgen.
    destruct (generateFeaturePoints_spec size gridSize engine Hvalid Hint
                pts Hgen) as (Hlen & Hpts).
    destruct (cell_edge_bounds size gridSize Hvalid) as [Hc _].
    split; [rewrite Hlen; ring|].
    intros i j k Hi Hj Hk. eexists. split; [apply (Hpts i j k Hi Hj Hk)|].
    apply feature_point_in_cell. lia.
Qed.

Lemma generated_cells_witness :
  0 < 2 <= 4 /\ 4 <= INT_MAX /\
  (4 ^ 3 <= max_points ->
   exists pts, details.generateFeaturePoints 4 2 count_engine = Returns pts) /\
  forall pts,
    details.generateFeaturePoints 4 2 count_engine = Returns pts ->
    Z.of_nat (length pts) = 2 ^ 3 /\
    forall i j k,
      0 <= i < 2 -> 0 <= j < 2 -> 0 <= k < 2 ->
      exists p,
        pts !! Z.to_nat (i * 2 * 2 + j * 2 + k) = Some p /\
        in_cell (4 / 2) i j k p.
Proof.
  assert (0 < 2 <= 4) as H1 by lia.
  assert (4 <= INT_MAX) as H2 by (vm_compute; discriminate).
  exact (conj H1 (conj H2 (generated_cells 4 2 count_engine H1 H2))).
Defined.

(** ** C9 *)

(** The coordinate of the last layer of cells for [size = 5 * 2^30] and
    [gridSize = 5]: the conversion to [int] takes [4 * 2^30 + r] to
    [r]. *)
Lemma cell_coordinate_wraps r :
  0 <= r < 1073741824 -> details.cell_coordinate 4 1073741824 r = r.
Proof.
  intros Hr.
  unfold details.cell_coordinate, size_t_add, size_t_mul.
  rewrite (size_t_wrap_small r) by (unfold is_size_t, SIZE_WIDTH; lia).
  rewrite (size_t_wrap_small 1073741824)
    by (unfold is_size_t, SIZE_WIDTH; lia).
  rewrite (size_t_wrap_small (4 * 1073741824))
    by (unfold is_size_t, SIZE_WIDTH; lia).
  rewrite (size_t_wrap_small (4 * 1073741824 + r))
    by (unfold is_size_t, SIZE_WIDTH; lia).
  unfold static_cast_int, INT_WIDTH.
  replace (4 * 1073741824 + r + 2 ^ 31)
    with (r + 2147483648 + 1 * 2 ^ 32) by lia.
  rewrite Z.mod_add by lia. rewrite Z.mod_small by lia. lia.
Qed.

(** C9, as stated, fails: for [size = 5 * 2^30] and [gridSize = 5] the
    generator returns, whatever the engine, and the conversion to [int]
    puts the point of cell [(4, 0, 0)] into the coordinate ranges of cell
    [(0, 0, 0)], where the point of that cell lies too: the ranges of
    distinct cells are not disjoint, and the two points are equal exactly
    when the three offsets drawn for the one equal those drawn for the
    other. *)
Lemma distinct_counterexample :
  0 < 5 <= 5368709120 /\
  forall engine, exists pts p q,
    details.generateFeaturePoints 5368709120 5 engine = Returns pts /\
    pts !! Z.to_nat (flat_index 5 0 0 0) = Some p /\
    pts !! Z.to_nat (flat_index 5 4 0 0) = Some q /\
    in_cell (5368709120 / 5) 0 0 0 p /\
    in_cell (5368709120 / 5) 0 0 0 q /\
    (p = q <->
     offset engine (5368709120 / 5) 0 = offset engine (5368709120 / 5) 300 /\
     offset engine (5368709120 / 5) 1 = offset engine (5368709120 / 5) 301 /\
     offset engine (5368709120 / 5) 2 = offset engine (5368709120 / 5) 302).
Proof.
  split; [lia|]. intros engine.
  change (5368709120 / 5) with 1073741824.
  destruct (generateFeaturePoints_returns 5368709120 5 engine)
    as [pts Hgen]; [lia|vm_compute; discriminate..|].
  pose proof (generateFeaturePoints_Returns 5368709120 5 engine pts
                ltac:(lia) Hgen) as (_ & _ & _ & _ & _ & Hpts).
  change (static_cast_int (5368709120 / 5)) with 1073741824 in Hpts.
  assert (forall n, 0 <= offset engine 1073741824 n < 1073741824) as Ho
    by (intros n; apply Z.mod_pos_bound; lia).
  exists pts, (raw_point engine 5 1073741824 0 0 0),
         (raw_point engine 5 1073741824 4 0 0).
  split; [assumption|].
  split; [apply Hpts; lia|]. split; [apply Hpts; lia|].
  unfold raw_point.
  change (flat_index 5 0 0 0) with 0. change (flat_index 5 4 0 0) with 100.
  change (3 * 0) with 0. change (0 + 1) with 1. change (0 + 2) with 2.
  change (3 * 100) with 300. change (300 + 1) with 301.
  change (300 + 2) with 302.
  pose proof (Ho 0). pose proof (Ho 1). pose proof (Ho 2).
  pose proof (Ho 300). pose proof (Ho 301). pose proof (Ho 302).
  rewrite !cell_coordinate_wraps by auto.
  rewrite !cell_coordinate_small by (unfold INT_MAX; lia).
  rewrite !Z.mul_0_l, !Z.add_0_l.
  split; [unfold in_cell; simpl; lia|].
  split; [unfold in_cell; simpl; lia|].
  split.
  - intros E. injection E as -> -> ->. auto.
  - intros (-> & -> & ->). reflexivity.
Qed.

(** C9 (amended): for valid inputs with [size <= INT_MAX],
    [generateFeaturePoints] returns whenever [size]^3 is at most the
    capacity [max_size()] of its vector, and whenever it returns, the
    [gridSize]^3 points are pairwise distinct, because the point of a
    cell lies in the coordinate ranges of that cell and of no other. *)
Theorem generated_distinct size gridSize engine :
  0 < gridSize <= size -> size <= INT_MAX ->
  (size ^ 3 <= max_points ->
   exists pts,
     details.generateFeaturePoints size gridSize engine = Returns pts) /\
  forall pts,
    details.generateFeaturePoints size gridSize engine = Returns pts ->
    NoDup pts /\ Z.of_nat (length pts) = gridSize ^ 3 /\
    forall i j k p,
      0 <= i < gridSize -> 0 <= j < gridSize -> 0 <= k < gridSize ->
      pts !! Z.to_nat (flat_index gridSize i j k) = Some p ->
      in_cell (size / gridSize) i j k p /\
      forall i' j' k',
        in_cell (size / gridSize) i' j' k' p ->
        i' = i /\ j' = j /\ k' = k.
Proof.
  intros Hvalid Hint. split.
  - intros Hcap. replace (size ^ 3) with (size * size * size) in Hcap by ring.
    now apply generateFeaturePoints_total.
  - intros pts Hgen.
    destruct (generateFeaturePoints_spec size gridSize engine Hvalid Hint
                pts Hgen) as (Hlen & Hpts).
    destruct (cell_edge_bounds size gridSize Hvalid) as [Hc _].
    split; [now apply (generated_points_NoDup size gridSize engine)|].
    split; [rewrite Hlen; ring|].
    intros i j k p Hi Hj Hk Hp.
    rewrite (Hpts i j k Hi Hj Hk) in Hp. injection Hp as <-.
    pose proof (feature_point_in_cell engine gridSize (size / gridSize)
                  i j k ltac:(lia)) as Hcell.
    split; [assumption|].
    intros i' j' k' Hcell'.
    apply (in_cell_unique (size / gridSize) i' j' k' i j k
             (feature_point engine gridSize (size / gridSize) i j k));
      [lia|assumption..].
Qed.

Lemma generated_distinct_witness :
  0 < 2 <= 4 /\ 4 <= INT_MAX /\
  (4 ^ 3 <= max_points ->
   exists pts, details.generateFeaturePoints 4 2 count_engine = Returns pts) /\
  forall pts,
    details.generateFeaturePoints 4 2 count_engine = Returns pts ->
    NoDup pts /\ Z.of_nat (length pts) = 2 ^ 3 /\
    forall i j k p,
      0 <= i < 2 -> 0 <= j < 2 -> 0 <= k < 2 ->
      pts !! Z.to_nat (flat_index 2 i j k) = Some p ->
      in_cell (4 / 2) i j k p /\
      forall i' j' k',
        in_cell (4 / 2) i' j' k' p -> i' = i /\ j' = j /\ k' = k.
Proof.
  assert (0 < 2 <= 4) as H1 by lia.
  assert (4 <= INT_MAX) as H2 by (vm_compute; discriminate).
  exact (conj H1 (conj H2 (generated_distinct 4 2 count_engine H1 H2))).
Defined.

(** ** C10 *)

(** C10, as stated, fails: for [size = 3 * 2^30] and [gridSize = 3] the
    point of cell [(0, 0, 2)], at position 2, has the component
    [z = -2^31], outside [[0, size)]; and for [size = 2^21] and
    [gridSize = 1] no point is generated: the generator throws
    [std::length_error]. *)
Lemma in_volume_counterexample :
  0 < 3 <= 3221225472 /\
  (exists pts p,
     details.generateFeaturePoints 3221225472 3 zero_engine = Returns pts /\
     p ∈ pts /\
     ~ in_volume 3221225472 (details.x p) (details.y p) (details.z p)) /\
  0 < 1 <= 2097152 /\
  details.generateFeaturePoints 2097152 1 zero_engine = Throws length_error.
Proof.
  split; [lia|]. split; [|split; [lia|vm_compute; reflexivity]].
  exists (returned [] (details.generateFeaturePoints 3221225472 3 zero_engine)),
         (details.mkVector3 0 0 (-2147483648)).
  split; [vm_compute; reflexivity|].
  split.
  - apply list_elem_of_lookup. exists 2%nat. vm_compute. reflexivity.
  - unfold in_volume. simpl. lia.
Qed.

(** C10 (amended): for valid inputs with [size <= INT_MAX],
    [generateFeaturePoints] returns whenever [size]^3 is at most the
    capacity [max_size()] of its vector, and whenever it returns, its
    points all lie inside the output volume: each component is at least 0
    and at most [gridSize * cellEdge - 1 <= size - 1]. *)
Theorem generated_inside size gridSize engine :
  0 < gridSize <= size -> size <= INT_MAX ->
  (size ^ 3 <= max_points ->
   exists pts,
     details.generateFeaturePoints size gridSize engine = Returns pts) /\
  forall pts,
    details.generateFeaturePoints size gridSize engine = Returns pts ->
    gridSize * (size / gridSize) - 1 <= size - 1 /\
    forall p, p ∈ pts ->
      0 <= details.x p <= gridSize * (size / gridSize) - 1 /\
      0 <= details.y p <= gridSize * (size / gridSize) - 1 /\
      0 <= details.z p <= gridSize * (size / gridSize) - 1.
Proof.
  intros Hvalid Hint. split.
  - intros Hcap. replace (size ^ 3) with (size * size * size) in Hcap by ring.
    now apply generateFeaturePoints_total.
  - intros pts Hgen.
    destruct (cell_edge_bounds size gridSize Hvalid) as [Hc Hgc].
    split; [lia|].
    intros p Hp.
    destruct (generated_point_cell size gridSize engine Hvalid Hint pts p
                Hgen Hp) as (i & j & k & Hi & Hj & Hk & _ & ->).
    apply (in_cell_in_volume size gridSize Hvalid i j k); try assumption.
    apply feature_point_in_cell. lia.
Qed.

Lemma generated_inside_witness :
  0 < 2 <= 4 /\ 4 <= INT_MAX /\
  (4 ^ 3 <= max_points ->
   exists pts, details.generateFeaturePoints 4 2 count_engine = Returns pts) /\
  forall pts,
    details.generateFeaturePoints 4 2 count_engine = Returns pts ->
    2 * (4 / 2) - 1 <= 4 - 1 /\
    forall p, p ∈ pts ->
      0 <= details.x p <= 2 * (4 / 2) - 1 /\
      0 <= details.y p <= 2 * (4 / 2) - 1 /\
      0 <= details.z p <= 2 * (4 / 2) - 1.
Proof.
  assert (0 < 2 <= 4) as H1 by lia.
  assert (4 <= INT_MAX) as H2 by (vm_compute; discriminate).
  exact (conj H1 (conj H2 (generated_inside 4 2 count_engine H1 H2))).
Defined.

(** ** C8 *)

(** C8, as stated, fails: for [size = 2^22] and [gridSize = 1] the product
    [size * size * size] wraps to 0, the vector has no element, and the
    first write is out of bounds; for [size = 2^32] the cell edge converted
    to [int] is 0 and the range of offsets is empty. *)
Lemma safety_counterexample :
  0 < 1 <= 4194304 /\
  size_t_mul (size_t_mul 4194304 4194304) 4194304 = 0 /\
  worleyNoise3D 4194304 1 zero_engine = Undefined /\
  0 < 1 <= 4294967296 /\
  details.sizeOfEachCell 4294967296 1 = Some 0 /\
  details.generateFeaturePoints 4294967296 1 zero_engine = Undefined.
Proof.
  split; [lia|]. split; [reflexivity|]. split; [vm_compute; reflexivity|].
  split; [lia|]. split; reflexivity.
Qed.

(** C8 (amended): under the precondition [0 < gridSize <= size] and with
    [size]^3 below 2^64, the integer division is defined, the truncated
    cell edge is at least 1 and the range of offsets [[0, cellEdge - 1]]
    is accepted, the divisor [oldMax - oldMin] of [mapValue] is positive,
    every write index is inside the [size]^3 array, and neither function
    has undefined behaviour: each returns or throws
    [std::length_error]. *)
Theorem no_undefined_behaviour size gridSize engine :
  0 < gridSize <= size -> size ^ 3 < 2 ^ SIZE_WIDTH ->
  (exists q, size_t_div size gridSize = Some q) /\
  (exists c dist,
     details.sizeOfEachCell size gridSize = Some c /\ 1 <= c /\
     make_uniform_int_distribution 0 (c - 1) = Some dist) /\
  positive_float (normaliser size gridSize - 0.f)%f32 /\
  (forall x y z, in_volume size x y z ->
     0 <= toLinearIndex size x y z < size ^ 3) /\
  details.generateFeaturePoints size gridSize engine <> Undefined /\
  worleyNoise3D size gridSize engine <> Undefined /\
  (forall r, worleyNoise3D size gridSize engine = Returns r ->
     Z.of_nat (length r) = size ^ 3).
Proof.
  intros Hvalid Hfit.
  replace (size ^ 3) with (size * size * size) in * by ring.
  pose proof (fits_int size ltac:(lia) Hfit) as Hint.
  destruct (cell_edge_bounds size gridSize Hvalid) as [Hc Hgc].
  split; [|split; [|split; [|split; [|split; [|split]]]]].
  - unfold size_t_div. destruct (Z.eqb_spec gridSize 0); [lia|eauto].
  - exists (size / gridSize), (mk_dist 0 (size / gridSize - 1)).
    split; [now apply generator_cell_edge|]. split; [assumption|].
    unfold make_uniform_int_distribution.
    destruct (Z.leb_spec 0 (size / gridSize - 1)); [reflexivity|lia].
  - pose proof (maxCellDistance_positive (size / gridSize) Hc) as HM.
    fold (normaliser size gridSize) in HM.
    destruct HM; constructor; assumption.
  - intros x y z (Hx & Hy & Hz).
    rewrite (toLinearIndex_exact size Hfit) by assumption.
    apply flat_index_bound; lia.
  - apply generateFeaturePoints_no_UB; [lia|].
    now rewrite (cell_edge_int size gridSize Hvalid Hint).
  - now apply worleyNoise3D_no_UB.
  - intros r Hrun.
    destruct (worleyNoise3D_spec size gridSize engine Hvalid Hfit r Hrun)
      as (pts & _ & Hlen & _).
    exact Hlen.
Qed.

Lemma no_undefined_behaviour_witness :
  0 < 2 <= 4 /\ 4 ^ 3 < 2 ^ SIZE_WIDTH /\
  (exists q, size_t_div 4 2 = Some q) /\
  (exists c dist,
     details.sizeOfEachCell 4 2 = Some c /\ 1 <= c /\
     make_uniform_int_distribution 0 (c - 1) = Some dist) /\
  positive_float (normaliser 4 2 - 0.f)%f32 /\
  (forall x y z, in_volume 4 x y z -> 0 <= toLinearIndex 4 x y z < 4 ^ 3) /\
  details.generateFeaturePoints 4 2 count_engine <> Undefined /\
  worleyNoise3D 4 2 count_engine <> Undefined /\
  (forall r, worleyNoise3D 4 2 count_engine = Returns r ->
     Z.of_nat (length r) = 4 ^ 3).
Proof.
  assert (0 < 2 <= 4) as H1 by lia.
  assert (4 ^ 3 < 2 ^ SIZE_WIDTH) as H2 by (vm_compute; reflexivity).
  exact (conj H1 (conj H2 (no_undefined_behaviour 4 2 count_engine H1 H2))).
Defined.

(** ** C2 *)

(** C2: the call returns on valid inputs with [size]^3 at most the
    capacity [max_size()] of the vector of feature points, and whenever
    it returns it has stored, for every voxel [(x, y, z)] of
    [[0, size)]^3, at index [x + y * size + z * size^2], the value
    [1 - minDist / maxCellDistance], where [minDist] is the least
    Euclidean distance from the voxel to a generated feature point, up to
    the roundings of [details::distance]: it is the distance computed for
    one of the feature points, and for no feature point a smaller
    distance is computed. *)
Theorem stored_values size gridSize engine :
  is_size_t size -> is_size_t gridSize ->
  (0 < gridSize <= size -> size ^ 3 <= max_points ->
   exists r, worleyNoise3D size gridSize engine = Returns r) /\
  forall r, worleyNoise3D size gridSize engine = Returns r ->
    exists pts,
      details.generateFeaturePoints size gridSize engine = Returns pts /\
      forall x y z, in_volume size x y z ->
        exists minDist D,
          r !! linear_index size x y z
            = Some (1.f - minDist / normaliser size gridSize)%f32 /\
          least_squared_distance pts x y z D /\
          approximates_sqrt D minDist /\
          (exists p, p ∈ pts /\ minDist = voxel_distance p x y z) /\
          (forall p, p ∈ pts ->
             (voxel_distance p x y z < minDist)%f32 = false).
Proof.
  intros Hs Hg. split; [apply worleyNoise3D_returns|].
  intros r Hrun.
  destruct (worleyNoise3D_context size gridSize engine r Hs Hg Hrun)
    as (pts & Hgen & HM & Hne & Hin & Hfin & Hlen & Hval).
  destruct (worleyNoise3D_inv size gridSize engine r Hs Hg Hrun)
    as (Hvalid & Hfit & _).
  pose proof (fits_small size ltac:(lia) Hfit) as Hsmall.
  exists pts. split; [assumption|].
  intros x y z Hv.
  destruct (least_squared_distance_exists pts x y z Hne) as [D HD].
  exists (nearest pts x y z), D.
  split; [now apply Hval|]. split; [assumption|]. split.
  - destruct Hv as (Hx & Hy & Hz).
    apply nearest_approximates; try lia; [|assumption].
    intros p Hp. specialize (Hin p Hp). unfold in_volume in Hin. lia.
  - apply nearest_spec; [|assumption].
    intros p Hp. now apply Hfin.
Qed.

Lemma stored_values_witness :
  is_size_t 4 /\ is_size_t 2 /\
  worleyNoise3D 4 2 count_engine = Returns noise_4_2 /\
  exists pts,
    details.generateFeaturePoints 4 2 count_engine = Returns pts /\
    forall x y z, in_volume 4 x y z ->
      exists minDist D,
        noise_4_2 !! linear_index 4 x y z
          = Some (1.f - minDist / normaliser 4 2)%f32 /\
        least_squared_distance pts x y z D /\
        approximates_sqrt D minDist /\
        (exists p, p ∈ pts /\ minDist = voxel_distance p x y z) /\
        (forall p, p ∈ pts ->
           (voxel_distance p x y z < minDist)%f32 = false).
Proof.
  assert (is_size_t 4) as H1 by (unfold is_size_t, SIZE_WIDTH; lia).
  assert (is_size_t 2) as H2 by (unfold is_size_t, SIZE_WIDTH; lia).
  assert (worleyNoise3D 4 2 count_engine = Returns noise_4_2) as H3
    by (vm_compute; reflexivity).
  exact (conj H1 (conj H2 (conj H3
           (proj2 (stored_values 4 2 count_engine H1 H2) noise_4_2 H3)))).
Defined.

(** ** C5 *)

(** C5: every value of a result is at most 1, and nothing is clamped:
    the value of a voxel whose nearest feature point is farther than
    [maxCellDistance] is strictly negative.  The call returns on valid
    inputs with [size]^3 at most the capacity [max_size()] of the vector
    of feature points. *)
Theorem values_unclamped size gridSize engine :
  is_size_t size -> is_size_t gridSize ->
  (0 < gridSize <= size -> size ^ 3 <= max_points ->
   exists r, worleyNoise3D size gridSize engine = Returns r) /\
  forall r, worleyNoise3D size gridSize engine = Returns r ->
    (forall v, v ∈ r -> (v <= 1.f)%f32 = true) /\
    exists pts,
      details.generateFeaturePoints size gridSize engine = Returns pts /\
      forall x y z, in_volume size x y z ->
        (normaliser size gridSize < nearest pts x y z)%f32 = true ->
        exists v,
          r !! linear_index size x y z = Some v /\ (v < 0.f)%f32 = true.
Proof.
  intros Hs Hg. split; [apply worleyNoise3D_returns|].
  intros r Hrun.
  destruct (worleyNoise3D_context size gridSize engine r Hs Hg Hrun)
    as (pts & Hgen & HM & Hne & Hin & Hfin & Hlen & Hval).
  destruct (worleyNoise3D_inv size gridSize engine r Hs Hg Hrun)
    as (Hvalid & _).
  split.
  - intros v Hv. apply list_elem_of_lookup in Hv as [n Hn].
    pose proof (lookup_lt_Some _ _ _ Hn) as Hlt.
    destruct (linear_index_surj size n ltac:(lia) ltac:(lia))
      as (x & y & z & Hxyz & <-).
    rewrite (Hval x y z Hxyz) in Hn. injection Hn as <-.
    rewrite static_cast_float_one.
    pose proof (fdiv_nonneg _ _ (nearest_finite pts x y z) HM) as Hq.
    pose proof (one_minus_anti (S754_zero false) _ nonneg_zero Hq
                  (SFleb_zero_nonneg _ Hq)) as Hle.
    rewrite one_minus_zero in Hle. exact Hle.
  - exists pts. split; [assumption|].
    intros x y z Hv Hfar. eexists. split; [now apply Hval|].
    rewrite static_cast_float_one.
    apply one_minus_neg.
    + apply fdiv_nonneg; [apply nearest_finite|assumption].
    + apply fdiv_gt_one; [apply nearest_finite|assumption..].
Qed.

(** The run with [size = 5] and [gridSize = 3]: the nearest feature point
    of the voxel [(4, 4, 4)] is farther than [maxCellDistance], and the
    value stored for it is [-1]. *)
Lemma values_unclamped_witness :
  is_size_t 5 /\ is_size_t 3 /\
  worleyNoise3D 5 3 zero_engine = Returns noise_5_3 /\
  (forall v, v ∈ noise_5_3 -> (v <= 1.f)%f32 = true) /\
  details.generateFeaturePoints 5 3 zero_engine = Returns points_5_3 /\
  (normaliser 5 3 < nearest points_5_3 4 4 4)%f32 = true /\
  noise_5_3 !! linear_index 5 4 4 4 = Some (S754_finite true 8388608 (-23)) /\
  exists pts,
    details.generateFeaturePoints 5 3 zero_engine = Returns pts /\
    forall x y z, in_volume 5 x y z ->
      (normaliser 5 3 < nearest pts x y z)%f32 = true ->
      exists v,
        noise_5_3 !! linear_index 5 x y z = Some v /\ (v < 0.f)%f32 = true.
Proof.
  assert (is_size_t 5) as H1 by (unfold is_size_t, SIZE_WIDTH; lia).
  assert (is_size_t 3) as H2 by (unfold is_size_t, SIZE_WIDTH; lia).
  assert (worleyNoise3D 5 3 zero_engine = Returns noise_5_3) as H3
    by (vm_compute; reflexivity).
  assert (details.generateFeaturePoints 5 3 zero_engine = Returns points_5_3)
    as H4 by (vm_compute; reflexivity).
  assert ((normaliser 5 3 < nearest points_5_3 4 4 4)%f32 = true) as H4'
    by (vm_compute; reflexivity).
  assert (noise_5_3 !! linear_index 5 4 4 4
          = Some (S754_finite true 8388608 (-23))) as H5
    by (vm_compute; reflexivity).
  pose proof (proj2 (values_unclamped 5 3 zero_engine H1 H2) noise_5_3 H3)
    as [H6 H7].
  exact (conj H1 (conj H2 (conj H3 (conj H6 (conj H4 (conj H4' (conj H5 H7))))))).
Defined.

(** ** C6 *)

Lemma flt_zero_false f :
  finite_nonneg f -> (S754_zero false < f)%f32 = false ->
  f = S754_zero false.
Proof. intros [|m e Hb] H; [reflexivity|discriminate H]. Qed.

(** C6: at a voxel whose coordinates are those of a generated feature
    point the value of a result is exactly 1.  The call returns on valid
    inputs with [size]^3 at most the capacity [max_size()] of the vector
    of feature points. *)
Theorem value_at_feature_point size gridSize engine :
  is_size_t size -> is_size_t gridSize ->
  (0 < gridSize <= size -> size ^ 3 <= max_points ->
   exists r, worleyNoise3D size gridSize engine = Returns r) /\
  forall r, worleyNoise3D size gridSize engine = Returns r ->
    exists pts,
      details.generateFeaturePoints size gridSize engine = Returns pts /\
      forall p, p ∈ pts ->
        r !! linear_index size (details.x p) (details.y p) (details.z p)
          = Some 1.f%f32.
Proof.
  intros Hs Hg. split; [apply worleyNoise3D_returns|].
  intros r Hrun.
  destruct (worleyNoise3D_context size gridSize engine r Hs Hg Hrun)
    as (pts & Hgen & HM & Hne & Hin & Hfin & Hlen & Hval).
  destruct (worleyNoise3D_inv size gridSize engine r Hs Hg Hrun)
    as (Hvalid & Hfit & _).
  pose proof (fits_int size ltac:(lia) Hfit) as Hint.
  exists pts. split; [assumption|].
  intros p Hp. pose proof (Hin p Hp) as Hv.
  rewrite (Hval _ _ _ Hv). f_equal.
  assert (nearest pts (details.x p) (details.y p) (details.z p)
          = S754_zero false) as ->.
  { destruct (nearest_spec pts (details.x p) (details.y p) (details.z p))
      as [_ Hlow]; [intros q Hq; now apply Hfin|eauto|].
    specialize (Hlow p Hp). unfold voxel_distance in Hlow.
    destruct Hv as (Hx & Hy & Hz). unfold INT_MAX in Hint.
    rewrite distance_self in Hlow by lia.
    apply flt_zero_false; [apply nearest_finite|assumption]. }
  rewrite static_cast_float_one.
  destruct HM; reflexivity.
Qed.

Lemma value_at_feature_point_witness :
  is_size_t 4 /\ is_size_t 2 /\
  worleyNoise3D 4 2 count_engine = Returns noise_4_2 /\
  exists pts,
    details.generateFeaturePoints 4 2 count_engine = Returns pts /\
    forall p, p ∈ pts ->
      noise_4_2 !! linear_index 4 (details.x p) (details.y p) (details.z p)
        = Some 1.f%f32.
Proof.
  assert (is_size_t 4) as H1 by (unfold is_size_t, SIZE_WIDTH; lia).
  assert (is_size_t 2) as H2 by (unfold is_size_t, SIZE_WIDTH; lia).
  assert (worleyNoise3D 4 2 count_engine = Returns noise_4_2) as H3
    by (vm_compute; reflexivity).
  exact (conj H1 (conj H2 (conj H3
           (proj2 (value_at_feature_point 4 2 count_engine H1 H2)
              noise_4_2 H3)))).
Defined.

(** ** C7 *)

(** When no feature point is closer to a voxel than [p], the scan returns
    the distance to [p]. *)
Lemma nearest_of_closest pts p x y z :
  (forall q, q ∈ pts -> finite_nonneg (voxel_distance q x y z)) ->
  p ∈ pts ->
  (forall q, q ∈ pts ->
     (voxel_distance q x y z < voxel_distance p x y z)%f32 = false) ->
  nearest pts x y z = voxel_distance p x y z.
Proof.
  intros Hfin Hp Hclosest.
  destruct (nearest_spec pts x y z Hfin) as [(q & Hq & E) Hlow]; [eauto|].
  specialize (Hlow p Hp). rewrite E in *.
  specialize (Hclosest q Hq).
  apply flt_false_value in Hlow; [|auto..].
  apply flt_false_value in Hclosest; [|auto..].
  apply value_inj; auto. lia.
Qed.

(** The steps of a ray move away from its origin along every axis. *)
Lemma ray_between p d s t :
  0 <= s <= t -> between p (p + s * d) (p + t * d).
Proof.
  intros Hst. unfold between.
  destruct (Z.le_gt_cases 0 d); [left|right]; nia.
Qed.

(** The values stored for two voxels to which [p] is a nearest feature
    point are ordered against their computed distances to [p]. *)
Lemma value_antitone size gridSize engine r pts p xa ya za xb yb zb :
  is_size_t size -> is_size_t gridSize ->
  worleyNoise3D size gridSize engine = Returns r ->
  details.generateFeaturePoints size gridSize engine = Returns pts ->
  p ∈ pts -> in_volume size xa ya za -> in_volume size xb yb zb ->
  (forall q, q ∈ pts ->
     (voxel_distance q xa ya za < voxel_distance p xa ya za)%f32 = false) ->
  (forall q, q ∈ pts ->
     (voxel_distance q xb yb zb < voxel_distance p xb yb zb)%f32 = false) ->
  (voxel_distance p xa ya za <= voxel_distance p xb yb zb)%f32 = true ->
  exists va vb,
    r !! linear_index size xa ya za = Some va /\
    r !! linear_index size xb yb zb = Some vb /\
    (vb <= va)%f32 = true.
Proof.
  intros Hs Hg Hrun Hpts Hp Ha Hb Hca Hcb Hle.
  destruct (worleyNoise3D_context size gridSize engine r Hs Hg Hrun)
    as (pts' & Hgen & HM & Hne & Hin & Hfin & Hlen & Hval).
  rewrite Hpts in Hgen. injection Hgen as <-.
  eexists _, _. split; [now apply Hval|]. split; [now apply Hval|].
  rewrite (nearest_of_closest pts p xa ya za) by auto.
  rewrite (nearest_of_closest pts p xb yb zb) by auto.
  rewrite static_cast_float_one.
  apply one_minus_anti.
  - apply fdiv_nonneg; auto.
  - apply fdiv_nonneg; auto.
  - apply fdiv_mono; auto.
Qed.

(** C7: take a feature point [p], a direction [(dx, dy, dz)] and the
    voxels at the steps [s <= t] of the ray that leaves [p] in that
    direction, both inside the volume and with no other feature point
    closer to them than [p].  The voxel at step [t] is at least as far
    from [p] as the one at step [s], and its value is at most the value
    of that one.  The call returns on valid inputs with [size]^3 at most
    the capacity [max_size()] of the vector of feature points. *)
Theorem value_monotone size gridSize engine :
  is_size_t size -> is_size_t gridSize ->
  (0 < gridSize <= size -> size ^ 3 <= max_points ->
   exists r, worleyNoise3D size gridSize engine = Returns r) /\
  forall r, worleyNoise3D size gridSize engine = Returns r ->
    exists pts,
      details.generateFeaturePoints size gridSize engine = Returns pts /\
      forall p dx dy dz s t,
        p ∈ pts -> 0 <= s <= t ->
        let xa := details.x p + s * dx in
        let ya := details.y p + s * dy in
        let za := details.z p + s * dz in
        let xb := details.x p + t * dx in
        let yb := details.y p + t * dy in
        let zb := details.z p + t * dz in
        in_volume size xa ya za -> in_volume size xb yb zb ->
        (forall q, q ∈ pts ->
           (voxel_distance q xa ya za < voxel_distance p xa ya za)%f32
           = false) ->
        (forall q, q ∈ pts ->
           (voxel_distance q xb yb zb < voxel_distance p xb yb zb)%f32
           = false) ->
        (voxel_distance p xa ya za <= voxel_distance p xb yb zb)%f32
        = true /\
        exists va vb,
          r !! linear_index size xa ya za = Some va /\
          r !! linear_index size xb yb zb = Some vb /\
          (vb <= va)%f32 = true.
Proof.
  intros Hs Hg. split; [apply worleyNoise3D_returns|].
  intros r Hrun.
  destruct (worleyNoise3D_context size gridSize engine r Hs Hg Hrun)
    as (pts & Hgen & HM & Hne & Hin & Hfin & Hlen & Hval).
  destruct (worleyNoise3D_inv size gridSize engine r Hs Hg Hrun)
    as (Hvalid & Hfit & _).
  pose proof (fits_int size ltac:(lia) Hfit) as Hint.
  unfold INT_MAX in Hint.
  exists pts. split; [assumption|].
  intros p dx dy dz s t Hp Hst xa ya za xb yb zb Ha Hb Hca Hcb.
  assert ((voxel_distance p xa ya za <= voxel_distance p xb yb zb)%f32
          = true) as Hle.
  { destruct (Hin p Hp) as (Hpx & Hpy & Hpz).
    destruct Ha as (Hxa & Hya & Hza), Hb as (Hxb & Hyb & Hzb).
    apply distance_between_mono; try lia; now apply ray_between. }
  split; [exact Hle|].
  now apply (value_antitone size gridSize engine r pts p).
Qed.

(** The run with [size = 4] and [gridSize = 2]: the feature point
    [(0, 1, 0)] and the first two voxels, [(0, 1, 0)] and [(0, 0, 0)], of
    the ray that leaves it in the direction [(0, -1, 0)]. *)
Lemma value_monotone_witness :
  is_size_t 4 /\ is_size_t 2 /\
  worleyNoise3D 4 2 count_engine = Returns noise_4_2 /\
  (voxel_distance (details.mkVector3 0 1 0) 0 1 0
   <= voxel_distance (details.mkVector3 0 1 0) 0 0 0)%f32 = true /\
  exists va vb,
    noise_4_2 !! linear_index 4 0 1 0 = Some va /\
    noise_4_2 !! linear_index 4 0 0 0 = Some vb /\
    (vb <= va)%f32 = true.
Proof.
  assert (is_size_t 4) as H1 by (unfold is_size_t, SIZE_WIDTH; lia).
  assert (is_size_t 2) as H2 by (unfold is_size_t, SIZE_WIDTH; lia).
  assert (worleyNoise3D 4 2 count_engine = Returns noise_4_2) as H3
    by (vm_compute; reflexivity).
  destruct (proj2 (value_monotone 4 2 count_engine H1 H2) noise_4_2 H3)
    as (pts & Hgen & Hmono).
  assert (Returns pts = Returns points_4_2) as E
    by (rewrite <- Hgen; vm_compute; reflexivity).
  injection E as ->.
  refine (conj H1 (conj H2 (conj H3
            (Hmono (details.mkVector3 0 1 0) 0 (-1) 0 0 1 _ _ _ _ _ _)))).
  - apply list_elem_of_here.
  - lia.
  - unfold in_volume. simpl. lia.
  - unfold in_volume. simpl. lia.
  - intros q Hq.
    repeat (apply elem_of_cons in Hq as [->|Hq]; [vm_compute; reflexivity|]).
    now apply elem_of_nil in Hq.
  - intros q Hq.
    repeat (apply elem_of_cons in Hq as [->|Hq]; [vm_compute; reflexivity|]).
    now apply elem_of_nil in Hq.
Defined.

(** * Further properties of the code

    Properties of the same functions that the claims above do not
    state. *)

(** ** [details::distance] *)

Lemma binary_round_aux_opp m e l :
  binary_round_aux prec emax true m e l
  = SFopp (binary_round_aux prec emax false m e l).
Proof.
  unfold binary_round_aux.
  destruct (shr_fexp prec emax m e l) as [mrs' e'].
  destruct (shr_fexp prec emax _ e' loc_Exact) as [mrs'' e''].
  destruct (shr_m mrs''); try reflexivity.
  destruct (e'' <=? emax - prec); reflexivity.
Qed.

Lemma binary_normalize_opp n e :
  n <> 0 ->
  binary_normalize prec emax (- n) e false
  = SFopp (binary_normalize prec emax n e false).
Proof.
  intros Hn. destruct n as [|p|p]; [lia| |]; simpl; unfold binary_round;
    destruct (shl_align _ _ _) as [mz ez]; rewrite binary_round_aux_opp.
  - reflexivity.
  - now destruct (binary_round_aux prec emax false (Z.pos mz) ez loc_Exact)
      as [[]|[]| |[] ? ?].
Qed.

(** Exchanging the operands of a subtraction negates the difference, or
    leaves it as it is when it is a zero or not a number. *)
Lemma fsub_swap a b :
  (b - a)%f32 = (a - b)%f32 \/ (b - a)%f32 = SFopp (a - b)%f32.
Proof.
  unfold fsub.
  destruct a as [[]|[]| |sa ma ea], b as [[]|[]| |sb mb eb];
    try (left; reflexivity); try (right; reflexivity).
  - right. simpl. now destruct sb.
  - right. simpl. now destruct sb.
  - unfold SFsub. rewrite (Z.min_comm eb ea).
    set (ez := Z.min ea eb).
    set (na := cond_Zopp sa (Z.pos (fst (shl_align ma ea ez)))).
    set (nb := cond_Zopp sb (Z.pos (fst (shl_align mb eb ez)))).
    destruct (Z.eq_dec (na - nb) 0) as [E|Hne].
    + left. replace (nb - na) with 0 by lia. now rewrite E.
    + right. replace (nb - na) with (- (na - nb)) by lia.
      now apply binary_normalize_opp.
Qed.

Lemma fmul_opp_self d : (SFopp d * SFopp d)%f32 = (d * d)%f32.
Proof. destruct d as [[]|[]| |[] m e]; reflexivity. Qed.

Lemma square_swap a b :
  ((b - a) * (b - a))%f32 = ((a - b) * (a - b))%f32.
Proof.
  destruct (fsub_swap a b) as [->| ->]; [reflexivity|apply fmul_opp_self].
Qed.

(** X1: the distance is symmetric, whatever the operands, exceptional
    values included. *)
Theorem distance_symmetric (v1 v2 : details.Vector3f) :
  details.distance v1 v2 = details.distance v2 v1.
Proof.
  unfold details.distance.
  now rewrite (square_swap (details.x v1)), (square_swap (details.y v1)),
    (square_swap (details.z v1)).
Qed.

(** X2: the distance of two vectors of floats is never negative: it is
    [+0], a positive number, [+inf] or a NaN. *)
Theorem distance_never_negative (v1 v2 : details.Vector3f) :
  valid_vector v1 -> valid_vector v2 ->
  nonneg_or_nan (details.distance v1 v2).
Proof.
  intros (Hx1 & Hy1 & Hz1) (Hx2 & Hy2 & Hz2).
  unfold details.distance.
  apply sqrtf_nonneg.
  repeat apply fadd_nonneg; apply fmul_self_nonneg; now apply fsub_valid.
Qed.

Lemma distance_never_negative_witness :
  valid_vector (details.toVector3f (details.mkVector3 1 2 3)) /\
  valid_vector (details.toVector3f (details.mkVector3 4 6 3)) /\
  nonneg_or_nan
    (details.distance (details.toVector3f (details.mkVector3 1 2 3))
       (details.toVector3f (details.mkVector3 4 6 3))).
Proof.
  assert (valid_vector (details.toVector3f (details.mkVector3 1 2 3)))
    as H1 by (repeat split; reflexivity).
  assert (valid_vector (details.toVector3f (details.mkVector3 4 6 3)))
    as H2 by (repeat split; reflexivity).
  exact (conj H1 (conj H2 (distance_never_negative _ _ H1 H2))).
Defined.

(** ** [generateFeaturePoints] *)

(** X3: the generator returns exactly when [gridSize] is not 0, the cell
    edge [size / gridSize], converted to [int], is at least 1, the
    product [size * size * size], as [std::size_t], is at most the
    capacity [max_size()] of the vector, which [reserve] checks, and so
    is the number [gridSize]^3 of points. *)
Theorem generateFeaturePoints_defined size gridSize engine :
  0 <= gridSize ->
  (exists pts,
     details.generateFeaturePoints size gridSize engine = Returns pts) <->
  gridSize <> 0 /\ 1 <= static_cast_int (size / gridSize) /\
  size_t_mul (size_t_mul size size) size <= max_points /\
  gridSize ^ 3 <= max_points.
Proof.
  intros Hg. replace (gridSize ^ 3) with (gridSize * gridSize * gridSize)
    by ring.
  split.
  - intros [pts Hgen].
    apply generateFeaturePoints_Returns in Hgen; [|assumption].
    tauto.
  - intros (Hne & Hc & Hres & Hcap).
    apply generateFeaturePoints_returns; [lia|assumption..].
Qed.

Lemma generateFeaturePoints_defined_witness :
  0 <= 2 /\
  ((exists pts,
      details.generateFeaturePoints 4 2 count_engine = Returns pts) <->
   2 <> 0 /\ 1 <= static_cast_int (4 / 2) /\
   size_t_mul (size_t_mul 4 4) 4 <= max_points /\
   2 ^ 3 <= max_points).
Proof.
  assert (0 <= 2) as H1 by lia.
  exact (conj H1 (generateFeaturePoints_defined 4 2 count_engine H1)).
Defined.

(** X4: whenever the generator returns, it returns [gridSize]^3 points,
    also for sizes whose coordinates do not fit an [int]. *)
Theorem generateFeaturePoints_count size gridSize engine pts :
  0 <= gridSize ->
  details.generateFeaturePoints size gridSize engine = Returns pts ->
  Z.of_nat (length pts) = gridSize ^ 3.
Proof.
  intros Hg Hgen.
  apply generateFeaturePoints_Returns in Hgen
    as (_ & _ & _ & _ & Hlen & _); [|assumption].
  rewrite Hlen. ring.
Qed.

Lemma generateFeaturePoints_count_witness :
  0 <= 2 /\
  details.generateFeaturePoints 4 2 count_engine = Returns points_4_2 /\
  Z.of_nat (length points_4_2) = 2 ^ 3.
Proof.
  assert (0 <= 2) as H1 by lia.
  assert (details.generateFeaturePoints 4 2 count_engine = Returns points_4_2)
    as H2 by (vm_compute; reflexivity).
  exact (conj H1 (conj H2
           (generateFeaturePoints_count 4 2 count_engine points_4_2 H1 H2))).
Defined.

(** X5: with no cell ([gridSize = 0]) or more cells than voxels along an
    axis ([size < gridSize]), the behaviour of the generator is
    undefined: it divides by zero or asks for a draw from an empty
    range. *)
Theorem generateFeaturePoints_undefined size gridSize engine :
  0 <= size -> gridSize = 0 \/ size < gridSize ->
  details.generateFeaturePoints size gridSize engine = Undefined.
Proof.
  intros Hs Hbad. apply generateFeaturePoints_Undefined.
  destruct Hbad as [|Hlt]; [left; assumption|right].
  rewrite Z.div_small by lia.
  change (static_cast_int 0) with 0. lia.
Qed.

Lemma generateFeaturePoints_undefined_witness :
  0 <= 4 /\ (5 = 0 \/ 4 < 5) /\
  details.generateFeaturePoints 4 5 count_engine = Undefined.
Proof.
  assert (0 <= 4) as H1 by lia.
  assert (5 = 0 \/ 4 < 5) as H2 by (right; lia).
  exact (conj H1 (conj H2
           (generateFeaturePoints_undefined 4 5 count_engine H1 H2))).
Defined.

(** ** [toVector3f] *)

Lemma static_cast_float_inj a b :
  0 <= a <= 2 ^ 24 -> 0 <= b <= 2 ^ 24 ->
  static_cast_float a = static_cast_float b -> a = b.
Proof.
  intros Ha Hb E.
  destruct (static_cast_float_exact a Ha) as [_ Va].
  destruct (static_cast_float_exact b Hb) as [_ Vb].
  rewrite E, Vb in Va. pose proof (scale_pos 0 ltac:(lia)). nia.
Qed.

(** X6: the conversion of a point to [float] coordinates is one-to-one
    as long as the coordinates are at most 2^24; the next integer,
    2^24 + 1, is already rounded to 2^24. *)
Theorem toVector3f_injective (p q : details.Vector3i) :
  0 <= details.x p <= 2 ^ 24 -> 0 <= details.y p <= 2 ^ 24 ->
  0 <= details.z p <= 2 ^ 24 ->
  0 <= details.x q <= 2 ^ 24 -> 0 <= details.y q <= 2 ^ 24 ->
  0 <= details.z q <= 2 ^ 24 ->
  (details.toVector3f p = details.toVector3f q -> p = q) /\
  details.toVector3f (details.mkVector3 (2 ^ 24 + 1) 0 0)
  = details.toVector3f (details.mkVector3 (2 ^ 24) 0 0).
Proof.
  intros Hpx Hpy Hpz Hqx Hqy Hqz. split; [|reflexivity]. intros E.
  destruct p as [px py pz], q as [qx qy qz]. simpl in *.
  unfold details.toVector3f in E. simpl in E. injection E as Ex Ey Ez.
  f_equal; now apply static_cast_float_inj.
Qed.

Lemma toVector3f_injective_witness :
  0 <= 1 <= 2 ^ 24 /\ 0 <= 2 <= 2 ^ 24 /\ 0 <= 3 <= 2 ^ 24 /\
  0 <= 4 <= 2 ^ 24 /\ 0 <= 6 <= 2 ^ 24 /\
  (details.toVector3f (details.mkVector3 1 2 3)
   = details.toVector3f (details.mkVector3 4 6 3) ->
   details.mkVector3 1 2 3 = details.mkVector3 4 6 3) /\
  details.toVector3f (details.mkVector3 (2 ^ 24 + 1) 0 0)
  = details.toVector3f (details.mkVector3 (2 ^ 24) 0 0).
Proof.
  assert (0 <= 1 <= 2 ^ 24) as H1 by lia.
  assert (0 <= 2 <= 2 ^ 24) as H2 by lia.
  assert (0 <= 3 <= 2 ^ 24) as H3 by lia.
  assert (0 <= 4 <= 2 ^ 24) as H4 by lia.
  assert (0 <= 6 <= 2 ^ 24) as H5 by lia.
  exact (conj H1 (conj H2 (conj H3 (conj H4 (conj H5
           (toVector3f_injective (details.mkVector3 1 2 3)
              (details.mkVector3 4 6 3) H1 H2 H3 H4 H5 H3)))))).
Defined.

(** ** Distances between voxels *)

Lemma sq_diff_ge_one a p :
  0 <= a <= 2 ^ 24 -> 0 <= p <= 2 ^ 24 -> a <> p ->
  let d := (static_cast_float a - static_cast_float p)%f32 in
  value one <= value (d * d)%f32.
Proof.
  intros Ha Hp Hne d.
  destruct (fsub_int_exact a p Ha Hp) as [Hd Vd]. fold d in Hd, Vd.
  pose proof (scale_pos 0 ltac:(lia)) as Hs0.
  change one with (one * one)%f32 at 1.
  apply (fmul_self_mono _ _ 24); [lia| |assumption|].
  - split; [reflexivity|].
    change (Z.pos 8388608 * scale (-23)) with (value one).
    rewrite value_one. apply scale_le. lia.
  - rewrite Vd, value_one. nia.
Qed.

Lemma sum_ge_one_l a b :
  finite_nonneg a -> finite_nonneg b -> finite_nonneg (a + b)%f32 ->
  value one <= value a -> value one <= value (a + b)%f32.
Proof.
  intros Ha Hb Hab Hle.
  change one with (one + S754_zero false)%f32 at 1.
  apply fadd_mono; try assumption; try constructor.
  - reflexivity.
  - apply value_nonneg.
Qed.

Lemma sum_ge_one_r a b :
  finite_nonneg a -> finite_nonneg b -> finite_nonneg (a + b)%f32 ->
  value one <= value b -> value one <= value (a + b)%f32.
Proof.
  intros Ha Hb Hab Hle.
  change one with (S754_zero false + one)%f32 at 1.
  apply fadd_mono; try assumption; try constructor.
  - reflexivity.
  - apply value_nonneg.
Qed.

(** Two different voxels are at distance 1 at least. *)
Lemma distance_ge_one (p : details.Vector3i) x y z :
  0 <= details.x p <= 2 ^ 24 -> 0 <= details.y p <= 2 ^ 24 ->
  0 <= details.z p <= 2 ^ 24 ->
  0 <= x <= 2 ^ 24 -> 0 <= y <= 2 ^ 24 -> 0 <= z <= 2 ^ 24 ->
  ~ (details.x p = x /\ details.y p = y /\ details.z p = z) ->
  value one <= value (voxel_distance p x y z).
Proof.
  intros Hpx Hpy Hpz Hx Hy Hz Hne.
  unfold voxel_distance, details.distance, details.toVector3f.
  cbn [details.x details.y details.z].
  set (sx := ((static_cast_float x - static_cast_float (details.x p))
              * (static_cast_float x - static_cast_float (details.x p)))%f32).
  set (sy := ((static_cast_float y - static_cast_float (details.y p))
              * (static_cast_float y - static_cast_float (details.y p)))%f32).
  set (sz := ((static_cast_float z - static_cast_float (details.z p))
              * (static_cast_float z - static_cast_float (details.z p)))%f32).
  assert (finite_le (scale 62) sx) as Hsx by (apply sq_diff_finite; lia).
  assert (finite_le (scale 62) sy) as Hsy by (apply sq_diff_finite; lia).
  assert (finite_le (scale 62) sz) as Hsz by (apply sq_diff_finite; lia).
  pose proof (fadd_finite _ _ 62 ltac:(lia) Hsx Hsy) as Hxy.
  pose proof (fadd_finite _ _ 63 ltac:(lia) Hxy
                (finite_le_weaken 62 63 _ ltac:(lia) Hsz)) as Hxyz.
  change one with (sqrtf one) at 1.
  apply sqrtf_mono; [constructor; reflexivity|apply Hxyz|].
  destruct (Z.eq_dec x (details.x p)) as [Ex|Nx].
  - destruct (Z.eq_dec y (details.y p)) as [Ey|Ny].
    + assert (z <> details.z p) as Nz by lia.
      apply sum_ge_one_r; [apply Hxy|apply Hsz|apply Hxyz|].
      apply sq_diff_ge_one; lia.
    + apply sum_ge_one_l; [apply Hxy|apply Hsz|apply Hxyz|].
      apply sum_ge_one_r; [apply Hsx|apply Hsy|apply Hxy|].
      apply sq_diff_ge_one; lia.
  - apply sum_ge_one_l; [apply Hxy|apply Hsz|apply Hxyz|].
    apply sum_ge_one_l; [apply Hsx|apply Hsy|apply Hxy|].
    apply sq_diff_ge_one; lia.
Qed.

(** X7: between a point and a voxel with coordinates up to 2^24 the
    computed distance is [+0] when they coincide and at least 1 when they
    do not. *)
Theorem distance_separates (p : details.Vector3i) x y z :
  0 <= details.x p <= 2 ^ 24 -> 0 <= details.y p <= 2 ^ 24 ->
  0 <= details.z p <= 2 ^ 24 ->
  0 <= x <= 2 ^ 24 -> 0 <= y <= 2 ^ 24 -> 0 <= z <= 2 ^ 24 ->
  (details.x p = x /\ details.y p = y /\ details.z p = z ->
   voxel_distance p x y z = 0.f%f32) /\
  (~ (details.x p = x /\ details.y p = y /\ details.z p = z) ->
   (1.f <= voxel_distance p x y z)%f32 = true).
Proof.
  intros Hpx Hpy Hpz Hx Hy Hz. split.
  - intros (<- & <- & <-). unfold voxel_distance. apply distance_self; lia.
  - intros Hne. rewrite static_cast_float_one. unfold fle.
    apply SFleb_value; [constructor; reflexivity| |now apply distance_ge_one].
    unfold voxel_distance. apply distance_finite; lia.
Qed.

Lemma distance_separates_witness :
  0 <= 0 <= 2 ^ 24 /\ 0 <= 1 <= 2 ^ 24 /\
  (0 = 0 /\ 1 = 0 /\ 0 = 0 ->
   voxel_distance (details.mkVector3 0 1 0) 0 0 0 = 0.f%f32) /\
  (~ (0 = 0 /\ 1 = 0 /\ 0 = 0) ->
   (1.f <= voxel_distance (details.mkVector3 0 1 0) 0 0 0)%f32 = true).
Proof.
  assert (0 <= 0 <= 2 ^ 24) as H0 by lia.
  assert (0 <= 1 <= 2 ^ 24) as H1 by lia.
  exact (conj H0 (conj H1
           (distance_separates (details.mkVector3 0 1 0) 0 0 0
              H0 H1 H0 H0 H0 H0))).
Defined.

(** ** [details::mapValue] *)

Lemma fsub_diag a : isfinite a = true -> (a - a)%f32 = 0.f%f32.
Proof.
  destruct a as [[]|[]| |s m e]; try discriminate; try reflexivity.
  intros _. unfold fsub, SFsub. now rewrite Z.sub_diag.
Qed.

Lemma SFeqb_refl n : isfinite n = true -> SFeqb n n = true.
Proof.
  destruct n as [[]|[]| |s m e]; try discriminate; try reflexivity.
  intros _. unfold SFeqb, SFcompare.
  rewrite Z.compare_refl.
  change (Pos.compare_cont Eq m m) with (m ?= m)%positive.
  rewrite Pos.compare_refl. now destruct s.
Qed.

(** X8: [oldMin] is mapped to [newMin] (up to the sign of a zero),
    whenever the bounds are finite, the width of the target range is
    finite and the divisor [oldMax - oldMin] is neither zero nor a NaN. *)
Theorem mapValue_lower_endpoint oldMin oldMax newMin newMax :
  isfinite oldMin = true -> isfinite newMin = true ->
  isfinite (newMax - newMin)%f32 = true ->
  nonzero (oldMax - oldMin)%f32 = true ->
  SFeqb (details.mapValue oldMin oldMin oldMax newMin newMax) newMin = true.
Proof.
  intros Ha Hn Hw Hd. unfold details.mapValue.
  rewrite (fsub_diag oldMin Ha).
  destruct (newMax - newMin)%f32 as [sw|sw| |sw mw ew]; try discriminate Hw;
    destruct (oldMax - oldMin)%f32 as [sd|sd| |sd md ed];
    try discriminate Hd;
    destruct newMin as [[]|[]| |sn mn en]; try discriminate Hn;
    try (destruct sw, sd; reflexivity);
    destruct sw, sd; apply (SFeqb_refl (S754_finite sn mn en)); reflexivity.
Qed.

Lemma mapValue_lower_endpoint_witness :
  isfinite 1.f%f32 = true /\ isfinite 0.f%f32 = true /\
  isfinite (1.f - 0.f)%f32 = true /\ nonzero (3.f - 1.f)%f32 = true /\
  SFeqb (details.mapValue 1.f 1.f 3.f 0.f 1.f)%f32 0.f%f32 = true.
Proof.
  assert (isfinite 1.f%f32 = true) as H1 by reflexivity.
  assert (isfinite 0.f%f32 = true) as H2 by reflexivity.
  assert (isfinite (1.f - 0.f)%f32 = true) as H3 by reflexivity.
  assert (nonzero (3.f - 1.f)%f32 = true) as H4 by reflexivity.
  exact (conj H1 (conj H2 (conj H3 (conj H4
           (mapValue_lower_endpoint 1.f%f32 3.f%f32 0.f%f32 1.f%f32
              H1 H2 H3 H4))))).
Defined.

(** X9: with [oldMax = oldMin] the divisor is zero and the result is
    never a finite number, whatever the value and the target range. *)
Theorem mapValue_degenerate value oldMin newMin newMax :
  isfinite oldMin = true ->
  isfinite (details.mapValue value oldMin oldMin newMin newMax) = false.
Proof.
  intros Ha. unfold details.mapValue.
  rewrite (fsub_diag oldMin Ha).
  destruct ((value - oldMin) * (newMax - newMin))%f32 as [[]|[]| |[] m e];
    destruct newMin as [[]|[]| |[] mn en]; reflexivity.
Qed.

Lemma mapValue_degenerate_witness :
  isfinite 1.f%f32 = true /\
  isfinite (details.mapValue 3.f 1.f 1.f 0.f 1.f)%f32 = false.
Proof.
  assert (isfinite 1.f%f32 = true) as H1 by reflexivity.
  exact (conj H1
           (mapValue_degenerate 3.f%f32 1.f%f32 0.f%f32 1.f%f32 H1)).
Defined.

(** X10: from [[0, oldMax]] to [[0, 1]], as [worleyNoise3D] calls it,
    the remapping of a finite non-negative value is its division by
    [oldMax], with no other rounding. *)
Theorem mapValue_unit_range t M :
  finite_nonneg t -> positive_float M ->
  details.mapValue t 0.f%f32 M 0.f%f32 1.f%f32 = (t / M)%f32.
Proof. exact (mapValue_unit t M). Qed.

Lemma mapValue_unit_range_witness :
  finite_nonneg 3.f%f32 /\ positive_float one /\
  details.mapValue 3.f%f32 0.f%f32 one 0.f%f32 1.f%f32 = (3.f / one)%f32.
Proof.
  assert (finite_nonneg 3.f%f32) as H1 by (constructor; reflexivity).
  assert (positive_float one) as H2 by (constructor; reflexivity).
  exact (conj H1 (conj H2 (mapValue_unit_range 3.f%f32 one H1 H2))).
Defined.

(** ** [worleyNoise3D]: when it returns, and its indices *)

(** X11: for [std::size_t] arguments the call returns exactly when
    [0 < gridSize <= size] and [size]^3 is at most the capacity
    [max_size()] of the vector of feature points. *)
Theorem worleyNoise3D_defined size gridSize engine :
  is_size_t size -> is_size_t gridSize ->
  (exists r, worleyNoise3D size gridSize engine = Returns r) <->
  0 < gridSize <= size /\ size ^ 3 <= max_points.
Proof.
  intros Hs Hg. split.
  - intros [r Hrun]. replace (size ^ 3) with (size * size * size) by ring.
    split.
    + now apply (worleyNoise3D_Returns size gridSize engine r).
    + now apply (worleyNoise3D_capacity size gridSize engine r).
  - intros [Hvalid Hcap]. now apply worleyNoise3D_returns.
Qed.

Lemma worleyNoise3D_defined_witness :
  is_size_t 4 /\ is_size_t 2 /\
  ((exists r, worleyNoise3D 4 2 count_engine = Returns r) <->
   0 < 2 <= 4 /\ 4 ^ 3 <= max_points).
Proof.
  assert (is_size_t 4) as H1 by (unfold is_size_t, SIZE_WIDTH; lia).
  assert (is_size_t 2) as H2 by (unfold is_size_t, SIZE_WIDTH; lia).
  exact (conj H1 (conj H2 (worleyNoise3D_defined 4 2 count_engine H1 H2))).
Defined.

(** X12: as long as [size]^3 fits [std::size_t], the linear index is a
    one-to-one correspondence between the voxels and the positions of the
    array: no position is written twice and none is left out. *)
Theorem toLinearIndex_bijective size :
  0 <= size -> size ^ 3 < 2 ^ SIZE_WIDTH ->
  (forall x y z x' y' z',
     in_volume size x y z -> in_volume size x' y' z' ->
     toLinearIndex size x y z = toLinearIndex size x' y' z' ->
     x = x' /\ y = y' /\ z = z') /\
  (forall n, 0 <= n < size ^ 3 ->
     exists x y z, in_volume size x y z /\ toLinearIndex size x y z = n).
Proof.
  intros Hs Hfit. replace (size ^ 3) with (size * size * size) in * by ring.
  split.
  - intros x y z x' y' z' (Hx & Hy & Hz) (Hx' & Hy' & Hz') E.
    rewrite !(toLinearIndex_exact size Hfit) in E by assumption.
    apply flat_index_inj in E; [lia|lia..].
  - intros n Hn.
    destruct (flat_index_surj size n ltac:(nia) Hn)
      as (i & j & k & Hi & Hj & Hk & E).
    exists k, j, i. split; [unfold in_volume; lia|].
    now rewrite (toLinearIndex_exact size Hfit).
Qed.

Lemma toLinearIndex_bijective_witness :
  0 <= 4 /\ 4 ^ 3 < 2 ^ SIZE_WIDTH /\
  (forall x y z x' y' z',
     in_volume 4 x y z -> in_volume 4 x' y' z' ->
     toLinearIndex 4 x y z = toLinearIndex 4 x' y' z' ->
     x = x' /\ y = y' /\ z = z') /\
  (forall n, 0 <= n < 4 ^ 3 ->
     exists x y z, in_volume 4 x y z /\ toLinearIndex 4 x y z = n).
Proof.
  assert (0 <= 4) as H1 by lia.
  assert (4 ^ 3 < 2 ^ SIZE_WIDTH) as H2 by (vm_compute; reflexivity).
  exact (conj H1 (conj H2 (toLinearIndex_bijective 4 H1 H2))).
Defined.

(** X13: the scan for the nearest feature point does not depend on the
    order of the points, nor on repetitions among them. *)
Theorem nearest_unordered pts pts' x y z :
  (forall p, p ∈ pts ->
     0 <= details.x p <= 2 ^ 31 /\ 0 <= details.y p <= 2 ^ 31 /\
     0 <= details.z p <= 2 ^ 31) ->
  0 <= x <= 2 ^ 31 -> 0 <= y <= 2 ^ 31 -> 0 <= z <= 2 ^ 31 ->
  (forall p, p ∈ pts <-> p ∈ pts') ->
  nearest pts x y z = nearest pts' x y z.
Proof.
  intros Hrange Hx Hy Hz Hsame.
  assert (forall p, p ∈ pts -> finite_nonneg (voxel_distance p x y z))
    as Hfin.
  { intros p Hp. destruct (Hrange p Hp) as (? & ? & ?).
    unfold voxel_distance. now apply distance_finite. }
  assert (forall p, p ∈ pts' -> finite_nonneg (voxel_distance p x y z))
    as Hfin' by (intros p Hp; apply Hfin, Hsame, Hp).
  destruct pts as [|p0 pts0].
  - destruct pts' as [|p0' pts0']; [reflexivity|].
    exfalso. eapply not_elem_of_nil, Hsame, list_elem_of_here.
  - set (pts := p0 :: pts0) in *.
    assert (p0 ∈ pts) as Hp0 by apply list_elem_of_here.
    destruct (nearest_spec pts x y z Hfin) as [(q & Hq & E) Hlow]; [eauto|].
    destruct (nearest_spec pts' x y z Hfin') as [(q' & Hq' & E') Hlow'].
    { exists p0. now apply Hsame. }
    rewrite E, E'.
    specialize (Hlow q' (proj2 (Hsame q') Hq')).
    specialize (Hlow' q (proj1 (Hsame q) Hq)).
    rewrite E in Hlow. rewrite E' in Hlow'.
    apply flt_false_value in Hlow; [|auto..].
    apply flt_false_value in Hlow'; [|auto..].
    apply value_inj; auto. lia.
Qed.

Lemma nearest_unordered_witness :
  nearest [details.mkVector3 0 1 0; details.mkVector3 1 0 3] 0 0 0
  = nearest [details.mkVector3 1 0 3; details.mkVector3 0 1 0;
             details.mkVector3 1 0 3] 0 0 0.
Proof.
  apply nearest_unordered; try lia.
  - intros p Hp.
    repeat (apply elem_of_cons in Hp as [->|Hp]; [simpl; lia|]).
    now apply elem_of_nil in Hp.
  - intros p. rewrite !elem_of_cons, !elem_of_nil. tauto.
Defined.

(** ** The normalisation constant *)

Lemma value_three : value 3.f%f32 = 3 * scale 0.
Proof.
  change (value 3.f%f32) with (Z.pos 12582912 * scale (-22)).
  change (Z.pos 12582912) with (3 * 2 ^ 22).
  rewrite (scale_add (-22) 22 ltac:(lia) ltac:(lia) : scale 0 = _). ring.
Qed.

Lemma finite_positive f :
  finite_nonneg f -> 0 < value f ->
  exists m e, f = S754_finite false m e /\ bounded prec emax m e = true.
Proof. intros [|m e Hb] Hv; [simpl in Hv; lia|eauto]. Qed.

(** The square of the cell edge and the radicand of the normalisation
    constant. *)
Lemma cell_edge_square c :
  1 <= c <= 2 ^ 22 ->
  let s := (static_cast_float c * static_cast_float c)%f32 in
  finite_le (scale 44) s /\ scale 0 <= value s.
Proof.
  intros Hc s.
  destruct (static_cast_float_exact c ltac:(lia)) as [Hf Vc].
  pose proof (scale_pos 0 ltac:(lia)) as Hs0.
  assert (scale 22 = 2 ^ 22 * scale 0) as Hs22
    by (rewrite Z.mul_comm; apply (scale_add 0 22); lia).
  assert (finite_abs_le (scale 22) (static_cast_float c)) as Habs.
  { destruct Hf as [|m e Hb]; [exact I|]. split; [assumption|].
    simpl in Vc. nia. }
  split.
  - now apply (fmul_self_finite _ 22).
  - rewrite <- value_one. change one with (one * one)%f32.
    apply (fmul_self_mono _ _ 22); [lia| |assumption|].
    + split; [reflexivity|].
      change (Z.pos 8388608 * scale (-23)) with (value one).
      rewrite value_one. apply scale_le. lia.
    + rewrite Vc, value_one. nia.
Qed.

Lemma radicand_bounds c :
  1 <= c <= 2 ^ 22 ->
  let s := (static_cast_float c * static_cast_float c)%f32 in
  finite_le (scale 46) (s * 3.f)%f32 /\ scale 0 <= value (s * 3.f)%f32 /\
  rounds false (value s * (3 * scale 0)) (scale 0) (s * 3.f)%f32.
Proof.
  intros Hc s.
  destruct (cell_edge_square c Hc) as [[Hf Hle] Hge]. fold s in Hf, Hle, Hge.
  pose proof (scale_pos 0 ltac:(lia)) as Hs0.
  destruct (finite_positive s Hf ltac:(lia)) as (m & e & E & Hb).
  rewrite E in *. simpl value in *.
  pose proof (fmul_rounds false m e false 12582912 (-22) Hb eq_refl) as R.
  change (Z.pos 12582912 * scale (-22)) with (value 3.f%f32) in R.
  rewrite value_three in R.
  change (SFmul prec emax (S754_finite false m e)
            (S754_finite false 12582912 (-22)))
    with (S754_finite false m e * 3.f)%f32 in R.
  assert (finite_le (scale 46) (S754_finite false m e * 3.f)%f32) as Hfin.
  { apply (rounds_finite_le _ _ _ 46 R); [lia|lia|].
    assert (scale 46 = scale 44 * 2 ^ 2) as ->
      by (apply (scale_add 44 2); lia).
    change (2 ^ 2) with 4. nia. }
  split; [exact Hfin|]. split; [|exact R].
  rewrite <- value_one.
  apply (rounds_value_mono _ 1 _ _ _ _ (rounds_exact false _ _ one_bounded) R);
    [lia|lia| |apply Hfin].
  pose proof value_one as E1. unfold one, value in E1. rewrite E1. nia.
Qed.

Lemma normaliser_bounds c :
  1 <= c <= 2 ^ 22 ->
  let M := maxCellDistance (static_cast_float c) in
  exists m e, M = S754_finite false m e /\ bounded prec emax m e = true /\
              scale 0 <= value M <= scale 23.
Proof.
  intros Hc M. unfold maxCellDistance in M.
  destruct (radicand_bounds c Hc) as ([Hf Hle] & Hge & _).
  set (rad := (static_cast_float c * static_cast_float c * 3.f)%f32) in *.
  assert (finite_nonneg M) as HM by now apply sqrtf_finite.
  assert (scale 0 <= value M <= scale 23) as Hb.
  { split.
    - rewrite <- value_one. change one with (sqrtf one) at 1.
      apply sqrtf_mono; [constructor; reflexivity|assumption|].
      change (value one <= value rad). now rewrite value_one.
    - assert (value (sqrtf (S754_finite false 8388608 23)) = scale 23) as <-.
      { change (sqrtf (S754_finite false 8388608 23))
          with (S754_finite false 8388608 0).
        apply (pow2_value 23). lia. }
      apply sqrtf_mono; [assumption|constructor; reflexivity|].
      change (value (S754_finite false 8388608 23))
        with (Z.pos 8388608 * scale (46 - 23)).
      rewrite (pow2_value 46) by lia. exact Hle. }
  pose proof (scale_pos 0 ltac:(lia)).
  destruct (finite_positive M HM ltac:(lia)) as (m & e & E & Hbd).
  exists m, e. auto.
Qed.

(** ** The stored values *)

(** The quotient of a distance by a normalisation constant that is at
    least 1. *)
Lemma quotient_bounds t m e :
  finite_nonneg t -> bounded prec emax m e = true ->
  scale 0 <= Z.pos m * scale e ->
  let q := SFdiv prec emax t (S754_finite false m e) in
  finite_nonneg q /\ value q <= value t.
Proof.
  intros Ht Hb HM q. pose proof (scale_pos 0 ltac:(lia)) as Hs0.
  destruct Ht as [|mt et Hbt].
  - split; [constructor|reflexivity].
  - pose proof (fdiv_rounds false mt et false m e Hbt Hb) as R.
    simpl xorb in R. fold q in R.
    apply (rounds_value_mono _ _ _ _ 1 _ R (rounds_exact false mt et Hbt));
      [lia|lia| |now constructor].
    destruct (bounded_digits _ _ Hbt) as (_ & He & _).
    pose proof (scale_pos et ltac:(lia)). nia.
Qed.

Lemma one_minus_finite q :
  finite_nonneg q -> isfinite (SFsub prec emax one q) = true.
Proof.
  intros [|m e Hb]; [reflexivity|].
  destruct (bounded_digits _ _ Hb) as (_ & He & _).
  pose proof (scale_pos e ltac:(lia)) as Hse.
  pose proof (scale_pos 0 ltac:(lia)) as Hs0.
  destruct (one_minus_cases m e Hb) as [[_ ->]|[[Hlt R]|[Hgt R]]];
    [reflexivity| |].
  - destruct (rounds_value_mono _ 1 _ _ 1 _ R
                (rounds_exact false _ _ one_bounded)) as [Hf _];
      [lia|lia| |constructor; exact one_bounded|].
    + simpl value in *. pose proof value_one as E1.
      unfold one, value in E1. lia.
    + destruct Hf; reflexivity.
  - apply rounds_opp in R as (g & -> & R).
    destruct (rounds_value_mono _ 1 _ _ 1 _ R (rounds_exact false m e Hb))
      as [Hf _]; [lia|lia| |now constructor|].
    + simpl value in *. lia.
    + destruct Hf; reflexivity.
Qed.

Lemma stored_value_finite t M :
  finite_nonneg t -> finite_nonneg M -> scale 0 <= value M ->
  isfinite (1.f - t / M)%f32 = true.
Proof.
  intros Ht HM Hge. pose proof (scale_pos 0 ltac:(lia)) as Hs0.
  destruct (finite_positive M HM ltac:(lia)) as (m & e & -> & Hb).
  rewrite static_cast_float_one. apply one_minus_finite.
  now apply quotient_bounds.
Qed.

Lemma stored_value_nonneg t M :
  finite_nonneg t -> finite_nonneg M -> 0 < value M ->
  value t <= value M ->
  (0.f <= 1.f - t / M)%f32 = true.
Proof.
  intros Ht HM Hpos Hle. pose proof (scale_pos 0 ltac:(lia)) as Hs0.
  destruct (finite_positive M HM Hpos) as (m & e & -> & Hb).
  rewrite static_cast_float_one. unfold fle, fsub, fdiv.
  change (S754_zero false) with (SFsub prec emax one one).
  assert (positive_float (S754_finite false m e)) as HMp by now constructor.
  apply one_minus_anti; [now apply fdiv_nonneg|constructor; exact one_bounded|].
  destruct Ht as [|mt et Hbt]; [reflexivity|].
  pose proof (fdiv_rounds false mt et false m e Hbt Hb) as R.
  simpl xorb in R.
  apply (rounds_mono _ _ _ _ 1 _ R (rounds_exact false _ _ one_bounded));
    [simpl in Hpos; lia|lia|].
  pose proof value_one as E1. unfold one, value in E1. rewrite E1.
  simpl value in Hle. nia.
Qed.

Lemma below_one v :
  valid_binary prec emax v = true ->
  SFleb v (S754_finite false 16777214 (-24)) = true ->
  SFltb v one = true.
Proof.
  intros Hv Hle.
  destruct v as [[]|[]| |[] m e]; try reflexivity; try discriminate Hle.
  simpl in Hv.
  assert (finite_nonneg (S754_finite false m e)) as Hf by now constructor.
  assert (finite_nonneg (S754_finite false 16777214 (-24))) as Hu
    by (constructor; reflexivity).
  assert (finite_nonneg one) as Ho by (constructor; reflexivity).
  apply SFleb_value in Hle; [|assumption..].
  apply SFltb_value; [assumption..|].
  assert (SFltb (S754_finite false 16777214 (-24)) one = true) as Hlt
    by reflexivity.
  apply SFltb_value in Hlt; [|assumption..]. lia.
Qed.

Lemma stored_value_lt_one t M :
  finite_nonneg t -> finite_nonneg M ->
  scale 0 <= value t -> scale 0 <= value M <= scale 23 ->
  (1.f - t / M < 1.f)%f32 = true.
Proof.
  intros Ht HM Hge [HMlo HMhi]. pose proof (scale_pos 0 ltac:(lia)) as Hs0.
  destruct (finite_positive M HM ltac:(lia)) as (m & e & -> & Hb).
  destruct (finite_positive t Ht ltac:(lia)) as (mt & et & -> & Hbt).
  rewrite static_cast_float_one. unfold flt, fsub, fdiv.
  set (q := SFdiv prec emax (S754_finite false mt et) (S754_finite false m e)).
  pose proof (fdiv_rounds false mt et false m e Hbt Hb) as R.
  simpl xorb in R. fold q in R.
  set (u := S754_finite false 8388608 (-46)).
  assert (bounded prec emax 8388608 (-46) = true) as Hbu by reflexivity.
  assert (SFleb u q = true) as Hle.
  { apply (rounds_mono _ 1 _ _ _ _ (rounds_exact false _ _ Hbu) R);
      [lia|simpl in HMlo; lia|].
    change (Z.pos 8388608 * scale (-46)) with (Z.pos 8388608 * scale (-23 - 23)).
    rewrite (pow2_value (-23)) by lia.
    simpl value in *.
    pose proof (scale_mul (-23) 23 ltac:(lia) ltac:(lia) ltac:(lia)) as Hm.
    simpl (-23 + 23) in Hm.
    pose proof (scale_pos (-23) ltac:(lia)) as Hs23.
    apply (Z.le_trans _ (scale (-23) * scale 23)).
    - apply Z.mul_le_mono_nonneg_l; lia.
    - rewrite Hm, Z.mul_1_r. change (-23 + 23) with 0.
      apply Z.mul_le_mono_nonneg_r; lia. }
  apply below_one.
  - apply fsub_valid; [reflexivity|]. apply (rounds_valid _ _ _ _ R).
  - change (S754_finite false 16777214 (-24)) with (SFsub prec emax one u).
    apply one_minus_anti; [constructor; reflexivity| |exact Hle].
    apply (rounds_nonneg _ _ _ R).
Qed.

(** ** Voxels inside a cell *)

Lemma sq_diff_le_edge c a p :
  1 <= c <= 2 ^ 22 -> 0 <= a <= 2 ^ 24 -> 0 <= p <= 2 ^ 24 ->
  Z.abs (a - p) <= c ->
  let d := (static_cast_float a - static_cast_float p)%f32 in
  value (d * d)%f32
  <= value (static_cast_float c * static_cast_float c)%f32.
Proof.
  intros Hc Ha Hp Hle d.
  destruct (fsub_int_exact a p Ha Hp) as [Hd Vd]. fold d in Hd, Vd.
  destruct (static_cast_float_exact c ltac:(lia)) as [Hf Vc].
  pose proof (scale_pos 0 ltac:(lia)) as Hs0.
  assert (scale 24 = 2 ^ 24 * scale 0) as Hs24
    by (rewrite Z.mul_comm; apply (scale_add 0 24); lia).
  apply (fmul_self_mono _ _ 24); [lia|assumption| |].
  - destruct Hf as [|m e Hb]; [exact I|]. split; [assumption|].
    simpl in Vc. nia.
  - rewrite Vd, Vc. nia.
Qed.

(** Three times a square of the cell edge, added up or multiplied. *)
Lemma triple_le_product c :
  1 <= c <= 2 ^ 22 ->
  let s := (static_cast_float c * static_cast_float c)%f32 in
  finite_le (scale 45) (s + s)%f32 /\
  finite_le (scale 46) (s + s + s)%f32 /\
  value (s + s + s)%f32 <= value (s * 3.f)%f32.
Proof.
  intros Hc s.
  destruct (cell_edge_square c Hc) as [Hs Hge]. fold s in Hs, Hge.
  destruct (radicand_bounds c Hc) as ([Hf3 _] & _ & R3). fold s in Hf3, R3.
  pose proof (fadd_finite _ _ 44 ltac:(lia) Hs Hs) as Hss.
  pose proof (fadd_finite _ _ 45 ltac:(lia) Hss
                (finite_le_weaken 44 45 _ ltac:(lia) Hs)) as Hsss.
  split; [exact Hss|]. split; [exact Hsss|].
  pose proof (scale_pos 0 ltac:(lia)) as Hs0.
  destruct Hs as [Hfs Hle].
  destruct (finite_positive s Hfs ltac:(lia)) as (m & e & E & Hb).
  rewrite E in *. simpl value in Hge, Hle, R3.
  destruct (bounded_digits _ _ Hb) as (Hd & He & Hcanon).
  pose proof (scale_pos e ltac:(lia)) as Hse.
  (* the square is a normal number, so its double is exact *)
  assert (Zdigits2 (Z.pos m) = 24 /\ e <= 21) as [Hd24 He21].
  { destruct (Zdigits2_bounds (Z.pos m) ltac:(lia)) as [Lm Um].
    assert (-24 < e) as Hlo.
    { destruct (Z.lt_ge_cases (-24) e) as [|Hge']; [assumption|exfalso].
      assert (2 ^ Zdigits2 (Z.pos m) <= 2 ^ 24)
        by (apply Z.pow_le_mono_r; lia).
      assert (scale e * 2 ^ 24 <= scale 0).
      { rewrite <- scale_add by lia. apply scale_le. lia. }
      nia. }
    split; [lia|].
    destruct (Z.le_gt_cases e 21) as [|Hgt]; [assumption|exfalso].
    assert (2 ^ 23 <= Z.pos m)
      by (replace 23 with (Zdigits2 (Z.pos m) - 1) by lia; exact Lm).
    assert (scale 45 <= scale e * 2 ^ 23).
    { rewrite <- scale_add by lia. apply scale_le. lia. }
    pose proof (scale_lt 44 45 ltac:(lia) ltac:(lia)).
    pose proof (scale_pos 44 ltac:(lia)). nia. }
  assert (bounded prec emax m (e + 1) = true) as Hb2
    by (apply bounded_intro; lia).
  assert ((S754_finite false m e + S754_finite false m e)%f32
          = S754_finite false m (e + 1)) as E2.
  { apply (rounds_representable _ 1 _ m (e + 1)
             (fadd_rounds m e m e ltac:(lia) ltac:(lia)));
      [lia|assumption|].
    simpl value. rewrite <- scale_double by lia. ring. }
  rewrite E2.
  pose proof (fadd_rounds m (e + 1) m e ltac:(lia) ltac:(lia)) as R.
  cbv zeta in R. simpl value in R.
  destruct (rounds_value_mono _ 1 _ _ _ _ R R3) as [_ Hv];
    [lia|lia| |apply Hf3|].
  - rewrite <- scale_double by lia. nia.
  - exact Hv.
Qed.

(** A voxel is no farther from a point of its own cell than the
    normalisation constant. *)
Lemma distance_within_cell c (p : details.Vector3i) x y z :
  1 <= c <= 2 ^ 22 ->
  0 <= details.x p <= 2 ^ 24 -> 0 <= details.y p <= 2 ^ 24 ->
  0 <= details.z p <= 2 ^ 24 ->
  0 <= x <= 2 ^ 24 -> 0 <= y <= 2 ^ 24 -> 0 <= z <= 2 ^ 24 ->
  Z.abs (x - details.x p) <= c -> Z.abs (y - details.y p) <= c ->
  Z.abs (z - details.z p) <= c ->
  value (voxel_distance p x y z)
  <= value (maxCellDistance (static_cast_float c)).
Proof.
  intros Hc Hpx Hpy Hpz Hx Hy Hz Dx Dy Dz.
  unfold voxel_distance, details.distance, details.toVector3f,
    maxCellDistance.
  cbn [details.x details.y details.z].
  set (s := (static_cast_float c * static_cast_float c)%f32).
  destruct (cell_edge_square c Hc) as [Hs _]. fold s in Hs.
  destruct (triple_le_product c Hc) as (Hss & Hsss & Hle). fold s in Hss, Hsss, Hle.
  destruct (radicand_bounds c Hc) as ([Hf3 _] & _). fold s in Hf3.
  set (sx := ((static_cast_float x - static_cast_float (details.x p))
              * (static_cast_float x - static_cast_float (details.x p)))%f32).
  set (sy := ((static_cast_float y - static_cast_float (details.y p))
              * (static_cast_float y - static_cast_float (details.y p)))%f32).
  set (sz := ((static_cast_float z - static_cast_float (details.z p))
              * (static_cast_float z - static_cast_float (details.z p)))%f32).
  assert (finite_le (scale 62) sx) as Hsx by (apply sq_diff_finite; lia).
  assert (finite_le (scale 62) sy) as Hsy by (apply sq_diff_finite; lia).
  assert (finite_le (scale 62) sz) as Hsz by (apply sq_diff_finite; lia).
  pose proof (fadd_finite _ _ 62 ltac:(lia) Hsx Hsy) as Hxy.
  pose proof (fadd_finite _ _ 63 ltac:(lia) Hxy
                (finite_le_weaken 62 63 _ ltac:(lia) Hsz)) as Hxyz.
  apply sqrtf_mono; [apply Hxyz|apply Hf3|].
  apply (Z.le_trans _ (value (s + s + s)%f32)); [|exact Hle].
  apply fadd_mono;
    [apply Hxy|apply Hsz|apply Hss|apply Hs|apply Hsss| |].
  - apply fadd_mono;
      [apply Hsx|apply Hsy|apply Hs|apply Hs|apply Hss| |];
      now apply sq_diff_le_edge.
  - now apply sq_diff_le_edge.
Qed.

(** ** Every call that returns *)

(** What a returning call fixes, with the bounds on its normalisation
    constant. *)
Lemma worleyNoise3D_bounds size gridSize engine r :
  is_size_t size -> is_size_t gridSize ->
  worleyNoise3D size gridSize engine = Returns r ->
  0 < gridSize <= size /\ size < 2 ^ 22 /\
  1 <= size / gridSize <= 2 ^ 22 /\
  finite_nonneg (normaliser size gridSize) /\
  scale 0 <= value (normaliser size gridSize) <= scale 23.
Proof.
  intros Hs Hg Hrun.
  destruct (worleyNoise3D_inv size gridSize engine r Hs Hg Hrun)
    as (Hvalid & Hfit & _).
  pose proof (fits_small size ltac:(lia) Hfit) as Hsmall.
  destruct (cell_edge_bounds size gridSize Hvalid) as [Hc1 Hgc].
  assert (1 <= size / gridSize <= 2 ^ 22) as Hc by nia.
  destruct (normaliser_bounds (size / gridSize) Hc)
    as (m & e & E & Hb & HM).
  unfold normaliser. rewrite E in *.
  repeat split; try lia; try apply HM. now constructor.
Qed.

(** X14: every value of a returned array is a finite number, neither a
    NaN nor an infinity. *)
Theorem values_finite size gridSize engine r :
  is_size_t size -> is_size_t gridSize ->
  worleyNoise3D size gridSize engine = Returns r ->
  forall v, v ∈ r -> isfinite v = true.
Proof.
  intros Hs Hg Hrun v Hv.
  destruct (worleyNoise3D_context size gridSize engine r Hs Hg Hrun)
    as (pts & Hgen & _ & _ & _ & _ & Hlen & Hval).
  destruct (worleyNoise3D_bounds size gridSize engine r Hs Hg Hrun)
    as (Hvalid & _ & _ & HM & HMlo & _).
  apply list_elem_of_lookup in Hv as [n Hn].
  pose proof (lookup_lt_Some _ _ _ Hn) as Hlt.
  destruct (linear_index_surj size n ltac:(lia) ltac:(lia))
    as (x & y & z & Hxyz & <-).
  rewrite (Hval x y z Hxyz) in Hn. injection Hn as <-.
  apply stored_value_finite; [apply nearest_finite|assumption..].
Qed.

Lemma values_finite_witness :
  is_size_t 4 /\ is_size_t 2 /\
  worleyNoise3D 4 2 count_engine = Returns noise_4_2 /\
  forall v, v ∈ noise_4_2 -> isfinite v = true.
Proof.
  assert (is_size_t 4) as H1 by (unfold is_size_t, SIZE_WIDTH; lia).
  assert (is_size_t 2) as H2 by (unfold is_size_t, SIZE_WIDTH; lia).
  assert (worleyNoise3D 4 2 count_engine = Returns noise_4_2) as H3
    by (vm_compute; reflexivity).
  exact (conj H1 (conj H2 (conj H3
           (values_finite 4 2 count_engine noise_4_2 H1 H2 H3)))).
Defined.

(** X15: the value 1 is stored at the voxels of the feature points and
    nowhere else: the value of every other voxel is strictly below 1. *)
Theorem value_one_iff size gridSize engine r :
  is_size_t size -> is_size_t gridSize ->
  worleyNoise3D size gridSize engine = Returns r ->
  exists pts,
    details.generateFeaturePoints size gridSize engine = Returns pts /\
    forall x y z, in_volume size x y z ->
      (r !! linear_index size x y z = Some 1.f%f32 <->
       details.mkVector3 x y z ∈ pts) /\
      (details.mkVector3 x y z ∉ pts ->
       exists v,
         r !! linear_index size x y z = Some v /\ (v < 1.f)%f32 = true).
Proof.
  intros Hs Hg Hrun.
  destruct (worleyNoise3D_context size gridSize engine r Hs Hg Hrun)
    as (pts & Hgen & HMp & Hne & Hin & Hfin & Hlen & Hval).
  destruct (worleyNoise3D_bounds size gridSize engine r Hs Hg Hrun)
    as (Hvalid & Hsmall & _ & HM & HMb).
  exists pts. split; [assumption|].
  intros x y z Hv. rewrite (Hval x y z Hv).
  destruct (nearest_spec pts x y z) as [(q & Hq & E) Hlow];
    [intros p Hp; now apply Hfin|assumption|].
  pose proof (Hin q Hq) as (Hqx & Hqy & Hqz).
  destruct Hv as (Hx & Hy & Hz).
  assert (2 ^ 22 <= 2 ^ 24) as Hpow by (apply Z.pow_le_mono_r; lia).
  assert (~ (details.x q = x /\ details.y q = y /\ details.z q = z) ->
          (1.f - nearest pts x y z / normaliser size gridSize < 1.f)%f32
          = true) as Hbelow.
  { intros Hne'. apply stored_value_lt_one;
      [apply nearest_finite|assumption
      |rewrite <- value_one, E; apply distance_ge_one; lia
      |assumption]. }
  split; [split|].
  - intros Hone.
    assert (details.x q = x /\ details.y q = y /\ details.z q = z) as Hsame.
    { destruct (Z.eq_dec (details.x q) x) as [Ex|Nx];
        [destruct (Z.eq_dec (details.y q) y) as [Ey|Ny];
         [destruct (Z.eq_dec (details.z q) z) as [Ez|Nz]; [auto|]|]|];
        exfalso;
        (assert ((1.f - nearest pts x y z / normaliser size gridSize)%f32
                 = 1.f%f32) as E1 by congruence);
        rewrite E1 in Hbelow; specialize (Hbelow ltac:(lia));
        discriminate Hbelow. }
    destruct q as [qx qy qz]. simpl in Hsame.
    destruct Hsame as (<- & <- & <-). exact Hq.
  - intros Hp. f_equal.
    assert (nearest pts x y z = S754_zero false) as ->.
    { specialize (Hlow _ Hp).
      pose proof (distance_self (details.mkVector3 x y z)) as Hself.
      cbn [details.x details.y details.z] in Hself.
      unfold voxel_distance in Hlow.
      rewrite Hself in Hlow by lia.
      apply flt_zero_false; [apply nearest_finite|assumption]. }
    rewrite static_cast_float_one. destruct HMp; reflexivity.
  - intros Hnot. eexists. split; [reflexivity|].
    apply Hbelow. intros (Ex & Ey & Ez). apply Hnot.
    destruct q as [qx qy qz]. simpl in Ex, Ey, Ez. now subst.
Qed.

Lemma value_one_iff_witness :
  is_size_t 4 /\ is_size_t 2 /\
  worleyNoise3D 4 2 count_engine = Returns noise_4_2 /\
  exists pts,
    details.generateFeaturePoints 4 2 count_engine = Returns pts /\
    forall x y z, in_volume 4 x y z ->
      (noise_4_2 !! linear_index 4 x y z = Some 1.f%f32 <->
       details.mkVector3 x y z ∈ pts) /\
      (details.mkVector3 x y z ∉ pts ->
       exists v,
         noise_4_2 !! linear_index 4 x y z = Some v /\
         (v < 1.f)%f32 = true).
Proof.
  assert (is_size_t 4) as H1 by (unfold is_size_t, SIZE_WIDTH; lia).
  assert (is_size_t 2) as H2 by (unfold is_size_t, SIZE_WIDTH; lia).
  assert (worleyNoise3D 4 2 count_engine = Returns noise_4_2) as H3
    by (vm_compute; reflexivity).
  exact (conj H1 (conj H2 (conj H3
           (value_one_iff 4 2 count_engine noise_4_2 H1 H2 H3)))).
Defined.

(** X16: when [gridSize] divides [size], every voxel lies in a cell and
    every value lies in [[0, 1]]. *)
Theorem values_in_unit_interval size gridSize engine r :
  is_size_t size -> is_size_t gridSize ->
  worleyNoise3D size gridSize engine = Returns r ->
  size mod gridSize = 0 ->
  forall v, v ∈ r -> (0.f <= v)%f32 = true /\ (v <= 1.f)%f32 = true.
Proof.
  intros Hs Hg Hrun Hdiv v Hv.
  destruct (worleyNoise3D_context size gridSize engine r Hs Hg Hrun)
    as (pts & Hgen & HMp & Hne & Hin & Hfin & Hlen & Hval).
  destruct (worleyNoise3D_bounds size gridSize engine r Hs Hg Hrun)
    as (Hvalid & Hsmall & Hc & HM & HMlo & HMhi).
  destruct (worleyNoise3D_inv size gridSize engine r Hs Hg Hrun)
    as (_ & Hfit & _).
  pose proof (fits_int size ltac:(lia) Hfit) as Hint.
  apply list_elem_of_lookup in Hv as [n Hn].
  pose proof (lookup_lt_Some _ _ _ Hn) as Hlt.
  destruct (linear_index_surj size n ltac:(lia) ltac:(lia))
    as (x & y & z & Hxyz & <-).
  rewrite (Hval x y z Hxyz) in Hn. injection Hn as <-.
  split.
  - (* the point of the voxel's own cell is near enough *)
    set (c := size / gridSize) in *.
    assert (size = gridSize * c) as Esize
      by (subst c; pose proof (Z.div_mod size gridSize ltac:(lia)); lia).
    destruct Hxyz as (Hx & Hy & Hz).
    assert (forall a, 0 <= a < size ->
              0 <= a / c < gridSize /\ a / c * c <= a < (a / c + 1) * c)
      as Hcell.
    { intros a Ha.
      pose proof (Z.div_mod a c ltac:(lia)) as Ea.
      pose proof (Z.mod_pos_bound a c ltac:(lia)) as Hm.
      assert (0 <= a / c) by (apply Z.div_pos; lia).
      split; [|lia]. split; [assumption|].
      apply Z.div_lt_upper_bound; lia. }
    destruct (Hcell x Hx) as (Hi & Hxi), (Hcell y Hy) as (Hj & Hyj),
      (Hcell z Hz) as (Hk & Hzk).
    destruct (generateFeaturePoints_spec size gridSize engine Hvalid Hint
                pts Hgen) as (_ & Hpts).
    specialize (Hpts (x / c) (y / c) (z / c) Hi Hj Hk).
    set (p := feature_point engine gridSize c (x / c) (y / c) (z / c)) in *.
    assert (p ∈ pts) as Hp by (apply list_elem_of_lookup; eauto).
    destruct (feature_point_in_cell engine gridSize c (x / c) (y / c) (z / c)
                ltac:(lia)) as (Hpx & Hpy & Hpz).
    fold p in Hpx, Hpy, Hpz.
    destruct (nearest_spec pts x y z) as [_ Hlow];
      [intros q Hq; apply Hfin; [assumption|unfold in_volume; lia]
      |assumption|].
    specialize (Hlow p Hp).
    apply flt_false_value in Hlow;
      [|apply Hfin; [assumption|unfold in_volume; lia]|apply nearest_finite].
    pose proof (Hin p Hp) as (Hvx & Hvy & Hvz).
    assert (2 ^ 22 <= 2 ^ 24) as Hpow by (apply Z.pow_le_mono_r; lia).
    pose proof (distance_within_cell c p x y z Hc ltac:(lia) ltac:(lia)
                  ltac:(lia) ltac:(lia) ltac:(lia) ltac:(lia) ltac:(lia)
                  ltac:(lia) ltac:(lia)) as Hd.
    pose proof (scale_pos 0 ltac:(lia)).
    apply stored_value_nonneg; [apply nearest_finite|assumption|lia|].
    unfold normaliser. fold c. lia.
  - rewrite static_cast_float_one.
    pose proof (fdiv_nonneg _ _ (nearest_finite pts x y z) HMp) as Hq.
    pose proof (one_minus_anti (S754_zero false) _ nonneg_zero Hq
                  (SFleb_zero_nonneg _ Hq)) as Hle.
    rewrite one_minus_zero in Hle. exact Hle.
Qed.

Lemma values_in_unit_interval_witness :
  is_size_t 4 /\ is_size_t 2 /\
  worleyNoise3D 4 2 count_engine = Returns noise_4_2 /\ 4 mod 2 = 0 /\
  forall v, v ∈ noise_4_2 ->
    (0.f <= v)%f32 = true /\ (v <= 1.f)%f32 = true.
Proof.
  assert (is_size_t 4) as H1 by (unfold is_size_t, SIZE_WIDTH; lia).
  assert (is_size_t 2) as H2 by (unfold is_size_t, SIZE_WIDTH; lia).
  assert (worleyNoise3D 4 2 count_engine = Returns noise_4_2) as H3
    by (vm_compute; reflexivity).
  assert (4 mod 2 = 0) as H4 by reflexivity.
  exact (conj H1 (conj H2 (conj H3 (conj H4
           (values_in_unit_interval 4 2 count_engine noise_4_2
              H1 H2 H3 H4))))).
Defined.

(** The value stored at the voxel of a feature point. *)
Lemma one_at_feature_point size gridSize engine r pts x y z :
  is_size_t size -> is_size_t gridSize ->
  worleyNoise3D size gridSize engine = Returns r ->
  details.generateFeaturePoints size gridSize engine = Returns pts ->
  in_volume size x y z -> details.mkVector3 x y z ∈ pts ->
  r !! linear_index size x y z = Some 1.f%f32.
Proof.
  intros Hs Hg Hrun Hpts Hv Hp.
  destruct (worleyNoise3D_context size gridSize engine r Hs Hg Hrun)
    as (pts' & Hgen & HMp & Hne & Hin & Hfin & Hlen & Hval).
  rewrite Hpts in Hgen. injection Hgen as <-.
  destruct (worleyNoise3D_bounds size gridSize engine r Hs Hg Hrun)
    as (_ & Hsmall & _).
  rewrite (Hval x y z Hv). f_equal.
  destruct (nearest_spec pts x y z) as [_ Hlow];
    [intros p Hp'; now apply Hfin|assumption|].
  destruct Hv as (Hx & Hy & Hz).
  assert (nearest pts x y z = S754_zero false) as ->.
  { specialize (Hlow _ Hp).
    pose proof (distance_self (details.mkVector3 x y z)) as Hself.
    cbn [details.x details.y details.z] in Hself.
    unfold voxel_distance in Hlow.
    rewrite Hself in Hlow by lia.
    apply flt_zero_false; [apply nearest_finite|assumption]. }
  rewrite static_cast_float_one. destruct HMp; reflexivity.
Qed.

(** X17: with as many cells as voxels along an axis ([gridSize = size])
    every voxel is a feature point and the noise is 1 everywhere. *)
Theorem constant_noise size engine r :
  is_size_t size ->
  worleyNoise3D size size engine = Returns r ->
  (exists pts,
     details.generateFeaturePoints size size engine = Returns pts /\
     forall x y z, in_volume size x y z -> details.mkVector3 x y z ∈ pts) /\
  forall v, v ∈ r -> v = 1.f%f32.
Proof.
  intros Hs Hrun.
  destruct (worleyNoise3D_inv size size engine r Hs Hs Hrun)
    as (Hvalid & Hfit & pts & Hgen & Hlen & _).
  pose proof (fits_int size ltac:(lia) Hfit) as Hint.
  destruct (generateFeaturePoints_spec size size engine Hvalid Hint pts Hgen)
    as (_ & Hpts).
  assert (forall x y z, in_volume size x y z ->
            details.mkVector3 x y z ∈ pts) as Hall.
  { intros x y z (Hx & Hy & Hz).
    specialize (Hpts x y z Hx Hy Hz).
    rewrite Z.div_same in Hpts by lia.
    destruct (feature_point_in_cell engine size 1 x y z ltac:(lia))
      as (Hpx & Hpy & Hpz).
    destruct (feature_point engine size 1 x y z) as [px py pz] eqn:Ep.
    simpl in Hpx, Hpy, Hpz.
    assert (px = x) as -> by lia. assert (py = y) as -> by lia.
    assert (pz = z) as -> by lia.
    apply list_elem_of_lookup. eauto. }
  split; [exists pts; split; assumption|].
  intros v Hv.
  apply list_elem_of_lookup in Hv as [n Hn].
  pose proof (lookup_lt_Some _ _ _ Hn) as Hlt.
  destruct (linear_index_surj size n ltac:(lia) ltac:(lia))
    as (x & y & z & Hxyz & <-).
  rewrite (one_at_feature_point size size engine r pts x y z
             Hs Hs Hrun Hgen Hxyz (Hall x y z Hxyz)) in Hn.
  now injection Hn as <-.
Qed.

Lemma constant_noise_witness :
  is_size_t 2 /\
  worleyNoise3D 2 2 count_engine = Returns noise_2_2 /\
  (exists pts,
     details.generateFeaturePoints 2 2 count_engine = Returns pts /\
     forall x y z, in_volume 2 x y z -> details.mkVector3 x y z ∈ pts) /\
  forall v, v ∈ noise_2_2 -> v = 1.f%f32.
Proof.
  assert (is_size_t 2) as H1 by (unfold is_size_t, SIZE_WIDTH; lia).
  assert (worleyNoise3D 2 2 count_engine = Returns noise_2_2) as H2
    by (vm_compute; reflexivity).
  exact (conj H1 (conj H2 (constant_noise 2 count_engine noise_2_2 H1 H2))).
Defined.
